(** * bandit-dl: a shallow embedding of [main.go] and its properties

    The development follows the Go source function by function.  A Go
    [string] is a sequence of bytes and is embedded as a Rocq [string]
    (a list of [ascii] bytes); a [rune] and an [int] are embedded as [Z].
    Calls that leave the program (network, file system, tag library,
    standard output) are recorded as events in a trace, and the answers
    of the outside world are read from a record of oracles that see the
    whole history. *)

From Stdlib Require Import ZArith String Ascii List Lia DecimalString.
From stdpp Require Import base list gmap strings.

Set Warnings "-register-all".
Local Open Scope Z_scope.

(** ** Go strings: bytes, runes and UTF-8 *)

Module GoString.

Definition rune := Z.

(** The numeric value of a byte of a string, and the byte of a value. *)
Definition byte_val (c : ascii) : Z := Z.of_N (N_of_ascii c).
Definition mk_byte (z : Z) : ascii := ascii_of_N (Z.to_N z).

(** [utf8.RuneError], the replacement character U+FFFD. *)
Definition RuneError : rune := 0xFFFD.
(** [utf8.MaxRune] and the surrogate range. *)
Definition MaxRune : rune := 0x10FFFF.
Definition surrogateMin : rune := 0xD800.
Definition surrogateMax : rune := 0xDFFF.

(** [lo <= b <= hi], the acceptance test of a continuation byte. *)
Definition accept (lo hi b : Z) : bool := (lo <=? b) && (b <=? hi).

(** The range accepted for the second byte of a sequence, by leading
    byte (the [acceptRanges] table of [unicode/utf8]). *)
Definition second_lo (b0 : Z) : Z :=
  if b0 =? 0xE0 then 0xA0 else if b0 =? 0xF0 then 0x90 else 0x80.
Definition second_hi (b0 : Z) : Z :=
  if b0 =? 0xED then 0x9F else if b0 =? 0xF4 then 0x8F else 0xBF.

(** [for _, r := range s]: the runes a range loop over [s] yields.  A
    byte that does not start a well-formed sequence yields [RuneError]
    and the loop advances by one byte. *)
Fixpoint runes (s : string) : list rune :=
  match s with
  | EmptyString => []
  | String c0 t0 =>
    let b0 := byte_val c0 in
    if b0 <? 0x80 then b0 :: runes t0
    else if b0 <? 0xC2 then RuneError :: runes t0
    else if b0 <? 0xE0 then
      match t0 with
      | String c1 t1 =>
        let b1 := byte_val c1 in
        if accept 0x80 0xBF b1
        then ((b0 - 0xC0) * 64 + (b1 - 0x80)) :: runes t1
        else RuneError :: runes t0
      | _ => RuneError :: runes t0
      end
    else if b0 <? 0xF0 then
      match t0 with
      | String c1 (String c2 t2) =>
        let b1 := byte_val c1 in
        let b2 := byte_val c2 in
        if accept (second_lo b0) (second_hi b0) b1 && accept 0x80 0xBF b2
        then ((b0 - 0xE0) * 4096 + (b1 - 0x80) * 64 + (b2 - 0x80)) :: runes t2
        else RuneError :: runes t0
      | _ => RuneError :: runes t0
      end
    else if b0 <? 0xF5 then
      match t0 with
      | String c1 (String c2 (String c3 t3)) =>
        let b1 := byte_val c1 in
        let b2 := byte_val c2 in
        let b3 := byte_val c3 in
        if accept (second_lo b0) (second_hi b0) b1
           && accept 0x80 0xBF b2 && accept 0x80 0xBF b3
        then ((b0 - 0xF0) * 262144 + (b1 - 0x80) * 4096
              + (b2 - 0x80) * 64 + (b3 - 0x80)) :: runes t3
        else RuneError :: runes t0
      | _ => RuneError :: runes t0
      end
    else RuneError :: runes t0
  end.

(** [utf8.RuneCountInString]: the length of a string in code points. *)
Definition RuneCountInString (s : string) : nat := length (runes s).

(** A rune that [string(r)] encodes as itself: a Unicode scalar value. *)
Definition valid_rune (r : rune) : Prop :=
  0 <= r <= MaxRune /\ ~ (surrogateMin <= r <= surrogateMax).

(** The conversion [string(r)] of a rune: its UTF-8 encoding, and the
    encoding of [RuneError] for a value that is no scalar value. *)
Definition string_of_rune (r : rune) : string :=
  if (0 <=? r) && (r <? 0x80) then String (mk_byte r) EmptyString
  else if (0 <=? r) && (r <? 0x800) then
    String (mk_byte (0xC0 + r / 64))
      (String (mk_byte (0x80 + r mod 64)) EmptyString)
  else if (r <? 0) || (MaxRune <? r)
          || ((surrogateMin <=? r) && (r <=? surrogateMax)) then
    String (mk_byte 0xEF) (String (mk_byte 0xBF) (String (mk_byte 0xBD) EmptyString))
  else if r <? 0x10000 then
    String (mk_byte (0xE0 + r / 4096))
      (String (mk_byte (0x80 + (r / 64) mod 64))
         (String (mk_byte (0x80 + r mod 64)) EmptyString))
  else
    String (mk_byte (0xF0 + r / 262144))
      (String (mk_byte (0x80 + (r / 4096) mod 64))
         (String (mk_byte (0x80 + (r / 64) mod 64))
            (String (mk_byte (0x80 + r mod 64)) EmptyString))).

(** [s[lo:hi]] on a string; [None] stands for the run-time panic
    "slice bounds out of range". *)
Definition slice (s : string) (lo hi : Z) : option string :=
  if (0 <=? lo) && (lo <=? hi) && (hi <=? Z.of_nat (String.length s))
  then Some (substring (Z.to_nat lo) (Z.to_nat (hi - lo)) s)
  else None.

(** [strings.HasPrefix]. *)
Definition HasPrefix (s p : string) : bool := String.prefix p s.

End GoString.

Import GoString.

(** ** The name sanitizer *)

(** [msStrings]: the substitution table, a [map[rune]rune]. *)
Definition msStrings : gmap Z Z :=
  <[ 0x3C := 0xFE64 ]> (   (* '<' : U+FE64 *)
  <[ 0x3E := 0xFE65 ]> (   (* '>' : U+FE65 *)
  <[ 0x3A := 0x02D0 ]> (   (* ':' : U+02D0 *)
  <[ 0x2F := 0x2044 ]> (   (* '/' : U+2044 *)
  <[ 0x5C := 0x2216 ]> (   (* '\' : U+2216 *)
  <[ 0x7C := 0x2F01 ]> (   (* '|' : U+2F01 *)
  <[ 0x3F := 0xFE56 ]> (   (* '?' : U+FE56 *)
  <[ 0x2A := 0xFE61 ]> ∅))))))).  (* '*' : U+FE61 *)

(** One iteration of the loop of [cleanString]: the rune appended to
    [out] for the rune [r1] read from [s]. *)
Definition clean_rune (r1 : rune) : rune :=
  match msStrings !! r1 with
  | Some r => r
  | None => r1
  end.

(** [cleanString]: [out] starts empty and grows by [string(r)] for each
    rune of the range loop. *)
Definition cleanString (s : string) : string :=
  fold_left
    (fun out r1 =>
       match msStrings !! r1 with
       | Some r => out +:+ string_of_rune r
       | None => out +:+ string_of_rune r1
       end)
    (runes s) EmptyString.


(** ** The HTML tree of [golang.org/x/net/html] *)

Inductive NodeType :=
| ErrorNode | TextNode | DocumentNode | ElementNode
| CommentNode | DoctypeNode | RawNode.

Record Attribute := { Namespace : string; Key : string; Val : string }.

(** [html.Node]: the list of children stands for the [FirstChild] /
    [NextSibling] chain. *)
Inductive Node :=
| mkNode (type : NodeType) (data : string)
         (attr : list Attribute) (children : list Node).

Definition Type_ (n : Node) : NodeType := let 'mkNode t _ _ _ := n in t.
Definition Data (n : Node) : string := let 'mkNode _ d _ _ := n in d.
Definition Attr (n : Node) : list Attribute := let 'mkNode _ _ a _ := n in a.
Definition Children (n : Node) : list Node := let 'mkNode _ _ _ c := n in c.

Definition is_ElementNode (t : NodeType) : bool :=
  match t with ElementNode => true | _ => false end.
Definition is_TextNode (t : NodeType) : bool :=
  match t with TextNode => true | _ => false end.

(** [findElementsWithDataKey]: [results] grows by [n] for every
    attribute of the element [n] whose key is [key], then by the results
    of each child in turn. *)
Fixpoint findElementsWithDataKey (n : Node) (key : string) : list Node :=
  let results : list Node := [] in
  let results :=
    if is_ElementNode (Type_ n) then
      fold_left
        (fun results a =>
           if String.eqb (Key a) key then results ++ [n] else results)
        (Attr n) results
    else results in
  match n with
  | mkNode _ _ _ children =>
    fold_left
      (fun results c => results ++ findElementsWithDataKey c key)
      children results
  end.

(** [getDataValue]: the value of the first attribute named [key], or the
    empty string. *)
Fixpoint getDataValue_loop (attrs : list Attribute) (key : string) : string :=
  match attrs with
  | [] => EmptyString
  | a :: rest =>
    if String.eqb (Key a) key then Val a else getDataValue_loop rest key
  end.
Definition getDataValue (n : Node) (key : string) : string :=
  getDataValue_loop (Attr n) key.

(** ** Errors and results *)

(** Go [error] values, by the call that makes them. *)
Inductive error :=
| LibError (msg : string)
  (** an error returned by a library ([net/http], [os], [time], ...) *)
| errors_New (msg : string)
  (** [errors.New(msg)], and [fmt.Errorf(msg)] without verbs *)
| Errorf_w (prefix : string) (err : error)
  (** [fmt.Errorf(prefix + "%w", err)] *)
| Errorf_w_nl_s (err : option error) (err2 : error).
  (** [fmt.Errorf("%w\n%s", err, err2)]; [None] is a nil [err] *)

Definition nl : string := String "010"%char EmptyString.

(** [err.Error()].  [%w] of a nil operand prints as a bad verb. *)
Fixpoint Error (e : error) : string :=
  match e with
  | LibError msg => msg
  | errors_New msg => msg
  | Errorf_w prefix err => prefix +:+ Error err
  | Errorf_w_nl_s None err2 => "%!w(<nil>)" +:+ nl +:+ Error err2
  | Errorf_w_nl_s (Some err) err2 => Error err +:+ nl +:+ Error err2
  end.

(** [errors.Unwrap(err)]. *)
Definition Unwrap (e : error) : option error :=
  match e with
  | Errorf_w _ err => Some err
  | Errorf_w_nl_s err _ => err
  | _ => None
  end.

(** What running a piece of code gives: a value, an early [return] of a
    non-nil error, or a run-time panic. *)
Inductive result (A : Type) :=
| Ok (a : A)
| Fail (e : error)
| Panic (msg : string).
Arguments Ok {A} a.
Arguments Fail {A} e.
Arguments Panic {A} msg.

(** What a call of a Go function of result type [error] gives. *)
Inductive outcome :=
| Returned (err : option error)
| Panicked (msg : string).

(** ** The album record *)

(** [time.Time], an instant; [0] stands for the zero value. *)
Definition Time := Z.
Definition zeroTime : Time := 0.

Record Track := {
  Title : string;       (* json:"title" *)
  TrackNum : Z;         (* json:"track_num" *)
  File_Url : string     (* json:"file" / "mp3-128" *)
}.

Record bandcampTRAlbum := {
  Artist : string;            (* json:"artist" *)
  Current_Title : string;     (* json:"current" / "title" *)
  Current_ArtId : Z;          (* json:"current" / "art_id" *)
  ItemType : string;          (* json:"item_type" *)
  FreeDownloadPage : string;  (* json:"freeDownloadPage" *)
  ReleaseDate : Time;         (* json:"album_release_date" *)
  Trackinfo : list Track      (* json:"trackinfo" *)
}.

Definition set_ReleaseDate (t : Time) (a : bandcampTRAlbum) : bandcampTRAlbum :=
  {| Artist := Artist a; Current_Title := Current_Title a;
     Current_ArtId := Current_ArtId a; ItemType := ItemType a;
     FreeDownloadPage := FreeDownloadPage a; ReleaseDate := t;
     Trackinfo := Trackinfo a |}.

Definition set_Title (s : string) (t : Track) : Track :=
  {| Title := s; TrackNum := TrackNum t; File_Url := File_Url t |}.

(** What [encoding/json] makes of an input that is valid JSON, for the
    type [bandcampTRAlbum]: the fields it stores by itself, the raw
    bytes of every value bound to the key [album_release_date] (each is
    handed to [UnmarshalJSON], in input order), and the first type
    mismatch it met on the other fields, if any. *)
Record json_document := {
  doc_fields : bandcampTRAlbum;
  doc_release_dates : list string;
  doc_type_error : option error
}.

(** [url.URL]: the field the program reads and writes, and the rest. *)
Record URL := { Origin : string; Path : string }.
Definition set_Path (p : string) (u : URL) : URL :=
  {| Origin := Origin u; Path := p |}.

(** ** Events and the outside world *)

(** A response body, an open file or an open tag is named by the
    position in the trace of the call that opened it. *)
Definition handle := nat.

(** The place in the program a call is made from. *)
Inductive site :=
| AtMain | AtStorefront | AtPage | AtSmallArt | AtLargeArt
| AtDir | AtCover | AtTrack.

(** The calls that leave the program. *)
Inductive call :=
| HttpGet (url : string)                       (* http.Get(url) *)
| BodyClose (resp : handle)                    (* resp.Body.Close() *)
| HtmlParse (resp : handle)                    (* html.Parse(resp.Body) *)
| ReadAll (resp : handle)                      (* io.ReadAll(resp.Body) *)
| Stdout (text : string)                       (* fmt.Print* on stdout *)
| Stat (path : string)                         (* os.Stat(path) *)
| MkdirAll (path : string) (perm : Z)          (* os.MkdirAll(path, perm) *)
| Create (path : string)                       (* os.Create(path) *)
| FileWrite (f : handle) (data : string)       (* f.Write(data) *)
| FileReadFrom (f : handle) (resp : handle)    (* f.ReadFrom(resp.Body) *)
| FileClose (f : handle)                       (* f.Close() *)
| TagOpen (path : string)                      (* id3v2.Open(path, ...) *)
| TagSetArtist (t : handle) (s : string)
| TagSetAlbum (t : handle) (s : string)
| TagSetYear (t : handle) (s : string)
| TagSetTitle (t : handle) (s : string)
| TagAddTextFrame (t : handle) (id : string) (text : string)
| TagAddAttachedPicture (t : handle) (mime descr picture : string)
| TagSave (t : handle)                         (* tag.Save() *)
| TagClose (t : handle).                       (* tag.Close() *)

(** A call with the error it returned ([None] for nil, and for calls
    whose result the program drops). *)
Record event := Ev { ev_site : site; ev_call : call; ev_err : option error }.

(** The outside world: the flag, and what each library call answers
    given the history so far.  A Go pair [(v, err)] is [inl v] when
    [err] is nil and [inr err] otherwise. *)
Record World := {
  safeNames : bool;
  url_Parse : string -> URL + error;
  url_String : URL -> string;
  http_Get : list event -> string -> option error;
  html_Parse : list event -> handle -> Node + error;
  io_ReadAll : list event -> handle -> string + error;
  json_scan : string -> json_document + error;
  time_Parse : string -> string -> Time + error;
  time_Local_Format_2006 : Time -> string;
  os_Stat : list event -> string -> option error;
  os_IsNotExist : error -> bool;
  os_MkdirAll : list event -> string -> Z -> option error;
  os_Create : list event -> string -> option error;
  file_Write : list event -> handle -> string -> option error;
  file_ReadFrom : list event -> handle -> handle -> option error;
  id3v2_Open : list event -> string -> option error;
  tag_Save : list event -> handle -> option error
}.

(** ** Decoding the album record *)

(** [timestamp.UnmarshalJSON]: the new value of [t.Time], the error
    returned, or the panic of the slice expression. *)
Definition UnmarshalJSON (w : World) (b : string) : result Time :=
  let s := b in
  match slice s 1 (Z.of_nat (String.length s) - 1) with
  | None => Panic "slice bounds out of range"
  | Some s =>
    match time_Parse w "02 Jan 2006 15:04:05 GMT" s with
    | inr err => Fail err
    | inl parsed => Ok parsed
    end
  end.

(** The calls of [UnmarshalJSON] made while decoding, in input order:
    the first error stops the decoding, a panic is not recovered. *)
Fixpoint unmarshal_dates (w : World) (raws : list string) (t : Time)
  : result Time :=
  match raws with
  | [] => Ok t
  | b :: rest =>
    match UnmarshalJSON w b with
    | Ok t' => unmarshal_dates w rest t'
    | Fail err => Fail err
    | Panic msg => Panic msg
    end
  end.

(** [json.Unmarshal([]byte(data), &tralbum)] for a zero [tralbum]: a
    syntax error is reported before anything is decoded; an error of
    [UnmarshalJSON] is returned as it is; a type mismatch on another
    field is returned once the input has been decoded. *)
Definition json_Unmarshal (w : World) (data : string) : result bandcampTRAlbum :=
  match json_scan w data with
  | inr err => Fail err
  | inl d =>
    match unmarshal_dates w (doc_release_dates d) zeroTime with
    | Panic msg => Panic msg
    | Fail err => Fail err
    | Ok t =>
      match doc_type_error d with
      | Some err => Fail err
      | None => Ok (set_ReleaseDate t (doc_fields d))
      end
    end
  end.

(** ** Running Go code: a state and error monad *)

(** The state of a function activation: the trace so far and the calls
    deferred by the activation, the latest first. *)
Record frame := { trace : list event; defers : list (site * call) }.

Definition M (A : Type) : Type := frame -> result A * frame.

Definition ret {A} (a : A) : M A := fun fr => (Ok a, fr).

Definition bind {A B} (m : M A) (k : A -> M B) : M B :=
  fun fr =>
    match m fr with
    | (Ok a, fr') => k a fr'
    | (Fail e, fr') => (Fail e, fr')
    | (Panic msg, fr') => (Panic msg, fr')
    end.

Notation "x <- m ;; k" := (bind m (fun x => k))
  (at level 100, m at next level, right associativity).
Notation "m ;; k" := (bind m (fun _ => k))
  (at level 100, right associativity).

(** [return err] with a non-nil [err], and a run-time panic. *)
Definition return_ {A} (err : error) : M A := fun fr => (Fail err, fr).
Definition panic {A} (msg : string) : M A := fun fr => (Panic msg, fr).

Definition history : M (list event) := fun fr => (Ok (trace fr), fr).

Definition emit (s : site) (c : call) (err : option error) : M unit :=
  fun fr => (Ok tt, {| trace := trace fr ++ [Ev s c err]; defers := defers fr |}).

(** [defer c]. *)
Definition defer (s : site) (c : call) : M unit :=
  fun fr => (Ok tt, {| trace := trace fr; defers := (s, c) :: defers fr |}).

(** [v, err := m; if err != nil { return on_err(err) }]. *)
Definition check {A} (m : M (A + error)) (on_err : error -> error) : M A :=
  r <- m ;;
  match r with
  | inl a => ret a
  | inr err => return_ (on_err err)
  end.

(** [if err := m; err != nil { return on_err(err) }]. *)
Definition check_err (m : M (option error)) (on_err : error -> error) : M unit :=
  r <- m ;;
  match r with
  | None => ret tt
  | Some err => return_ (on_err err)
  end.

(** A call that opens a handle: the handle is the position of the call. *)
Definition open_call (s : site) (c : call) (answer : list event -> option error)
  : M (handle + error) :=
  tr <- history ;;
  emit s c (answer tr) ;;
  ret (match answer tr with
       | None => inl (length tr)
       | Some err => inr err
       end).

(** A call that returns a value and an error. *)
Definition value_call {A} (s : site) (c : call) (answer : list event -> A + error)
  : M (A + error) :=
  tr <- history ;;
  emit s c (match answer tr with inl _ => None | inr err => Some err end) ;;
  ret (answer tr).

(** A call that returns an error only. *)
Definition error_call (s : site) (c : call) (answer : list event -> option error)
  : M (option error) :=
  tr <- history ;;
  emit s c (answer tr) ;;
  ret (answer tr).

(** A call whose result, if any, is dropped. *)
Definition plain_call (s : site) (c : call) : M unit := emit s c None.

Definition print (s : site) (text : string) : M unit := plain_call s (Stdout text).

(** [for _, x := range l { body }]. *)
Fixpoint for_range {A} (l : list A) (body : A -> M unit) : M unit :=
  match l with
  | [] => ret tt
  | x :: rest => body x ;; for_range rest body
  end.

(** The deferred calls run when the function returns or panics. *)
Definition run_defers (ds : list (site * call)) : list event :=
  map (fun d => Ev (fst d) (snd d) None) ds.

(** A call of a function of result type [error] whose body is [body]:
    a fresh activation on the trace [tr]; it gives the outcome and the
    trace at the return, deferred calls included. *)
Definition call_func (body : M (option error)) (tr : list event)
  : outcome * list event :=
  let '(r, fr) := body {| trace := tr; defers := [] |} in
  (match r with
   | Ok err => Returned err
   | Fail err => Returned (Some err)
   | Panic msg => Panicked msg
   end,
   trace fr ++ run_defers (defers fr)).

(** The call, seen from the caller's activation. *)
Definition invoke (f : list event -> outcome * list event) : M (option error) :=
  fun fr =>
    let '(o, tr') := f (trace fr) in
    let fr' := {| trace := tr'; defers := defers fr |} in
    match o with
    | Returned err => (Ok err, fr')
    | Panicked msg => (Panic msg, fr')
    end.

(** ** Formatting *)

(** [%d] and [%02d] of an [int]. *)
Definition fmt_d (n : Z) : string := NilZero.string_of_int (Z.to_int n).
Definition fmt_02d (n : Z) : string :=
  if (0 <=? n) && (n <? 10) then "0" +:+ fmt_d n else fmt_d n.

(** ** [downloadAlbum] *)

(** The [if *safeNames] block: artist, album title and every track
    title are rewritten by [cleanString]. *)
Definition clean_names (tralbum : bandcampTRAlbum) : bandcampTRAlbum :=
  {| Artist := cleanString (Artist tralbum);
     Current_Title := cleanString (Current_Title tralbum);
     Current_ArtId := Current_ArtId tralbum;
     ItemType := ItemType tralbum;
     FreeDownloadPage := FreeDownloadPage tralbum;
     ReleaseDate := ReleaseDate tralbum;
     Trackinfo :=
       map (fun track => set_Title (cleanString (Title track)) track)
           (Trackinfo tralbum) |}.

Definition smallArtUrl (artId : Z) : string :=
  "https://f4.bcbits.com/img/a" +:+ fmt_d artId +:+ "_16.jpg".
Definition largeArtUrl (artId : Z) : string :=
  "https://f4.bcbits.com/img/a" +:+ fmt_d artId +:+ "_0.jpg".

(** "Fetch the album art, if one exists": the values of [artBytes] and
    [bigArtBytes] after the block, [None] for a nil slice. *)
Definition downloadAlbum_art (w : World) (tralbum : bandcampTRAlbum)
  : M (option string * option string) :=
  if negb (Current_ArtId tralbum =? 0) then
    let artUrl := smallArtUrl (Current_ArtId tralbum) in
    resp <- check (open_call AtSmallArt (HttpGet artUrl)
                     (fun tr => http_Get w tr artUrl))
                  (Errorf_w "could not fetch album art: ") ;;
    defer AtSmallArt (BodyClose resp) ;;
    artBytes <- check (value_call AtSmallArt (ReadAll resp)
                         (fun tr => io_ReadAll w tr resp))
                      (fun _ => errors_New "could not read album art") ;;
    let artUrl := largeArtUrl (Current_ArtId tralbum) in
    resp <- check (open_call AtLargeArt (HttpGet artUrl)
                     (fun tr => http_Get w tr artUrl))
                  (Errorf_w "could not fetch large album art: ") ;;
    defer AtLargeArt (BodyClose resp) ;;
    bigArtBytes <- check (value_call AtLargeArt (ReadAll resp)
                            (fun tr => io_ReadAll w tr resp))
                         (fun _ => errors_New "could not read large album art") ;;
    ret (Some artBytes, Some bigArtBytes)
  else ret (None, None).

Definition albumPath_of (w : World) (tralbum : bandcampTRAlbum) : string :=
  Artist tralbum +:+ "/" +:+ Current_Title tralbum +:+ " ("
    +:+ time_Local_Format_2006 w (ReleaseDate tralbum) +:+ ")".

(** The permission bits [0755]. *)
Definition perm_0755 : Z := 7 * 64 + 5 * 8 + 5.

(** "Create artist/album directory". *)
Definition downloadAlbum_dir (w : World) (albumPath : string) : M unit :=
  err <- error_call AtDir (Stat albumPath) (fun tr => os_Stat w tr albumPath) ;;
  if match err with Some e => os_IsNotExist w e | None => false end then
    check_err (error_call AtDir (MkdirAll albumPath perm_0755)
                 (fun tr => os_MkdirAll w tr albumPath perm_0755))
              (Errorf_w "could not create album directory: ")
  else ret tt.

(** "Save the large album art". *)
Definition downloadAlbum_cover (w : World) (albumPath : string)
  (bigArtBytes : option string) : M unit :=
  match bigArtBytes with
  | Some bytes =>
    let artPath := albumPath +:+ "/cover.jpg" in
    f <- check (open_call AtCover (Create artPath)
                  (fun tr => os_Create w tr artPath))
               (Errorf_w "could not create large album art file: ") ;;
    check_err (error_call AtCover (FileWrite f bytes)
                 (fun tr => file_Write w tr f bytes))
              (Errorf_w "could not write large album art file: ") ;;
    plain_call AtCover (FileClose f)
  | None => ret tt
  end.

Definition trackPath_of (albumPath : string) (track : Track) : string :=
  albumPath +:+ "/" +:+ fmt_02d (TrackNum track) +:+ " "
    +:+ Title track +:+ ".mp3".

(** The body of the loop over [tralbum.Trackinfo]. *)
Definition downloadAlbum_track (w : World) (tralbum : bandcampTRAlbum)
  (albumPath : string) (artBytes : option string) (track : Track) : M unit :=
  print AtTrack (" " +:+ fmt_d (TrackNum track) +:+ " " +:+ Title track +:+ " ") ;;
  resp <- check (open_call AtTrack (HttpGet (File_Url track))
                   (fun tr => http_Get w tr (File_Url track)))
                (Errorf_w "could not fetch track: ") ;;
  defer AtTrack (BodyClose resp) ;;
  let trackPath := trackPath_of albumPath track in
  f <- check (open_call AtTrack (Create trackPath)
                (fun tr => os_Create w tr trackPath))
             (Errorf_w "could not create track file: ") ;;
  check_err (error_call AtTrack (FileReadFrom f resp)
               (fun tr => file_ReadFrom w tr f resp))
            (Errorf_w "could not write track file: ") ;;
  plain_call AtTrack (FileClose f) ;;
  (* Add ID3 tags. *)
  tag <- check (open_call AtTrack (TagOpen trackPath)
                  (fun tr => id3v2_Open w tr trackPath))
               (Errorf_w "could not open track file: ") ;;
  defer AtTrack (TagClose tag) ;;
  plain_call AtTrack (TagSetArtist tag (Artist tralbum)) ;;
  plain_call AtTrack (TagSetAlbum tag (Current_Title tralbum)) ;;
  plain_call AtTrack
    (TagSetYear tag (time_Local_Format_2006 w (ReleaseDate tralbum))) ;;
  plain_call AtTrack (TagSetTitle tag (Title track)) ;;
  plain_call AtTrack (TagAddTextFrame tag "TRCK" (fmt_d (TrackNum track))) ;;
  match artBytes with
  | Some picture =>
    plain_call AtTrack
      (TagAddAttachedPicture tag "image/jpeg" "Front cover" picture)
  | None => ret tt
  end ;;
  check_err (error_call AtTrack (TagSave tag) (fun tr => tag_Save w tr tag))
            (Errorf_w "could not save track file: ") ;;
  print AtTrack ("✔️ " +:+ nl).

(** The notices printed before anything is fetched. *)
Definition downloadAlbum_notices (w : World) (tralbum : bandcampTRAlbum) : M unit :=
  (if negb (String.eqb (FreeDownloadPage tralbum) "") then
     print AtPage ("This album is free to download in higher quality formats!" +:+ nl) ;;
     print AtPage ("  " +:+ FreeDownloadPage tralbum +:+ nl)
   else ret tt) ;;
  print AtPage ("Downloading " +:+ Artist tralbum +:+ " "
                +:+ Current_Title tralbum +:+ " "
                +:+ time_Local_Format_2006 w (ReleaseDate tralbum) +:+ nl).

(** What [downloadAlbum] does once the record is decoded. *)
Definition downloadAlbum_materialize (w : World) (tralbum : bandcampTRAlbum)
  : M (option error) :=
  let tralbum := if safeNames w then clean_names tralbum else tralbum in
  downloadAlbum_notices w tralbum ;;
  art <- downloadAlbum_art w tralbum ;;
  let artBytes := fst art in
  let bigArtBytes := snd art in
  let albumPath := albumPath_of w tralbum in
  downloadAlbum_dir w albumPath ;;
  downloadAlbum_cover w albumPath bigArtBytes ;;
  for_range (Trackinfo tralbum)
            (downloadAlbum_track w tralbum albumPath artBytes) ;;
  print AtPage nl ;;
  ret None.

(** The body of [downloadAlbum]. *)
Definition downloadAlbum_body (w : World) (url : string) : M (option error) :=
  resp <- check (open_call AtPage (HttpGet url) (fun tr => http_Get w tr url))
                (fun err => err) ;;
  defer AtPage (BodyClose resp) ;;
  doc <- check (value_call AtPage (HtmlParse resp)
                  (fun tr => html_Parse w tr resp))
               (fun err => err) ;;
  let el := findElementsWithDataKey doc "data-tralbum" in
  match el with
  | [] => return_ (errors_New "could not find album")
  | el0 :: _ =>
    let tralbumValue := getDataValue el0 "data-tralbum" in
    match json_Unmarshal w tralbumValue with
    | Panic msg => panic msg
    | Fail err => return_ (Errorf_w "could not parse album JSON: " err)
    | Ok tralbum => downloadAlbum_materialize w tralbum
    end
  end.

Definition downloadAlbum (w : World) (url : string) (tr : list event)
  : outcome * list event :=
  call_func (downloadAlbum_body w url) tr.

(** ** [downloadAlbums] *)

(** The loop over the attributes of an anchor: [url.Path] after it. *)
Fixpoint downloadAlbums_href (attrs : list Attribute) (path : string) : string :=
  match attrs with
  | [] => path
  | a :: rest =>
    if String.eqb (Key a) "href" then Val a else downloadAlbums_href rest path
  end.

(** The loop over the children of an item: [url.Path] after it. *)
Fixpoint downloadAlbums_anchor (children : list Node) (path : string) : string :=
  match children with
  | [] => path
  | c :: rest =>
    if is_TextNode (Type_ c) || negb (String.eqb (Data c) "a")
    then downloadAlbums_anchor rest path
    else
      let path := downloadAlbums_href (Attr c) path in
      if negb (String.eqb path "") then path
      else downloadAlbums_anchor rest path
  end.

(** The loop over the items; [err] is the named result. *)
Fixpoint downloadAlbums_loop (w : World) (els : list Node) (url : URL)
  (err : option error) : M (option error) :=
  match els with
  | [] => ret err
  | el :: rest =>
    let url := set_Path "" url in
    let url := set_Path (downloadAlbums_anchor (Children el) (Path url)) url in
    if HasPrefix (Path url) "/album" then
      err2 <- invoke (downloadAlbum w (url_String w url)) ;;
      match err2 with
      | Some err2 =>
        downloadAlbums_loop w rest url (Some (Errorf_w_nl_s err err2))
      | None => downloadAlbums_loop w rest url err
      end
    else downloadAlbums_loop w rest url err
  end.

Definition downloadAlbums_body (w : World) (url : URL) : M (option error) :=
  resp <- check (open_call AtStorefront (HttpGet (url_String w url))
                   (fun tr => http_Get w tr (url_String w url)))
                (fun err => err) ;;
  defer AtStorefront (BodyClose resp) ;;
  doc <- check (value_call AtStorefront (HtmlParse resp)
                  (fun tr => html_Parse w tr resp))
               (fun err => err) ;;
  let els := findElementsWithDataKey doc "data-item-id" in
  downloadAlbums_loop w els url None.

Definition downloadAlbums (w : World) (url : URL) (tr : list event)
  : outcome * list event :=
  call_func (downloadAlbums_body w url) tr.

(** ** [main] *)

(** [if err := f(); err != nil { fmt.Println("❌", err) }]. *)
Definition report (f : list event -> outcome * list event) : M unit :=
  err <- invoke f ;;
  match err with
  | Some err => print AtMain ("❌ " +:+ Error err +:+ nl)
  | None => ret tt
  end.

(** The body of the loop over [flag.Args()]. *)
Definition main_url (w : World) (u : string) : M unit :=
  match url_Parse w u with
  | inr err => print AtMain ("❌ " +:+ Error err +:+ nl)
  | inl parsed =>
    let parsed :=
      if String.eqb (Path parsed) "/" || String.eqb (Path parsed) ""
      then set_Path "/music" parsed else parsed in
    if String.eqb (Path parsed) "/music" || String.eqb (Path parsed) "/music/"
    then report (downloadAlbums w parsed)
    else if HasPrefix (Path parsed) "/album"
    then report (downloadAlbum w u)
    else print AtMain ("❌ Invalid URL " +:+ u +:+ nl)
  end.

Definition main (w : World) (args : list string) : M unit :=
  if (length args <? 1)%nat then
    print AtMain ("Usage: bandit-dl <album-url> [<album-url> ...]" +:+ nl)
  else
    for_range args (main_url w) ;;
    print AtMain ("🎶 Thanks for using this tool and remember to support the musicians!" +:+ nl).
From Stdlib Require DecimalZ DecimalPos.


(** ** The first revision of the program *)

(** The first revision has no flags and no storefront: [main] takes
    every argument for an album address, and [downloadAlbum] panics
    where the page cannot be fetched or parsed.  Everything else is the
    text of the later revision, without the [if *safeNames] block. *)
Module Initial.

(** [v, err := m; if err != nil { panic(err) }]. *)
Definition check_or_panic {A} (m : M (A + error)) : M A :=
  r <- m ;;
  match r with
  | inl a => ret a
  | inr err => panic (Error err)
  end.

(** What [downloadAlbum] does once the record is decoded. *)
Definition downloadAlbum_materialize (w : World) (tralbum : bandcampTRAlbum)
  : M (option error) :=
  downloadAlbum_notices w tralbum ;;
  art <- downloadAlbum_art w tralbum ;;
  let artBytes := fst art in
  let bigArtBytes := snd art in
  let albumPath := albumPath_of w tralbum in
  downloadAlbum_dir w albumPath ;;
  downloadAlbum_cover w albumPath bigArtBytes ;;
  for_range (Trackinfo tralbum)
            (downloadAlbum_track w tralbum albumPath artBytes) ;;
  print AtPage nl ;;
  ret None.

(** The body of [downloadAlbum]. *)
Definition downloadAlbum_body (w : World) (url : string) : M (option error) :=
  resp <- check_or_panic
            (open_call AtPage (HttpGet url) (fun tr => http_Get w tr url)) ;;
  defer AtPage (BodyClose resp) ;;
  doc <- check_or_panic
           (value_call AtPage (HtmlParse resp) (fun tr => html_Parse w tr resp)) ;;
  let el := findElementsWithDataKey doc "data-tralbum" in
  match el with
  | [] => return_ (errors_New "could not find album")
  | el0 :: _ =>
    let tralbumValue := getDataValue el0 "data-tralbum" in
    match json_Unmarshal w tralbumValue with
    | Panic msg => panic msg
    | Fail err => return_ (Errorf_w "could not parse album JSON: " err)
    | Ok tralbum => downloadAlbum_materialize w tralbum
    end
  end.

Definition downloadAlbum (w : World) (url : string) (tr : list event)
  : outcome * list event :=
  call_func (downloadAlbum_body w url) tr.

(** [main]; [args] is [os.Args[1:]]. *)
Definition main (w : World) (args : list string) : M unit :=
  if (length args <? 1)%nat then
    print AtMain ("Usage: bandit-dl <album-url> [<album-url> ...]" +:+ nl)
  else
    for_range args (fun url => report (downloadAlbum w url)) ;;
    print AtMain ("🎶 Thanks for using this tool and remember to support the musicians!" +:+ nl).

End Initial.

(** * Vocabulary of the statements *)

(** The string a sequence of runes encodes to. *)
Definition encode_runes (rs : list rune) : string :=
  fold_right (fun r acc => string_of_rune r +:+ acc) EmptyString rs.

(** The eight runes the table maps. *)
Definition unsafe_runes : list rune :=
  [0x3C; 0x3E; 0x3A; 0x2F; 0x5C; 0x7C; 0x3F; 0x2A].

(** ** Document order *)

(** The nodes of a tree in document order: a node, then the subtrees of
    its children from first to last. *)
Fixpoint preorder (n : Node) : list Node :=
  match n with
  | mkNode _ _ _ children => n :: flat_map preorder children
  end.

(** The number of attributes of the element [n] named [key] ([0] for a
    node that is no element). *)
Definition key_count (key : string) (n : Node) : nat :=
  if is_ElementNode (Type_ n)
  then length (List.filter (fun a => String.eqb (Key a) key) (Attr n))
  else 0%nat.

(** [n] is an element that carries an attribute named [key]. *)
Definition carries (key : string) (n : Node) : Prop :=
  is_ElementNode (Type_ n) = true /\ exists a, In a (Attr n) /\ Key a = key.

Definition carriesb (key : string) (n : Node) : bool :=
  is_ElementNode (Type_ n)
  && existsb (fun a => String.eqb (Key a) key) (Attr n).

(** No element of the tree repeats an attribute name. *)
Definition distinct_attributes (n : Node) : Prop :=
  forall m, In m (preorder n) -> List.NoDup (map Key (Attr m)).

(** ** Decoding *)

(** The layout of the release date. *)
Definition layout : string := "02 Jan 2006 15:04:05 GMT".

(** ** Traces *)

(** The calls that reach the file system. *)
Definition is_fs_call (c : call) : bool :=
  match c with
  | Stat _ | MkdirAll _ _ | Create _ | FileWrite _ _ | FileReadFrom _ _
  | FileClose _ | TagOpen _ | TagSave _ | TagClose _ => true
  | _ => false
  end.

(** The events of the cover art: everything done where the art is
    fetched or the cover is written, and a picture frame added to a tag. *)
Definition art_event (e : event) : bool :=
  match ev_site e, ev_call e with
  | AtSmallArt, _ | AtLargeArt, _ | AtCover, _ => true
  | _, TagAddAttachedPicture _ _ _ _ => true
  | _, _ => false
  end.

(** The fetches and file creations of the track loop, in trace order. *)
Definition track_io (evs : list event) : list call :=
  flat_map
    (fun e =>
       match ev_site e, ev_call e with
       | AtTrack, HttpGet url => [HttpGet url]
       | AtTrack, Create path => [Create path]
       | _, _ => []
       end) evs.

(** What the track loop is to fetch and create for a list of tracks. *)
Definition tracks_io (albumPath : string) (tracks : list Track) : list call :=
  flat_map
    (fun track =>
       [HttpGet (File_Url track); Create (trackPath_of albumPath track)])
    tracks.

(** A deferred call of the program: closing a body or a tag. *)
Definition closing (d : site * call) : Prop :=
  match snd d with
  | BodyClose _ | TagClose _ => True
  | _ => False
  end.

(** A computation that extends the trace by events that satisfy [phi]
    and the deferred calls by calls that satisfy [psi]. *)
Definition grows {A} (phi : event -> Prop) (psi : site * call -> Prop)
  (m : M A) : Prop :=
  forall fr, exists evs ds,
    trace (snd (m fr)) = trace fr ++ evs /\
    defers (snd (m fr)) = ds ++ defers fr /\
    Forall phi evs /\ Forall psi ds.

(** The events of a page that is fetched and parsed. *)
Definition page_events (url : string) (tr : list event) : list event :=
  [Ev AtPage (HttpGet url) None; Ev AtPage (HtmlParse (length tr)) None].

(** On the trace [tr], the page at [url] is fetched and parses to [doc]. *)
Definition loads (w : World) (url : string) (tr : list event) (doc : Node) : Prop :=
  http_Get w tr url = None /\
  html_Parse w (tr ++ [Ev AtPage (HttpGet url) None]) (length tr) = inl doc.

(** On the trace [tr], the page at [url] decodes to the record [tralbum]. *)
Definition decoded (w : World) (url : string) (tr : list event)
  (tralbum : bandcampTRAlbum) : Prop :=
  exists doc el0 els,
    loads w url tr doc /\
    findElementsWithDataKey doc "data-tralbum" = el0 :: els /\
    json_Unmarshal w (getDataValue el0 "data-tralbum") = Ok tralbum.

(** The record after the [if *safeNames] block. *)
Definition sanitized (w : World) (tralbum : bandcampTRAlbum) : bandcampTRAlbum :=
  if safeNames w then clean_names tralbum else tralbum.

(** An event that is no fetch and no file creation of the track loop. *)
Definition quiet (e : event) : Prop := track_io [e] = [].

(** An event that is none of the cover art and does not create the
    file [cover.jpg] of the album directory; a deferred call that will
    be such an event. *)
Definition artless (albumPath : string) (e : event) : Prop :=
  art_event e = false /\ ev_call e <> Create (albumPath +:+ "/cover.jpg").
Definition artless_defer (albumPath : string) (d : site * call) : Prop :=
  artless albumPath (Ev (fst d) (snd d) None).

(** An event that fetches the small or the large cover of [artId]. *)
Definition fetches_art (artId : Z) (e : event) : Prop :=
  ev_call e = HttpGet (smallArtUrl artId) \/
  ev_call e = HttpGet (largeArtUrl artId).

(** An address that is neither cover of [artId]. *)
Definition not_art_url (artId : Z) (url : string) : Prop :=
  url <> smallArtUrl artId /\ url <> largeArtUrl artId.

(** A computation whose fetches and file creations in the track loop
    are a prefix of [expected], and all of [expected] once it completes. *)
Definition in_order {A} (expected : list call) (m : M A) : Prop :=
  forall fr, exists evs,
    trace (snd (m fr)) = trace fr ++ evs /\
    (Forall closing (defers fr) -> Forall closing (defers (snd (m fr)))) /\
    track_io evs `prefix_of` expected /\
    ((exists a, fst (m fr) = Ok a) -> track_io evs = expected).

(** ** The storefront fan-out, as the specification words it *)

(** The address of the album of an item: the [href] of its first child
    anchor that has a non-empty one, on the origin of the storefront. *)
Definition item_url (url : URL) (el : Node) : URL :=
  set_Path (downloadAlbums_anchor (Children el) EmptyString) url.

(** The addresses to download: those of the items whose path begins
    with the album prefix, in document order. *)
Definition album_urls (w : World) (url : URL) (els : list Node) : list string :=
  flat_map
    (fun el =>
       if HasPrefix (Path (item_url url el)) "/album"
       then [url_String w (item_url url el)] else [])
    els.

(** Every album is downloaded, one after the other, whatever the
    earlier ones returned; the errors are collected in order.  Only a
    panic stops the sequence ([inr]). *)
Fixpoint download_each (w : World) (urls : list string) (tr : list event)
  : (list error + string) * list event :=
  match urls with
  | [] => (inl [], tr)
  | u :: rest =>
    match downloadAlbum w u tr with
    | (Panicked msg, tr1) => (inr msg, tr1)
    | (Returned err, tr1) =>
      match download_each w rest tr1 with
      | (inl errs, tr2) =>
        (inl (match err with Some e => e :: errs | None => errs end), tr2)
      | (inr msg, tr2) => (inr msg, tr2)
      end
    end
  end.

(** The chain of a list of errors on a base error. *)
Definition chain_errors (errs : list error) (err : option error) : option error :=
  fold_left (fun acc e => Some (Errorf_w_nl_s acc e)) errs err.

(** On the trace [tr], the storefront page is fetched and parses to [doc]. *)
Definition storefront_loads (w : World) (url : URL) (tr : list event)
  (doc : Node) : Prop :=
  http_Get w tr (url_String w url) = None /\
  html_Parse w (tr ++ [Ev AtStorefront (HttpGet (url_String w url)) None])
             (length tr) = inl doc.

(** ** Open files *)

(** The event at position [h] of the trace is a file creation that
    succeeded. *)
Definition opens_file (tr : list event) (h : handle) : bool :=
  match nth_error tr h with
  | Some (Ev _ (Create _) None) => true
  | _ => false
  end.

(** The trace closes the file [h]. *)
Definition closes_file (tr : list event) (h : handle) : bool :=
  existsb
    (fun e => match ev_call e with
              | FileClose f => Nat.eqb f h
              | _ => false
              end) tr.

(** The files the trace opens and does not close. *)
Definition unclosed_files (tr : list event) : list handle :=
  List.filter (fun h => opens_file tr h && negb (closes_file tr h))
              (seq 0 (length tr)).

(** The same for tags. *)
Definition opens_tag (tr : list event) (h : handle) : bool :=
  match nth_error tr h with
  | Some (Ev _ (TagOpen _) None) => true
  | _ => false
  end.

Definition closes_tag (tr : list event) (h : handle) : bool :=
  existsb
    (fun e => match ev_call e with
              | TagClose t => Nat.eqb t h
              | _ => false
              end) tr.

Definition unclosed_tags (tr : list event) : list handle :=
  List.filter (fun h => opens_tag tr h && negb (closes_tag tr h))
              (seq 0 (length tr)).

(** The same for response bodies. *)
Definition opens_body (tr : list event) (h : handle) : bool :=
  match nth_error tr h with
  | Some (Ev _ (HttpGet _) None) => true
  | _ => false
  end.

Definition closes_body (tr : list event) (h : handle) : bool :=
  existsb
    (fun e => match ev_call e with
              | BodyClose r => Nat.eqb r h
              | _ => false
              end) tr.

(** A call that opens a response body or a tag when it succeeds. *)
Definition opening (c : call) : bool :=
  match c with
  | HttpGet _ | TagOpen _ => true
  | _ => false
  end.

(** A state in which every body and every tag opened from position
    [n0] on has its closing call deferred. *)
Definition tidy (n0 : nat) (fr : frame) : Prop :=
  Forall closing (defers fr) /\
  forall h, (n0 <= h)%nat ->
    (opens_body (trace fr) h = true -> In (BodyClose h) (map snd (defers fr))) /\
    (opens_tag (trace fr) h = true -> In (TagClose h) (map snd (defers fr))).

Definition keeps_tidy {A} (m : M A) : Prop :=
  forall n0 fr, tidy n0 fr -> tidy n0 (snd (m fr)).

(** ** Vocabulary of the further properties *)

(** The bytes of a string. *)
Definition bytes (s : string) : list Z := map byte_val (list_ascii_of_string s).

(** The JSON string whose raw content is [s]. *)
Definition json_quoted (s : string) : string :=
  String "034"%char (s +:+ String "034"%char EmptyString).

(** A byte that is none of the eight characters the table maps. *)
Definition safe_byte (b : Z) : Prop := ~ In b unsafe_runes.

(** A decimal digit or the minus sign. *)
Definition digit_or_minus (b : Z) : Prop := 0x30 <= b <= 0x39 \/ b = 0x2D.

(** A trace in which every file opened from position [n0] on is closed. *)
Definition files_closed (n0 : nat) (tr : list event) : Prop :=
  forall h, (n0 <= h)%nat -> opens_file tr h = true -> closes_file tr h = true.

(** A computation that, when it completes, leaves closed the files it
    opened. *)
Definition keeps_files {A} (m : M A) : Prop :=
  forall n0 fr a fr',
    files_closed n0 (trace fr) -> m fr = (Ok a, fr') ->
    files_closed n0 (trace fr').

(** A call that is no file creation. *)
Definition creates (c : call) : bool :=
  match c with Create _ => true | _ => false end.

(** A child of an item that the loop of [downloadAlbums] looks into:
    a node that is no text and whose data is [a]. *)
Definition is_anchor (c : Node) : bool :=
  negb (is_TextNode (Type_ c)) && String.eqb (Data c) "a".

Definition nonempty (s : string) : bool := negb (String.eqb s EmptyString).

(** A state in which every body and every tag opened from position
    [n0] on is closed already or has its closing call deferred. *)
Definition settled (n0 : nat) (fr : frame) : Prop :=
  Forall closing (defers fr) /\
  forall h, (n0 <= h)%nat ->
    (opens_body (trace fr) h = true ->
     In (BodyClose h) (map snd (defers fr)) \/ closes_body (trace fr) h = true) /\
    (opens_tag (trace fr) h = true ->
     In (TagClose h) (map snd (defers fr)) \/ closes_tag (trace fr) h = true).

Definition keeps_settled {A} (m : M A) : Prop :=
  forall n0 fr, settled n0 fr -> settled n0 (snd (m fr)).

(** A function that only extends the trace and closes the bodies and
    the tags it opens. *)
Definition balanced (f : list event -> outcome * list event) : Prop :=
  forall tr,
    (exists evs, snd (f tr) = tr ++ evs) /\
    forall h, (length tr <= h)%nat ->
      (opens_body (snd (f tr)) h = true -> closes_body (snd (f tr)) h = true) /\
      (opens_tag (snd (f tr)) h = true -> closes_tag (snd (f tr)) h = true).

(** A computation that never ends on an early [return err]. *)
Definition never_fails {A} (m : M A) : Prop :=
  forall fr, match fst (m fr) with Fail _ => False | _ => True end.

(** A call on the album directory. *)
Definition is_dir_call (c : call) : bool :=
  match c with Stat _ | MkdirAll _ _ => true | _ => false end.

(** The calls on the album directory among some events, in order. *)
Definition dir_io (evs : list event) : list event :=
  List.filter (fun e => is_dir_call (ev_call e)) evs.

Definition no_dir (e : event) : Prop := is_dir_call (ev_call e) = false.

Definition no_dir_defer (d : site * call) : Prop := is_dir_call (snd d) = false.

(** [os.IsNotExist(err)], for the error of a call; false on nil. *)
Definition absent (w : World) (err : option error) : bool :=
  match err with Some e => os_IsNotExist w e | None => false end.

(** What a download does to directories: nothing; or it asks for one
    path and leaves it there; or it asks, is told that the path does
    not exist, and creates that path with mode 0755. *)
Definition dir_protocol (w : World) (evs : list event) : Prop :=
  dir_io evs = [] \/
  (exists p err,
     absent w err = false /\ dir_io evs = [Ev AtDir (Stat p) err]) \/
  (exists p err err',
     absent w err = true /\
     dir_io evs = [Ev AtDir (Stat p) err; Ev AtDir (MkdirAll p perm_0755) err']).

Definition follows_dir_protocol {A} (w : World) (m : M A) : Prop :=
  forall fr, exists evs ds,
    trace (snd (m fr)) = trace fr ++ evs /\
    defers (snd (m fr)) = ds ++ defers fr /\
    Forall no_dir_defer ds /\ dir_protocol w evs.

(** ** The steps of the track loop *)

(** What the track loop does to a track: it fetches an address, creates
    a file, and writes to a file what it reads from the body of an
    address. *)
Inductive track_step :=
| Fetch (url : string)
| CreateFile (path : string)
| WriteFile (path : string) (url : string).

(** The path of the file a handle stands for, and the address of the
    response a handle stands for, read off the trace. *)
Definition created_path (tr : list event) (f : handle) : string :=
  match nth_error tr f with
  | Some (Ev _ (Create path) _) => path
  | _ => EmptyString
  end.

Definition fetched_url (tr : list event) (resp : handle) : string :=
  match nth_error tr resp with
  | Some (Ev _ (HttpGet url) _) => url
  | _ => EmptyString
  end.

(** The steps of the track loop among the events [evs] of the trace
    [full], in trace order; the handles of a write are resolved in
    [full]. *)
Definition track_steps (full evs : list event) : list track_step :=
  flat_map
    (fun e =>
       match ev_site e, ev_call e with
       | AtTrack, HttpGet url => [Fetch url]
       | AtTrack, Create path => [CreateFile path]
       | AtTrack, FileReadFrom f resp =>
         [WriteFile (created_path full f) (fetched_url full resp)]
       | _, _ => []
       end) evs.

(** What the track loop is to do for a list of tracks: for each track
    in turn, fetch its address, create its file, and write to that file
    the body fetched from that address. *)
Definition tracks_steps (albumPath : string) (tracks : list Track)
  : list track_step :=
  flat_map
    (fun track =>
       [Fetch (File_Url track);
        CreateFile (trackPath_of albumPath track);
        WriteFile (trackPath_of albumPath track) (File_Url track)])
    tracks.

(** An event that is a step of the track loop. *)
Definition is_step (e : event) : bool :=
  match ev_site e, ev_call e with
  | AtTrack, HttpGet _ | AtTrack, Create _ | AtTrack, FileReadFrom _ _ => true
  | _, _ => false
  end.

Definition stepless (e : event) : Prop := is_step e = false.

(** A step of the track loop that failed does not pass. *)
Definition step_succeeded (e : event) : Prop :=
  is_step e = true -> ev_err e = None.

(** A computation whose steps are a prefix of [expected], whatever the
    trace becomes later, and are all of [expected], every one of them
    successful, once it completes. *)
Definition stepwise {A} (expected : list track_step) (m : M A) : Prop :=
  forall fr, exists evs,
    trace (snd (m fr)) = trace fr ++ evs /\
    (forall rest,
       track_steps (trace fr ++ evs ++ rest) evs `prefix_of` expected) /\
    ((exists a, fst (m fr) = Ok a) ->
     (forall rest, track_steps (trace fr ++ evs ++ rest) evs = expected) /\
     Forall step_succeeded evs).

(** A name that is a path component of its own: not empty, and neither
    of the two names every directory has. *)
Definition proper_name (s : string) : Prop :=
  s <> EmptyString /\ s <> "."%string /\ s <> ".."%string.

(** ** Worlds to run the program in *)

Module Demo.

Definition quote : string := String "034"%char EmptyString.

(** The page [<html><div data-tralbum=value></div></html>]. *)
Definition album_page (value : string) : Node :=
  mkNode DocumentNode "" []
    [mkNode ElementNode "html" []
       [mkNode ElementNode "div"
          [{| Namespace := ""; Key := "data-tralbum"; Val := value |}] []]].

(** A page without album data. *)
Definition plain_page : Node :=
  mkNode DocumentNode "" []
    [mkNode ElementNode "html" []
       [mkNode ElementNode "p" [{| Namespace := ""; Key := "class"; Val := "x" |}]
          [mkNode TextNode "no album here" [] []]]].

(** A storefront with three items; the second one is no album. *)
Definition item (href : string) : Node :=
  mkNode ElementNode "li"
    [{| Namespace := ""; Key := "data-item-id"; Val := "album-1" |}]
    [mkNode TextNode " " [] [];
     mkNode ElementNode "a" [{| Namespace := ""; Key := "href"; Val := href |}] []].

Definition storefront_page : Node :=
  mkNode DocumentNode "" []
    [mkNode ElementNode "ol" []
       [item "/album/one"; item "/track/solo"; item "/album/two"]].

(** The input of the decoder, and what the library makes of it. *)
Definition json_number_date : string :=
  "{" +:+ quote +:+ "album_release_date" +:+ quote +:+ ":5}".

Definition zero_album : bandcampTRAlbum :=
  {| Artist := ""; Current_Title := ""; Current_ArtId := 0; ItemType := "";
     FreeDownloadPage := ""; ReleaseDate := zeroTime; Trackinfo := [] |}.

Definition two_tracks : bandcampTRAlbum :=
  {| Artist := "A"; Current_Title := "T"; Current_ArtId := 0;
     ItemType := "album"; FreeDownloadPage := ""; ReleaseDate := zeroTime;
     Trackinfo :=
       [{| Title := "Two"; TrackNum := 2; File_Url := "http://x/2.mp3" |};
        {| Title := "One"; TrackNum := 1; File_Url := "http://x/1.mp3" |}] |}.

Definition with_art : bandcampTRAlbum :=
  {| Artist := "A"; Current_Title := "T"; Current_ArtId := 7;
     ItemType := "album"; FreeDownloadPage := ""; ReleaseDate := zeroTime;
     Trackinfo :=
       [{| Title := "One"; TrackNum := 1; File_Url := "http://x/1.mp3" |}] |}.

Definition good_date : string :=
  quote +:+ "01 Jan 2020 00:00:00 GMT" +:+ quote.

Definition scan (data : string) : json_document + error :=
  if String.eqb data json_number_date then
    inl {| doc_fields := zero_album; doc_release_dates := ["5"%string];
           doc_type_error := None |}
  else if String.eqb data "two-tracks" then
    inl {| doc_fields := two_tracks; doc_release_dates := [good_date];
           doc_type_error := None |}
  else if String.eqb data "with-art" then
    inl {| doc_fields := with_art; doc_release_dates := [good_date];
           doc_type_error := None |}
  else if String.eqb data "bad-date" then
    inl {| doc_fields := two_tracks;
           doc_release_dates := [quote +:+ "2020-01-01" +:+ quote];
           doc_type_error := None |}
  else inr (LibError "invalid character").

(** The pages of the site. *)
Definition pages (url : string) : option Node :=
  if String.eqb url "https://x/music" then Some storefront_page
  else if String.eqb url "https://x/album/number-date"
  then Some (album_page json_number_date)
  else if String.eqb url "https://x/album/two-tracks"
  then Some (album_page "two-tracks")
  else if String.eqb url "https://x/album/with-art"
  then Some (album_page "with-art")
  else if String.eqb url "https://x/album/bad-date"
  then Some (album_page "bad-date")
  else if String.eqb url "https://x/album/broken"
  then Some (album_page "{")
  else Some plain_page.

(** The address a response came from, read off the trace. *)
Definition url_of (tr : list event) (resp : handle) : string :=
  match nth_error tr resp with
  | Some (Ev _ (HttpGet url) _) => url
  | _ => EmptyString
  end.

(** A world where every address is on the origin [https://x], the
    network and the tag library never fail, the album directory does
    not exist yet, and writing to a file fails exactly when the disk is
    full. *)
Definition world (disk_full : bool) : World :=
  {| safeNames := true;
     url_Parse := fun u =>
       inl {| Origin := "https://x";
              Path := substring 9 (String.length u - 9) u |};
     url_String := fun u => Origin u +:+ Path u;
     http_Get := fun _ _ => None;
     html_Parse := fun tr resp =>
       match pages (url_of tr resp) with
       | Some doc => inl doc
       | None => inr (LibError "unexpected EOF")
       end;
     io_ReadAll := fun _ _ => inl "JPEG"%string;
     json_scan := scan;
     time_Parse := fun _ value =>
       if String.eqb value "01 Jan 2020 00:00:00 GMT" then inl 1577836800
       else inr (LibError "parsing time: cannot parse");
     time_Local_Format_2006 := fun _ => "2020"%string;
     os_Stat := fun _ _ => Some (LibError "no such file or directory");
     os_IsNotExist := fun _ => true;
     os_MkdirAll := fun _ _ _ => None;
     os_Create := fun _ _ => None;
     file_Write := fun _ _ _ =>
       if disk_full then Some (LibError "no space left on device") else None;
     file_ReadFrom := fun _ _ _ =>
       if disk_full then Some (LibError "no space left on device") else None;
     id3v2_Open := fun _ _ => None;
     tag_Save := fun _ _ => None |}.

End Demo.

(** ** A world with outages *)

Module Outage.

(** A storefront whose items are no albums: a single, and an item
    without a link. *)
Definition singles_page : Node :=
  mkNode DocumentNode "" []
    [mkNode ElementNode "ol" []
       [Demo.item "/track/solo";
        mkNode ElementNode "li"
          [{| Namespace := ""; Key := "data-item-id"; Val := "album-2" |}]
          [mkNode ElementNode "span" [] []]]].

Definition pages (url : string) : option Node :=
  if String.eqb url "https://x/album/garbled" then None
  else if String.eqb url "https://garbled/music" then None
  else if String.eqb url "https://x/music" then Some singles_page
  else Demo.pages url.

(** A world where the names are kept as they are, the addresses below
    [down] cannot be fetched, the garbled pages do not parse, and the
    album directory cannot be examined. *)
Definition world : World :=
  {| safeNames := false;
     url_Parse := fun u =>
       inl {| Origin := "https://x";
              Path := substring 9 (String.length u - 9) u |};
     url_String := fun u => Origin u +:+ Path u;
     http_Get := fun _ url =>
       if String.eqb url "https://x/album/down"
          || String.eqb url "https://down/music"
       then Some (LibError "connection refused") else None;
     html_Parse := fun tr resp =>
       match pages (Demo.url_of tr resp) with
       | Some doc => inl doc
       | None => inr (LibError "unexpected EOF")
       end;
     io_ReadAll := fun _ _ => inl "JPEG"%string;
     json_scan := Demo.scan;
     time_Parse := fun _ value =>
       if String.eqb value "01 Jan 2020 00:00:00 GMT" then inl 1577836800
       else inr (LibError "parsing time: cannot parse");
     time_Local_Format_2006 := fun _ => "2020"%string;
     os_Stat := fun _ _ => Some (LibError "permission denied");
     os_IsNotExist := fun _ => false;
     os_MkdirAll := fun _ _ _ => None;
     os_Create := fun _ _ => None;
     file_Write := fun _ _ _ => None;
     file_ReadFrom := fun _ _ _ => None;
     id3v2_Open := fun _ _ => None;
     tag_Save := fun _ _ => None |}.

End Outage.

(** * Properties *)

(** ** Strings and UTF-8 *)

Ltac dlia := Z.div_mod_to_equations; lia.

Lemma app_String c s t : String c s +:+ t = String c (s +:+ t).
Proof. reflexivity. Qed.

Lemma app_Empty_r s : s +:+ EmptyString = s.
Proof. induction s as [|c s IH]; [reflexivity|]. rewrite app_String, IH. reflexivity. Qed.

Lemma app_assoc_s (a b c : string) : (a +:+ b) +:+ c = a +:+ (b +:+ c).
Proof. induction a as [|x a IH]; [reflexivity|]. rewrite !app_String, IH. reflexivity. Qed.

Lemma byte_val_bounds c : 0 <= byte_val c < 256.
Proof. unfold byte_val. pose proof (N_ascii_bounded c). lia. Qed.

Lemma byte_val_mk_byte z : 0 <= z < 256 -> byte_val (mk_byte z) = z.
Proof.
  intros Hz. unfold byte_val, mk_byte.
  rewrite N_ascii_embedding by lia. lia.
Qed.

Lemma valid_RuneError : valid_rune RuneError.
Proof. unfold valid_rune, RuneError, MaxRune, surrogateMin, surrogateMax. lia. Qed.

Ltac ztrue := rewrite (proj2 (Z.ltb_lt _ _)) by dlia.
Ltac zfalse := rewrite (proj2 (Z.ltb_ge _ _)) by dlia.

(** Decoding undoes encoding: the range loop reads back the rune that
    [string(r)] wrote. *)
Lemma runes_string_of_rune r rest :
  valid_rune r -> runes (string_of_rune r +:+ rest) = r :: runes rest.
Proof.
  unfold valid_rune, MaxRune, surrogateMin, surrogateMax. intros [Hr Hs].
  unfold string_of_rune, MaxRune, surrogateMin, surrogateMax.
  rewrite (proj2 (Z.leb_le 0 r)) by lia. rewrite !andb_true_l.
  destruct (Z.ltb_spec r 0x80) as [H1|H1].
  { rewrite app_String. cbn [runes]. rewrite byte_val_mk_byte by lia.
    ztrue. reflexivity. }
  destruct (Z.ltb_spec r 0x800) as [H2|H2].
  { rewrite !app_String. cbn [runes]. rewrite !byte_val_mk_byte by dlia.
    zfalse. zfalse. ztrue. unfold accept.
    rewrite (proj2 (Z.leb_le _ _)) by dlia. rewrite (proj2 (Z.leb_le _ _)) by dlia.
    cbn [andb]. f_equal. dlia. }
  zfalse.
  rewrite (proj2 (Z.ltb_ge 1114111 r)) by lia. cbn [orb].
  destruct (Z.leb_spec 55296 r) as [H3|H3]; cbn [andb].
  - rewrite (proj2 (Z.leb_gt r 57343)) by lia.
    destruct (Z.ltb_spec r 0x10000) as [H4|H4].
    + rewrite !app_String. cbn [runes]. rewrite !byte_val_mk_byte by dlia.
      zfalse. zfalse. zfalse. ztrue. unfold accept, second_lo, second_hi.
      rewrite (proj2 (Z.eqb_neq _ 224)) by dlia.
      rewrite (proj2 (Z.eqb_neq _ 240)) by dlia.
      rewrite (proj2 (Z.eqb_neq _ 237)) by dlia.
      rewrite (proj2 (Z.eqb_neq _ 244)) by dlia.
      rewrite !(proj2 (Z.leb_le _ _)) by dlia.
      cbn [andb]. f_equal. dlia.
    + rewrite !app_String. cbn [runes]. rewrite !byte_val_mk_byte by dlia.
      zfalse. zfalse. zfalse. zfalse. ztrue. unfold accept, second_lo, second_hi.
      rewrite (proj2 (Z.eqb_neq _ 224)) by dlia.
      rewrite (proj2 (Z.eqb_neq _ 237)) by dlia.
      destruct (Z.eqb_spec (240 + r / 262144) 240) as [E|E];
        destruct (Z.eqb_spec (240 + r / 262144) 244) as [E'|E'];
        rewrite !(proj2 (Z.leb_le _ _)) by dlia;
        cbn [andb]; f_equal; dlia.
  - rewrite (proj2 (Z.ltb_lt r 65536)) by lia.
    rewrite !app_String. cbn [runes]. rewrite !byte_val_mk_byte by dlia.
    zfalse. zfalse. zfalse. ztrue. unfold accept, second_lo, second_hi.
    rewrite (proj2 (Z.eqb_neq _ 240)) by dlia.
    rewrite (proj2 (Z.eqb_neq _ 244)) by dlia.
    destruct (Z.eqb_spec (224 + r / 4096) 224) as [E|E];
      destruct (Z.eqb_spec (224 + r / 4096) 237) as [E'|E'];
      rewrite !(proj2 (Z.leb_le _ _)) by dlia;
      cbn [andb]; f_equal; dlia.
Qed.

Ltac accept_bounds :=
  repeat match goal with
  | H : _ && _ = true |- _ => apply andb_true_iff in H; destruct H
  | H : accept _ _ _ = true |- _ =>
    unfold accept in H; apply andb_true_iff in H; destruct H
  | H : (_ <=? _) = true |- _ => apply Z.leb_le in H
  end.

(** A range loop yields Unicode scalar values only. *)
Lemma runes_valid s : Forall valid_rune (runes s).
Proof.
  remember (String.length s) as n eqn:Hn.
  assert (Hlen : (String.length s <= n)%nat) by lia. clear Hn.
  revert s Hlen. induction n as [|n IH]; intros s Hlen.
  { destruct s; [constructor | simpl in Hlen; lia]. }
  destruct s as [|c0 t0]; [constructor|]. simpl in Hlen.
  assert (IH0 : Forall valid_rune (runes t0)) by (apply IH; lia).
  assert (Herr : Forall valid_rune (RuneError :: runes t0))
    by (constructor; [apply valid_RuneError | exact IH0]).
  cbn [runes]. pose proof (byte_val_bounds c0) as Hb0.
  destruct (Z.ltb_spec (byte_val c0) 0x80).
  { constructor; [|exact IH0].
    unfold valid_rune, MaxRune, surrogateMin, surrogateMax. lia. }
  destruct (Z.ltb_spec (byte_val c0) 0xC2); [exact Herr|].
  destruct (Z.ltb_spec (byte_val c0) 0xE0).
  { destruct t0 as [|c1 t1]; [exact Herr|].
    destruct (accept 128 191 (byte_val c1)) eqn:Ha; [|exact Herr].
    accept_bounds. constructor; [|apply IH; simpl in Hlen; lia].
    unfold valid_rune, MaxRune, surrogateMin, surrogateMax. lia. }
  destruct (Z.ltb_spec (byte_val c0) 0xF0).
  { destruct t0 as [|c1 [|c2 t2]]; try exact Herr.
    destruct (accept _ _ (byte_val c1) && accept 128 191 (byte_val c2)) eqn:Ha;
      [|exact Herr].
    accept_bounds. constructor; [|apply IH; simpl in Hlen; lia].
    unfold second_lo, second_hi in *.
    unfold valid_rune, MaxRune, surrogateMin, surrogateMax.
    destruct (Z.eqb_spec (byte_val c0) 224); destruct (Z.eqb_spec (byte_val c0) 237);
      destruct (Z.eqb_spec (byte_val c0) 240); destruct (Z.eqb_spec (byte_val c0) 244);
      lia. }
  destruct (Z.ltb_spec (byte_val c0) 0xF5); [|exact Herr].
  destruct t0 as [|c1 [|c2 [|c3 t3]]]; try exact Herr.
  destruct (accept _ _ (byte_val c1) && accept 128 191 (byte_val c2)
            && accept 128 191 (byte_val c3)) eqn:Ha; [|exact Herr].
  accept_bounds. constructor; [|apply IH; simpl in Hlen; lia].
  unfold second_lo, second_hi in *.
  unfold valid_rune, MaxRune, surrogateMin, surrogateMax.
  destruct (Z.eqb_spec (byte_val c0) 224); destruct (Z.eqb_spec (byte_val c0) 237);
    destruct (Z.eqb_spec (byte_val c0) 240); destruct (Z.eqb_spec (byte_val c0) 244);
    lia.
Qed.

(** ** The sanitizer *)

(** The table as a chain of tests. *)
Lemma clean_rune_cases r :
  clean_rune r =
  if r =? 0x3C then 0xFE64 else if r =? 0x3E then 0xFE65
  else if r =? 0x3A then 0x02D0 else if r =? 0x2F then 0x2044
  else if r =? 0x5C then 0x2216 else if r =? 0x7C then 0x2F01
  else if r =? 0x3F then 0xFE56 else if r =? 0x2A then 0xFE61 else r.
Proof.
  unfold clean_rune, msStrings.
  repeat (rewrite lookup_insert; case_decide;
          [subst r; reflexivity
          |rewrite (proj2 (Z.eqb_neq r _)) by congruence]).
  rewrite lookup_empty. reflexivity.
Qed.

Lemma clean_rune_other r : ~ In r unsafe_runes -> clean_rune r = r.
Proof.
  intros Hr. rewrite clean_rune_cases.
  repeat match goal with
  | |- context [r =? ?k] =>
    destruct (Z.eqb_spec r k) as [->|?];
      [exfalso; apply Hr; unfold unsafe_runes; simpl; tauto|]
  end.
  reflexivity.
Qed.

Lemma clean_rune_image r : clean_rune r = r \/ (0x80 <= clean_rune r /\ In r unsafe_runes).
Proof.
  rewrite clean_rune_cases.
  repeat match goal with
  | |- context [r =? ?k] =>
    destruct (Z.eqb_spec r k) as [->|?];
      [right; split; [lia|unfold unsafe_runes; simpl; tauto]|]
  end.
  left. reflexivity.
Qed.

Lemma clean_rune_idem r : clean_rune (clean_rune r) = clean_rune r.
Proof.
  destruct (clean_rune_image r) as [E|[H _]]; [rewrite !E; reflexivity|].
  apply clean_rune_other. unfold unsafe_runes. simpl. lia.
Qed.

Lemma clean_rune_valid r : valid_rune r -> valid_rune (clean_rune r).
Proof.
  intros Hr. rewrite clean_rune_cases.
  repeat match goal with
  | |- context [r =? ?k] =>
    destruct (Z.eqb_spec r k) as [?|?];
      [unfold valid_rune, MaxRune, surrogateMin, surrogateMax; lia|]
  end.
  exact Hr.
Qed.

Lemma cleanString_loop rs out :
  fold_left
    (fun out r1 =>
       match msStrings !! r1 with
       | Some r => out +:+ string_of_rune r
       | None => out +:+ string_of_rune r1
       end) rs out
  = out +:+ encode_runes (map clean_rune rs).
Proof.
  revert out. induction rs as [|r rs IH]; intros out; simpl.
  - symmetry. apply app_Empty_r.
  - rewrite IH. unfold clean_rune.
    destruct (msStrings !! r); rewrite app_assoc_s; reflexivity.
Qed.

(** [cleanString] encodes the image of the runes of its input. *)
Lemma cleanString_encode s :
  cleanString s = encode_runes (map clean_rune (runes s)).
Proof. unfold cleanString. rewrite cleanString_loop. reflexivity. Qed.

Lemma runes_encode_runes rs :
  Forall valid_rune rs -> runes (encode_runes rs) = rs.
Proof.
  induction 1 as [|r rs Hr _ IH]; [reflexivity|].
  simpl. rewrite runes_string_of_rune by exact Hr. rewrite IH. reflexivity.
Qed.

(** The runes of the output are the images of the runes of the input. *)
Lemma runes_cleanString s : runes (cleanString s) = map clean_rune (runes s).
Proof.
  rewrite cleanString_encode. apply runes_encode_runes.
  induction (runes_valid s) as [|r rs Hr _ IH]; simpl; constructor.
  - apply clean_rune_valid, Hr.
  - exact IH.
Qed.

Lemma cleanString_idem s : cleanString (cleanString s) = cleanString s.
Proof.
  rewrite (cleanString_encode (cleanString s)), runes_cleanString.
  rewrite map_map. rewrite cleanString_encode. f_equal.
  apply map_ext. intros r. apply clean_rune_idem.
Qed.

Lemma cleanString_rune_count s :
  RuneCountInString (cleanString s) = RuneCountInString s.
Proof. unfold RuneCountInString. rewrite runes_cleanString. apply length_map. Qed.

(** ** The DOM locator *)

(** Induction on a tree, with the property at hand for every child. *)
Lemma Node_ind_children (P : Node -> Prop) :
  (forall t d a cs, Forall P cs -> P (mkNode t d a cs)) ->
  forall n, P n.
Proof.
  intros step. fix IH 1. intros [t d a cs]. apply step.
  induction cs as [|c cs IHcs]; constructor; [apply IH | exact IHcs].
Qed.

Lemma fold_left_append {A B} (f : A -> list B) l init :
  fold_left (fun results c => results ++ f c) l init = init ++ flat_map f l.
Proof.
  revert init. induction l as [|x l IH]; intros init; simpl.
  - rewrite app_nil_r. reflexivity.
  - rewrite IH, <- app_assoc. reflexivity.
Qed.

Lemma attr_loop (n : Node) key attrs init :
  fold_left
    (fun results a => if String.eqb (Key a) key then results ++ [n] else results)
    attrs init
  = init ++ repeat n (length (List.filter (fun a => String.eqb (Key a) key) attrs)).
Proof.
  revert init. induction attrs as [|a attrs IH]; intros init; simpl.
  - rewrite app_nil_r. reflexivity.
  - rewrite IH. destruct (String.eqb (Key a) key); simpl.
    + rewrite <- app_assoc. reflexivity.
    + reflexivity.
Qed.

(** A node comes before what its children yield, child by child. *)
Lemma findElementsWithDataKey_unfold t d a cs key :
  findElementsWithDataKey (mkNode t d a cs) key
  = repeat (mkNode t d a cs) (key_count key (mkNode t d a cs))
    ++ flat_map (fun c => findElementsWithDataKey c key) cs.
Proof.
  cbn [findElementsWithDataKey]. rewrite fold_left_append. f_equal.
  unfold key_count. cbn [Type_ Attr].
  destruct (is_ElementNode t); [|reflexivity].
  rewrite attr_loop. reflexivity.
Qed.

Lemma flat_map_flat_map {A B C} (f : A -> list B) (g : B -> list C) l :
  flat_map g (flat_map f l) = flat_map (fun x => flat_map g (f x)) l.
Proof.
  induction l as [|x l IH]; simpl; [reflexivity|].
  rewrite flat_map_app, IH. reflexivity.
Qed.

Lemma flat_map_ext_Forall {A B} (f g : A -> list B) l :
  Forall (fun x => f x = g x) l -> flat_map f l = flat_map g l.
Proof. induction 1 as [|x l Hx _ IH]; simpl; [reflexivity|]. rewrite Hx, IH. reflexivity. Qed.

(** The result is the document-order listing, each node taken once per
    attribute named [key]. *)
Lemma findElementsWithDataKey_preorder n key :
  findElementsWithDataKey n key
  = flat_map (fun m => repeat m (key_count key m)) (preorder n).
Proof.
  induction n as [t d a cs IH] using Node_ind_children.
  rewrite findElementsWithDataKey_unfold. cbn [preorder flat_map]. f_equal.
  rewrite flat_map_flat_map. apply flat_map_ext_Forall. exact IH.
Qed.

Lemma key_count_carries key m : (0 < key_count key m)%nat <-> carries key m.
Proof.
  unfold key_count, carries. destruct (is_ElementNode (Type_ m)).
  - induction (Attr m) as [|a l IH]; simpl.
    + split; [lia|]. intros [_ (a & [] & _)].
    + destruct (String.eqb_spec (Key a) key) as [E|E]; simpl.
      * split; [|lia]. intros _. split; [reflexivity|]. exists a. auto.
      * rewrite IH. split.
        -- intros [_ (b & Hb & Hk)]. split; [reflexivity|]. exists b. auto.
        -- intros [_ (b & [Hb|Hb] & Hk)]; [congruence|].
           split; [reflexivity|]. exists b. auto.
  - split; [lia|]. intros [H _]. discriminate.
Qed.

Lemma findElementsWithDataKey_In n key m :
  In m (findElementsWithDataKey n key) <-> In m (preorder n) /\ carries key m.
Proof.
  rewrite findElementsWithDataKey_preorder, in_flat_map. split.
  - intros (x & Hx & Hm). apply repeat_spec in Hm as Hmx. subst x.
    split; [exact Hx|]. apply key_count_carries.
    destruct (key_count key m); [contradiction | lia].
  - intros [Hm Hc]. exists m. split; [exact Hm|].
    apply key_count_carries in Hc.
    destruct (key_count key m); [lia | left; reflexivity].
Qed.

Lemma findElementsWithDataKey_none n key :
  (forall m, In m (preorder n) -> ~ carries key m) ->
  findElementsWithDataKey n key = [].
Proof.
  intros Hnone. destruct (findElementsWithDataKey n key) as [|m l] eqn:E;
    [reflexivity|].
  assert (Hm : In m (findElementsWithDataKey n key)) by (rewrite E; left; reflexivity).
  apply findElementsWithDataKey_In in Hm. destruct Hm as [Hm Hc].
  destruct (Hnone m Hm Hc).
Qed.

Lemma carriesb_carries key m : carriesb key m = true <-> carries key m.
Proof.
  unfold carriesb, carries. rewrite andb_true_iff, existsb_exists.
  split; intros [H (a & Ha & Hk)]; (split; [exact H|]); exists a;
    (split; [exact Ha|]).
  - apply String.eqb_eq, Hk.
  - apply String.eqb_eq, Hk.
Qed.

Lemma key_count_distinct key m :
  List.NoDup (map Key (Attr m)) ->
  key_count key m = if carriesb key m then 1%nat else 0%nat.
Proof.
  unfold key_count, carriesb. destruct (is_ElementNode (Type_ m)); [|reflexivity].
  cbn [andb]. induction (Attr m) as [|a l IH]; [reflexivity|].
  cbn [map]. intros Hnd. apply List.NoDup_cons_iff in Hnd as [Hnotin Hnd].
  specialize (IH Hnd). cbn [List.filter existsb].
  destruct (String.eqb_spec (Key a) key) as [E|E]; cbn [orb length].
  - destruct (existsb _ l) eqn:Ex.
    + apply existsb_exists in Ex as (b & Hb & Hk). apply String.eqb_eq in Hk.
      exfalso. apply Hnotin. rewrite E, <- Hk. apply in_map. exact Hb.
    + rewrite IH. reflexivity.
  - exact IH.
Qed.

(** Where attribute names are not repeated, the result is the
    document-order listing filtered by [carriesb]. *)
Lemma findElementsWithDataKey_filter n key :
  distinct_attributes n ->
  findElementsWithDataKey n key = List.filter (carriesb key) (preorder n).
Proof.
  unfold distinct_attributes. rewrite findElementsWithDataKey_preorder.
  induction (preorder n) as [|m l IH]; intros Hd; [reflexivity|].
  cbn [flat_map List.filter]. rewrite IH by (intros x Hx; apply Hd; right; exact Hx).
  rewrite key_count_distinct by (apply Hd; left; reflexivity).
  destruct (carriesb key m); reflexivity.
Qed.

(** ** The release-date unmarshaler and the decoder *)

(** [UnmarshalJSON] by the length of its input: from two bytes on, the
    bytes between the first and the last are parsed, whatever the first
    and the last are; below, the slice expression panics. *)
Lemma UnmarshalJSON_by_length w b :
  UnmarshalJSON w b =
  if (2 <=? String.length b)%nat then
    match time_Parse w layout (substring 1 (String.length b - 2) b) with
    | inr err => Fail err
    | inl parsed => Ok parsed
    end
  else Panic "slice bounds out of range".
Proof.
  unfold UnmarshalJSON, slice, layout.
  destruct (Nat.leb_spec 2 (String.length b)) as [Hlen|Hlen].
  - rewrite (proj2 (Z.leb_le 0 1)) by lia.
    rewrite (proj2 (Z.leb_le 1 _)) by lia.
    rewrite (proj2 (Z.leb_le _ (Z.of_nat (String.length b)))) by lia.
    cbn [andb].
    replace (Z.to_nat (Z.of_nat (String.length b) - 1 - 1))
      with (String.length b - 2)%nat by lia.
    reflexivity.
  - rewrite (proj2 (Z.leb_gt 1 _)) by lia. rewrite andb_false_r. reflexivity.
Qed.

Lemma unmarshal_dates_panic w b rest t :
  (String.length b < 2)%nat ->
  unmarshal_dates w (b :: rest) t = Panic "slice bounds out of range".
Proof.
  intros Hlen. cbn [unmarshal_dates]. rewrite UnmarshalJSON_by_length.
  rewrite (proj2 (Nat.leb_gt 2 _)) by lia. reflexivity.
Qed.

(** A syntax error is the error of the decoder. *)
Lemma json_Unmarshal_syntax w data err :
  json_scan w data = inr err -> json_Unmarshal w data = Fail err.
Proof. intros H. unfold json_Unmarshal. rewrite H. reflexivity. Qed.

(** A type mismatch on a field the library decodes is the error of the
    decoder, unless a release date stopped the decoding before. *)
Lemma json_Unmarshal_type_error w data d t err :
  json_scan w data = inl d ->
  unmarshal_dates w (doc_release_dates d) zeroTime = Ok t ->
  doc_type_error d = Some err ->
  json_Unmarshal w data = Fail err.
Proof. intros H1 H2 H3. unfold json_Unmarshal. rewrite H1, H2, H3. reflexivity. Qed.

(** A release date that is a JSON string (two bytes at least) whose
    interior the layout rejects is the error of the decoder. *)
Lemma json_Unmarshal_bad_date w data d raw err :
  json_scan w data = inl d ->
  doc_release_dates d = [raw] ->
  (2 <= String.length raw)%nat ->
  time_Parse w layout (substring 1 (String.length raw - 2) raw) = inr err ->
  json_Unmarshal w data = Fail err.
Proof.
  intros H1 H2 Hlen H3. unfold json_Unmarshal. rewrite H1, H2.
  cbn [unmarshal_dates]. rewrite UnmarshalJSON_by_length.
  rewrite (proj2 (Nat.leb_le 2 _)) by exact Hlen. rewrite H3. reflexivity.
Qed.

(** ** Traces only grow *)

Section Grows.
Context (phi : event -> Prop) (psi : site * call -> Prop).

Lemma grows_ret {A} (a : A) : grows phi psi (ret a).
Proof. intros fr. exists [], []. simpl. rewrite app_nil_r. auto. Qed.

Lemma grows_return {A} err : grows phi psi (@return_ A err).
Proof. intros fr. exists [], []. simpl. rewrite app_nil_r. auto. Qed.

Lemma grows_panic {A} msg : grows phi psi (@panic A msg).
Proof. intros fr. exists [], []. simpl. rewrite app_nil_r. auto. Qed.

Lemma grows_history : grows phi psi history.
Proof. intros fr. exists [], []. simpl. rewrite app_nil_r. auto. Qed.

Lemma grows_emit s c err : phi (Ev s c err) -> grows phi psi (emit s c err).
Proof. intros H fr. exists [Ev s c err], []. simpl. auto. Qed.

Lemma grows_defer s c : psi (s, c) -> grows phi psi (defer s c).
Proof. intros H fr. exists [], [(s, c)]. simpl. rewrite app_nil_r. auto. Qed.

Lemma grows_bind {A B} (m : M A) (k : A -> M B) :
  grows phi psi m -> (forall a, grows phi psi (k a)) ->
  grows phi psi (bind m k).
Proof.
  intros Hm Hk fr. unfold bind.
  destruct (Hm fr) as (e1 & d1 & Ht & Hd & F1 & F2).
  destruct (m fr) as [[a|e|p] fr1]; simpl in Ht, Hd.
  - destruct (Hk a fr1) as (e2 & d2 & Ht2 & Hd2 & G1 & G2).
    exists (e1 ++ e2), (d2 ++ d1). rewrite Ht2, Hd2, Ht, Hd, !app_assoc.
    repeat split; try reflexivity; apply Forall_app; auto.
  - exists e1, d1. simpl. auto.
  - exists e1, d1. simpl. auto.
Qed.

Lemma grows_check {A} (m : M (A + error)) on_err :
  grows phi psi m -> grows phi psi (check m on_err).
Proof.
  intros Hm. apply grows_bind; [exact Hm|].
  intros [a|err]; [apply grows_ret | apply grows_return].
Qed.

Lemma grows_check_err (m : M (option error)) on_err :
  grows phi psi m -> grows phi psi (check_err m on_err).
Proof.
  intros Hm. apply grows_bind; [exact Hm|].
  intros [err|]; [apply grows_return | apply grows_ret].
Qed.

Lemma grows_open_call s c answer :
  (forall err, phi (Ev s c err)) -> grows phi psi (open_call s c answer).
Proof.
  intros H. unfold open_call. apply grows_bind; [apply grows_history|].
  intros tr. apply grows_bind; [apply grows_emit, H|].
  intros _. apply grows_ret.
Qed.

Lemma grows_value_call {A} s c (answer : list event -> A + error) :
  (forall err, phi (Ev s c err)) -> grows phi psi (value_call s c answer).
Proof.
  intros H. unfold value_call. apply grows_bind; [apply grows_history|].
  intros tr. apply grows_bind; [apply grows_emit, H|].
  intros _. apply grows_ret.
Qed.

Lemma grows_error_call s c answer :
  (forall err, phi (Ev s c err)) -> grows phi psi (error_call s c answer).
Proof.
  intros H. unfold error_call. apply grows_bind; [apply grows_history|].
  intros tr. apply grows_bind; [apply grows_emit, H|].
  intros _. apply grows_ret.
Qed.

Lemma grows_plain_call s c :
  phi (Ev s c None) -> grows phi psi (plain_call s c).
Proof. intros H. apply grows_emit, H. Qed.

Lemma grows_print s text :
  phi (Ev s (Stdout text) None) -> grows phi psi (print s text).
Proof. intros H. apply grows_emit, H. Qed.

Lemma grows_for_range {A} (l : list A) body :
  (forall x, grows phi psi (body x)) -> grows phi psi (for_range l body).
Proof.
  intros H. induction l as [|x l IH]; simpl.
  - apply grows_ret.
  - apply grows_bind; [apply H | intros _; exact IH].
Qed.

Lemma grows_for_range_In {A} (l : list A) body :
  (forall x, In x l -> grows phi psi (body x)) -> grows phi psi (for_range l body).
Proof.
  intros H. induction l as [|x l IH]; simpl.
  - apply grows_ret.
  - apply grows_bind; [apply H; left; reflexivity | intros _].
    apply IH. intros y Hy. apply H. right. exact Hy.
Qed.

(** The trace at the return of a function: the events of the body,
    then the deferred calls. *)
Lemma grows_call_func body tr :
  grows phi psi body ->
  (forall d, psi d -> phi (Ev (fst d) (snd d) None)) ->
  exists evs, snd (call_func body tr) = tr ++ evs /\ Forall phi evs.
Proof.
  intros Hb Hd. unfold call_func.
  destruct (Hb {| trace := tr; defers := [] |}) as (evs & ds & Ht & Hds & F1 & F2).
  destruct (body _) as [r fr]. simpl in *.
  exists (evs ++ run_defers (defers fr)). rewrite Ht, app_assoc.
  split; [reflexivity|]. apply Forall_app. split; [exact F1|].
  rewrite Hds, app_nil_r. unfold run_defers. clear Hds.
  induction F2 as [|d ds' Hpsi _ IH]; simpl; constructor; auto.
Qed.

End Grows.

(** ** [downloadAlbum] *)

(** Once the page is fetched and parsed, the body goes on from the
    trace of the two calls, with the body of the response to close. *)
Lemma downloadAlbum_body_loads w url tr doc ds :
  loads w url tr doc ->
  downloadAlbum_body w url {| trace := tr; defers := ds |}
  = match findElementsWithDataKey doc "data-tralbum" with
    | [] => return_ (errors_New "could not find album")
    | el0 :: _ =>
      match json_Unmarshal w (getDataValue el0 "data-tralbum") with
      | Panic msg => panic msg
      | Fail err => return_ (Errorf_w "could not parse album JSON: " err)
      | Ok tralbum => downloadAlbum_materialize w tralbum
      end
    end {| trace := tr ++ page_events url tr;
           defers := (AtPage, BodyClose (length tr)) :: ds |}.
Proof.
  intros [Hget Hparse].
  unfold downloadAlbum_body, check, open_call, value_call, bind, history,
    emit, defer, ret. cbn [trace defers].
  rewrite Hget. cbv beta iota. cbn [trace defers].
  rewrite Hparse. cbv beta iota. cbn [trace defers].
  unfold page_events. rewrite <- app_assoc. reflexivity.
Qed.

Ltac run_step :=
  match goal with
  | |- context [match ?o with Some _ => _ | None => _ end] =>
    destruct o eqn:?; cbv beta iota; cbn [trace defers fst snd]
  end.

Lemma track_io_app evs1 evs2 : track_io (evs1 ++ evs2) = track_io evs1 ++ track_io evs2.
Proof. unfold track_io. apply flat_map_app. Qed.

Lemma tracks_io_cons albumPath track tracks :
  tracks_io albumPath (track :: tracks)
  = tracks_io albumPath [track] ++ tracks_io albumPath tracks.
Proof. reflexivity. Qed.

(** One turn of the track loop fetches the track, then creates its
    file; a turn that completes has done both. *)
Lemma downloadAlbum_track_io w tralbum albumPath artBytes track fr :
  let body := downloadAlbum_track w tralbum albumPath artBytes track in
  exists evs,
    trace (snd (body fr)) = trace fr ++ evs /\
    (Forall closing (defers fr) -> Forall closing (defers (snd (body fr)))) /\
    (track_io evs = [HttpGet (File_Url track)] \/
     track_io evs = tracks_io albumPath [track]) /\
    (fst (body fr) = Ok tt -> track_io evs = tracks_io albumPath [track]).
Proof.
  intros body. unfold body, downloadAlbum_track.
  unfold check, check_err, open_call, error_call, plain_call, print,
    plain_call, bind, history, emit, defer, ret, return_.
  cbn [trace defers].
  repeat run_step.
  all: rewrite <- ?app_assoc; cbn [app].
  all: eexists; split; [reflexivity|].
  all: split; [intros Hd; repeat (constructor; [exact I|]); exact Hd|].
  all: split; [cbn; auto | cbn; intros; congruence].
Qed.

(** The track loop fetches and creates in the order of the list, and
    has gone through all of it when it completes. *)
Lemma downloadAlbum_tracks_io w tralbum albumPath artBytes tracks fr :
  let loop := for_range tracks (downloadAlbum_track w tralbum albumPath artBytes) in
  exists evs,
    trace (snd (loop fr)) = trace fr ++ evs /\
    (Forall closing (defers fr) -> Forall closing (defers (snd (loop fr)))) /\
    track_io evs `prefix_of` tracks_io albumPath tracks /\
    (fst (loop fr) = Ok tt -> track_io evs = tracks_io albumPath tracks).
Proof.
  cbv zeta. revert fr. induction tracks as [|track tracks IH]; intros fr.
  - exists []. cbn. rewrite app_nil_r. auto.
  - cbn [for_range]. unfold bind.
    destruct (downloadAlbum_track_io w tralbum albumPath artBytes track fr)
      as (e1 & Ht & Hd & Hio & Hok).
    cbv zeta in Ht, Hd, Hio, Hok.
    destruct (downloadAlbum_track w tralbum albumPath artBytes track fr)
      as [[[]|err|msg] fr1]; cbn [fst snd] in *.
    + destruct (IH fr1) as (e2 & Ht2 & Hd2 & Hio2 & Hok2).
      exists (e1 ++ e2). rewrite Ht2, Ht, app_assoc.
      split; [reflexivity|]. split; [auto|].
      rewrite track_io_app, tracks_io_cons, (Hok eq_refl).
      split; [apply prefix_app, Hio2|].
      intros Hr. rewrite (Hok2 Hr). reflexivity.
    + exists e1. split; [exact Ht|]. split; [exact Hd|].
      split; [|intros; congruence].
      rewrite tracks_io_cons. apply prefix_app_r.
      destruct Hio as [-> | ->]; [|reflexivity].
      exists [Create (trackPath_of albumPath track)]. reflexivity.
    + exists e1. split; [exact Ht|]. split; [exact Hd|].
      split; [|intros; congruence].
      rewrite tracks_io_cons. apply prefix_app_r.
      destruct Hio as [-> | ->]; [|reflexivity].
      exists [Create (trackPath_of albumPath track)]. reflexivity.
Qed.

Ltac grows_auto :=
  repeat first
    [ apply grows_ret | apply grows_return | apply grows_panic
    | apply grows_print | apply grows_plain_call | apply grows_defer
    | apply grows_check | apply grows_check_err
    | apply grows_open_call; intros ?
    | apply grows_value_call; intros ?
    | apply grows_error_call; intros ?
    | apply grows_for_range; intros ?
    | apply grows_bind; [|intros ?]
    | match goal with
      | |- grows _ _ (match ?x with _ => _ end) => destruct x
      end
    | reflexivity | exact I ].

Lemma quiet_track_io evs : Forall quiet evs -> track_io evs = [].
Proof.
  induction 1 as [|e evs He _ IH]; [reflexivity|].
  change (e :: evs) with ([e] ++ evs). rewrite track_io_app, IH, app_nil_r.
  exact He.
Qed.

Lemma in_order_quiet_bind {A B} expected (m : M A) (k : A -> M B) :
  grows quiet closing m -> (forall a, in_order expected (k a)) ->
  in_order expected (bind m k).
Proof.
  intros Hm Hk fr. unfold bind.
  destruct (Hm fr) as (e1 & d1 & Ht & Hd & F1 & F2).
  destruct (m fr) as [[a|err|msg] fr1]; cbn [fst snd] in *.
  - destruct (Hk a fr1) as (e2 & Ht2 & Hd2 & Hp & Hok).
    exists (e1 ++ e2). rewrite Ht2, Ht, app_assoc. split; [reflexivity|].
    rewrite track_io_app, (quiet_track_io e1 F1). cbn [app].
    split; [|auto]. intros H0. apply Hd2. rewrite Hd. apply Forall_app. auto.
  - exists e1. rewrite (quiet_track_io e1 F1). split; [exact Ht|].
    split; [intros H0; rewrite Hd; apply Forall_app; auto|].
    split; [apply prefix_nil|]. intros [a Ha]. discriminate.
  - exists e1. rewrite (quiet_track_io e1 F1). split; [exact Ht|].
    split; [intros H0; rewrite Hd; apply Forall_app; auto|].
    split; [apply prefix_nil|]. intros [a Ha]. discriminate.
Qed.

Lemma in_order_bind_quiet {A B} expected (m : M A) (k : A -> M B) :
  in_order expected m -> (forall a, grows quiet closing (k a)) ->
  in_order expected (bind m k).
Proof.
  intros Hm Hk fr. unfold bind.
  destruct (Hm fr) as (e1 & Ht & Hd & Hp & Hok).
  destruct (m fr) as [[a|err|msg] fr1]; cbn [fst snd] in *.
  - destruct (Hk a fr1) as (e2 & d2 & Ht2 & Hd2 & F1 & F2).
    exists (e1 ++ e2). rewrite Ht2, Ht, app_assoc. split; [reflexivity|].
    rewrite track_io_app, (quiet_track_io e2 F1), app_nil_r.
    split; [intros H0; rewrite Hd2; apply Forall_app; auto|].
    split; [exact Hp|]. intros _. apply Hok. exists a. reflexivity.
  - exists e1. split; [exact Ht|]. split; [exact Hd|]. split; [exact Hp|].
    intros [a Ha]. discriminate.
  - exists e1. split; [exact Ht|]. split; [exact Hd|]. split; [exact Hp|].
    intros [a Ha]. discriminate.
Qed.

Lemma grows_quiet_notices w tralbum : grows quiet closing (downloadAlbum_notices w tralbum).
Proof. unfold downloadAlbum_notices. grows_auto. Qed.

Lemma grows_quiet_art w tralbum : grows quiet closing (downloadAlbum_art w tralbum).
Proof. unfold downloadAlbum_art. grows_auto. Qed.

Lemma grows_quiet_dir w albumPath : grows quiet closing (downloadAlbum_dir w albumPath).
Proof. unfold downloadAlbum_dir. grows_auto. Qed.

Lemma grows_quiet_cover w albumPath big : grows quiet closing (downloadAlbum_cover w albumPath big).
Proof. unfold downloadAlbum_cover. grows_auto. Qed.

(** After decoding, [downloadAlbum] fetches and creates the tracks in
    the order of the record. *)
Lemma downloadAlbum_materialize_in_order w tralbum :
  in_order (tracks_io (albumPath_of w (sanitized w tralbum))
                      (Trackinfo (sanitized w tralbum)))
           (downloadAlbum_materialize w tralbum).
Proof.
  unfold downloadAlbum_materialize. fold (sanitized w tralbum).
  apply in_order_quiet_bind; [apply grows_quiet_notices|intros _].
  apply in_order_quiet_bind; [apply grows_quiet_art|intros art].
  apply in_order_quiet_bind; [apply grows_quiet_dir|intros _].
  apply in_order_quiet_bind; [apply grows_quiet_cover|intros _].
  apply in_order_bind_quiet; [|intros _; grows_auto].
  intros fr.
  destruct (downloadAlbum_tracks_io w (sanitized w tralbum)
              (albumPath_of w (sanitized w tralbum)) (fst art)
              (Trackinfo (sanitized w tralbum)) fr) as (evs & Ht & Hd & Hp & Hok).
  exists evs. split; [exact Ht|]. split; [exact Hd|]. split; [exact Hp|].
  intros [[] Ha]. apply Hok, Ha.
Qed.

Lemma downloadAlbum_body_decoded w url tr tralbum ds :
  decoded w url tr tralbum ->
  downloadAlbum_body w url {| trace := tr; defers := ds |}
  = downloadAlbum_materialize w tralbum
      {| trace := tr ++ page_events url tr;
         defers := (AtPage, BodyClose (length tr)) :: ds |}.
Proof.
  intros (doc & el0 & els & Hl & Hf & Hj).
  rewrite (downloadAlbum_body_loads w url tr doc ds Hl), Hf, Hj. reflexivity.
Qed.

Lemma track_io_run_defers ds : Forall closing ds -> track_io (run_defers ds) = [].
Proof.
  induction 1 as [|[s c] ds Hc _ IH]; [reflexivity|].
  cbn [run_defers map]. change (?e :: ?l) with ([e] ++ l).
  rewrite track_io_app. fold (run_defers ds). rewrite IH, app_nil_r.
  unfold closing in Hc. cbn [snd] in Hc.
  destruct c; try contradiction; destruct s; reflexivity.
Qed.

(** The whole of [downloadAlbum], for a page that decodes. *)
Lemma downloadAlbum_in_order w url tr tralbum :
  decoded w url tr tralbum ->
  let expected := tracks_io (albumPath_of w (sanitized w tralbum))
                            (Trackinfo (sanitized w tralbum)) in
  exists evs,
    snd (downloadAlbum w url tr) = tr ++ evs /\
    track_io evs `prefix_of` expected /\
    (fst (downloadAlbum w url tr) = Returned None -> track_io evs = expected).
Proof.
  intros Hdec expected. unfold downloadAlbum, call_func.
  rewrite (downloadAlbum_body_decoded w url tr tralbum [] Hdec).
  destruct (downloadAlbum_materialize_in_order w tralbum
              {| trace := tr ++ page_events url tr;
                 defers := [(AtPage, BodyClose (length tr))] |})
    as (evs & Ht & Hd & Hp & Hok).
  destruct (downloadAlbum_materialize w tralbum _) as [r fr1].
  cbn [fst snd trace defers] in *.
  assert (Hc : Forall closing (defers fr1)).
  { apply Hd. constructor; [exact I | constructor]. }
  exists (page_events url tr ++ evs ++ run_defers (defers fr1)).
  rewrite Ht, <- !app_assoc. split; [reflexivity|].
  rewrite !track_io_app, (track_io_run_defers _ Hc), app_nil_r.
  change (track_io (page_events url tr)) with (@nil call). cbn [app].
  split; [exact Hp|]. intros Hr. apply Hok.
  destruct r as [[err|]|err|msg]; try discriminate. eexists; reflexivity.
Qed.

(** ** An album without cover art *)

Lemma sanitized_ArtId w tralbum :
  Current_ArtId (sanitized w tralbum) = Current_ArtId tralbum.
Proof. unfold sanitized. destruct (safeNames w); reflexivity. Qed.

(** With [art_id = 0] the art block and the cover block do nothing. *)
Lemma downloadAlbum_art_zero w tralbum fr :
  Current_ArtId tralbum = 0 ->
  downloadAlbum_art w tralbum fr = (Ok (None, None), fr).
Proof. intros H. unfold downloadAlbum_art. rewrite H. reflexivity. Qed.

Lemma downloadAlbum_cover_nil w albumPath fr :
  downloadAlbum_cover w albumPath None fr = (Ok tt, fr).
Proof. reflexivity. Qed.

Lemma downloadAlbum_materialize_zero w tralbum fr :
  Current_ArtId tralbum = 0 ->
  downloadAlbum_materialize w tralbum fr
  = (let tralbum := sanitized w tralbum in
     let albumPath := albumPath_of w tralbum in
     downloadAlbum_notices w tralbum ;;
     downloadAlbum_dir w albumPath ;;
     for_range (Trackinfo tralbum)
               (downloadAlbum_track w tralbum albumPath None) ;;
     print AtPage nl ;;
     ret None) fr.
Proof.
  intros H. unfold downloadAlbum_materialize. fold (sanitized w tralbum).
  cbv zeta. unfold downloadAlbum_art. rewrite sanitized_ArtId, H.
  reflexivity.
Qed.

Lemma length_append (a b : string) :
  String.length (a +:+ b) = (String.length a + String.length b)%nat.
Proof.
  induction a as [|c a IH]; [reflexivity|].
  rewrite app_String. simpl. rewrite IH. reflexivity.
Qed.

Lemma mp3_not_cover (name : string) : name +:+ ".mp3" <> "cover.jpg"%string.
Proof.
  intros H. pose proof (f_equal String.length H) as HL.
  rewrite length_append in HL. cbn in HL.
  pose proof (append_correct2 name ".mp3" 3) as HG. rewrite H in HG.
  replace (3 + String.length name)%nat with 8%nat in HG by lia.
  cbn in HG. discriminate.
Qed.

(** The file of a track is never the cover of its album directory. *)
Lemma trackPath_not_cover albumPath track :
  trackPath_of albumPath track <> albumPath +:+ "/cover.jpg".
Proof.
  unfold trackPath_of. intros H. apply String.app_inj in H.
  rewrite app_String in H. injection H as H. cbn in H.
  rewrite <- !app_assoc_s in H. exact (mp3_not_cover _ H).
Qed.

Ltac artless_auto := split; [reflexivity | cbn; discriminate].

Ltac grows_artless :=
  repeat first
    [ apply grows_ret | apply grows_return | apply grows_panic
    | apply grows_print; artless_auto
    | apply grows_plain_call; artless_auto
    | apply grows_defer; artless_auto
    | apply grows_check | apply grows_check_err
    | apply grows_open_call; intros ?
    | apply grows_value_call; intros ?
    | apply grows_error_call; intros ?
    | apply grows_for_range; intros ?
    | apply grows_bind; [|intros ?]
    | match goal with
      | |- grows _ _ (match ?x with _ => _ end) => destruct x
      end
    | artless_auto ].

Lemma grows_artless_track w tralbum albumPath track :
  grows (artless albumPath) (artless_defer albumPath)
        (downloadAlbum_track w tralbum albumPath None track).
Proof.
  unfold downloadAlbum_track. grows_artless.
  split; [reflexivity|]. cbn. intros H. injection H as H.
  exact (trackPath_not_cover _ _ H).
Qed.

(** The run of [downloadAlbum] for a record with [art_id = 0], from
    what the pipeline without the art does. *)
Lemma downloadAlbum_zero_grows w url tr tralbum
  (phi : event -> Prop) (psi : site * call -> Prop) :
  decoded w url tr tralbum -> Current_ArtId tralbum = 0 ->
  Forall phi (page_events url tr) ->
  psi (AtPage, BodyClose (length tr)) ->
  (forall d, psi d -> phi (Ev (fst d) (snd d) None)) ->
  grows phi psi
    (let tralbum := sanitized w tralbum in
     let albumPath := albumPath_of w tralbum in
     downloadAlbum_notices w tralbum ;;
     downloadAlbum_dir w albumPath ;;
     for_range (Trackinfo tralbum)
               (downloadAlbum_track w tralbum albumPath None) ;;
     print AtPage nl ;;
     ret (None : option error)) ->
  exists evs, snd (downloadAlbum w url tr) = tr ++ evs /\ Forall phi evs.
Proof.
  intros Hdec Hzero Hpage Hclose Hpsi Hg. unfold downloadAlbum, call_func.
  rewrite (downloadAlbum_body_decoded w url tr tralbum [] Hdec).
  rewrite (downloadAlbum_materialize_zero w tralbum _ Hzero).
  match goal with |- context [?m {| trace := ?t; defers := ?d |}] =>
    destruct (Hg {| trace := t; defers := d |}) as (evs & ds & Ht & Hd & F1 & F2);
    destruct (m {| trace := t; defers := d |}) as [r fr1]
  end.
  cbn [fst snd trace defers] in *.
  exists (page_events url tr ++ evs ++ run_defers (defers fr1)).
  rewrite Ht, <- !app_assoc. split; [reflexivity|].
  apply Forall_app. split; [exact Hpage|].
  apply Forall_app. split; [exact F1|].
  rewrite Hd. unfold run_defers. rewrite map_app. apply Forall_app. split.
  - clear Hd. induction F2 as [|d ds' Hd' _ IH]; simpl; constructor; auto.
  - repeat constructor. apply (Hpsi _ Hclose).
Qed.

(** With [art_id = 0], nothing [downloadAlbum] does is of the cover art. *)
Lemma downloadAlbum_artless w url tr tralbum :
  decoded w url tr tralbum -> Current_ArtId tralbum = 0 ->
  exists evs,
    snd (downloadAlbum w url tr) = tr ++ evs /\
    Forall (artless (albumPath_of w (sanitized w tralbum))) evs.
Proof.
  intros Hdec Hzero.
  set (albumPath := albumPath_of w (sanitized w tralbum)).
  apply (downloadAlbum_zero_grows w url tr tralbum
           (artless albumPath) (artless_defer albumPath) Hdec Hzero).
  - repeat constructor; cbn; discriminate.
  - split; [reflexivity | cbn; discriminate].
  - intros d Hd. exact Hd.
  - cbv zeta. fold albumPath.
    apply grows_bind; [unfold downloadAlbum_notices; grows_artless|intros _].
    apply grows_bind; [unfold downloadAlbum_dir; grows_artless|intros _].
    apply grows_bind;
      [apply grows_for_range; intros track; apply grows_artless_track|intros _].
    grows_artless.
Qed.

Ltac not_art_auto := intros [H|H]; cbn in H; discriminate H.

Ltac grows_not_art :=
  repeat first
    [ apply grows_ret | apply grows_return | apply grows_panic
    | apply grows_print; not_art_auto
    | apply grows_plain_call; not_art_auto
    | apply grows_defer; not_art_auto
    | apply grows_check | apply grows_check_err
    | apply grows_open_call; intros ?
    | apply grows_value_call; intros ?
    | apply grows_error_call; intros ?
    | apply grows_bind; [|intros ?]
    | match goal with
      | |- grows _ _ (match ?x with _ => _ end) => destruct x
      end
    | not_art_auto ].

(** With [art_id = 0], [downloadAlbum] fetches neither cover address,
    unless the page or a track lives at such an address. *)
Lemma downloadAlbum_fetches_no_art w url tr tralbum :
  decoded w url tr tralbum -> Current_ArtId tralbum = 0 ->
  not_art_url 0 url ->
  (forall track, In track (Trackinfo tralbum) -> not_art_url 0 (File_Url track)) ->
  exists evs,
    snd (downloadAlbum w url tr) = tr ++ evs /\
    Forall (fun e => ~ fetches_art 0 e) evs.
Proof.
  intros Hdec Hzero [Hu1 Hu2] Htracks.
  apply (downloadAlbum_zero_grows w url tr tralbum
           (fun e => ~ fetches_art 0 e)
           (fun d => ~ fetches_art 0 (Ev (fst d) (snd d) None)) Hdec Hzero).
  - repeat constructor.
    + intros [H|H]; cbn in H; injection H as H; [exact (Hu1 H) | exact (Hu2 H)].
    + not_art_auto.
  - not_art_auto.
  - intros d Hd. exact Hd.
  - cbv zeta.
    apply grows_bind; [unfold downloadAlbum_notices; grows_not_art|intros _].
    apply grows_bind; [unfold downloadAlbum_dir; grows_not_art|intros _].
    apply grows_bind; [|intros _; grows_not_art].
    apply grows_for_range_In. intros track Htrack.
    assert (Hurl : not_art_url 0 (File_Url track)).
    { unfold sanitized in Htrack. destruct (safeNames w); [|auto].
      cbn [clean_names Trackinfo] in Htrack. apply in_map_iff in Htrack.
      destruct Htrack as (t0 & <- & Ht0). exact (Htracks t0 Ht0). }
    destruct Hurl as [Ht1 Ht2].
    unfold downloadAlbum_track. grows_not_art.
    intros [H|H]; cbn in H; injection H as H; [exact (Ht1 H) | exact (Ht2 H)].
Qed.

(** ** A page without album data, and a record that does not decode *)

Lemma downloadAlbum_not_found w url tr doc :
  loads w url tr doc ->
  (forall m, In m (preorder doc) -> ~ carries "data-tralbum" m) ->
  downloadAlbum w url tr
  = (Returned (Some (errors_New "could not find album")),
     tr ++ page_events url tr ++ [Ev AtPage (BodyClose (length tr)) None]).
Proof.
  intros Hl Hnone. unfold downloadAlbum, call_func.
  rewrite (downloadAlbum_body_loads w url tr doc [] Hl).
  rewrite (findElementsWithDataKey_none doc "data-tralbum" Hnone).
  cbn. rewrite <- app_assoc. reflexivity.
Qed.

(** An error of the decoder comes back wrapped, and nothing but the
    page has been touched. *)
Lemma downloadAlbum_decode_error w url tr doc el0 els err :
  loads w url tr doc ->
  findElementsWithDataKey doc "data-tralbum" = el0 :: els ->
  json_Unmarshal w (getDataValue el0 "data-tralbum") = Fail err ->
  downloadAlbum w url tr
  = (Returned (Some (Errorf_w "could not parse album JSON: " err)),
     tr ++ page_events url tr ++ [Ev AtPage (BodyClose (length tr)) None]).
Proof.
  intros Hl Hf Hj. unfold downloadAlbum, call_func.
  rewrite (downloadAlbum_body_loads w url tr doc [] Hl), Hf, Hj.
  cbn. rewrite <- app_assoc. reflexivity.
Qed.

(** A panic of the decoder goes through [downloadAlbum]. *)
Lemma downloadAlbum_decode_panic w url tr doc el0 els msg :
  loads w url tr doc ->
  findElementsWithDataKey doc "data-tralbum" = el0 :: els ->
  json_Unmarshal w (getDataValue el0 "data-tralbum") = Panic msg ->
  downloadAlbum w url tr
  = (Panicked msg,
     tr ++ page_events url tr ++ [Ev AtPage (BodyClose (length tr)) None]).
Proof.
  intros Hl Hf Hj. unfold downloadAlbum, call_func.
  rewrite (downloadAlbum_body_loads w url tr doc [] Hl), Hf, Hj.
  cbn. rewrite <- app_assoc. reflexivity.
Qed.

(** ** [main] *)

Lemma prefix_append p s : String.prefix p s = true -> exists rest, s = p +:+ rest.
Proof.
  revert s. induction p as [|a p IH]; intros s H.
  - exists s. reflexivity.
  - destruct s as [|b s]; [discriminate|]. cbn [String.prefix] in H.
    destruct (ascii_dec a b) as [<-|]; [|discriminate].
    destruct (IH s H) as [rest ->]. exists rest. reflexivity.
Qed.

(** In the loop of [main], an album page without album data costs one
    line on the output, and the loop goes on with the next argument. *)
Lemma main_not_found w u parsed doc rest fr :
  url_Parse w u = inl parsed ->
  HasPrefix (Path parsed) "/album" = true ->
  loads w u (trace fr) doc ->
  (forall m, In m (preorder doc) -> ~ carries "data-tralbum" m) ->
  for_range (u :: rest) (main_url w) fr
  = for_range rest (main_url w)
      {| trace := trace fr ++ page_events u (trace fr)
                    ++ [Ev AtPage (BodyClose (length (trace fr))) None;
                        Ev AtMain (Stdout ("❌ could not find album" +:+ nl)) None];
         defers := defers fr |}.
Proof.
  intros Hparse Hprefix Hl Hnone. cbn [for_range]. unfold bind at 1.
  unfold main_url. rewrite Hparse. cbv zeta.
  destruct (prefix_append _ _ Hprefix) as [tail Hpath].
  assert (H1 : String.eqb (Path parsed) "/" = false) by (rewrite Hpath; reflexivity).
  assert (H2 : String.eqb (Path parsed) "" = false) by (rewrite Hpath; reflexivity).
  assert (H3 : String.eqb (Path parsed) "/music" = false) by (rewrite Hpath; reflexivity).
  assert (H4 : String.eqb (Path parsed) "/music/" = false) by (rewrite Hpath; reflexivity).
  rewrite H1, H2. cbn [orb]. rewrite H3, H4. cbn [orb]. rewrite Hprefix.
  unfold report, invoke, bind.
  rewrite (downloadAlbum_not_found w u (trace fr) doc Hl Hnone).
  cbn. rewrite <- !app_assoc. reflexivity.
Qed.

(** ** [downloadAlbums] *)

Lemma item_url_origin url url' el :
  Origin url = Origin url' -> item_url url el = item_url url' el.
Proof. intros H. unfold item_url, set_Path. rewrite H. reflexivity. Qed.

Lemma album_urls_origin w url url' els :
  Origin url = Origin url' -> album_urls w url els = album_urls w url' els.
Proof.
  intros H. unfold album_urls. apply flat_map_ext. intros el.
  rewrite (item_url_origin url url' el H). reflexivity.
Qed.

Lemma chain_errors_cons e errs err :
  chain_errors (e :: errs) err = chain_errors errs (Some (Errorf_w_nl_s err e)).
Proof. reflexivity. Qed.

(** The loop of [downloadAlbums] downloads every album of the list and
    chains every error; only a panic stops it. *)
Lemma downloadAlbums_loop_each w els url err fr :
  downloadAlbums_loop w els url err fr
  = match download_each w (album_urls w url els) (trace fr) with
    | (inl errs, tr') =>
      (Ok (chain_errors errs err), {| trace := tr'; defers := defers fr |})
    | (inr msg, tr') =>
      (Panic msg, {| trace := tr'; defers := defers fr |})
    end.
Proof.
  revert url err fr. induction els as [|el els IH]; intros url err fr.
  - cbn. destruct fr. reflexivity.
  - cbn [downloadAlbums_loop]. cbv zeta.
    change (set_Path (downloadAlbums_anchor (Children el) (Path (set_Path "" url)))
                     (set_Path "" url)) with (item_url url el).
    unfold album_urls. cbn [flat_map]. fold (album_urls w url els).
    assert (Ho : album_urls w (item_url url el) els = album_urls w url els)
      by (apply album_urls_origin; reflexivity).
    destruct (HasPrefix (Path (item_url url el)) "/album").
    + cbn [app download_each]. unfold bind, invoke.
      destruct (downloadAlbum w (url_String w (item_url url el)) (trace fr))
        as [[[err2|]|msg] tr1]; cbn [trace defers].
      * rewrite IH, Ho. cbn [trace defers].
        destruct (download_each w (album_urls w url els) tr1) as [[errs|msg] tr2];
          reflexivity.
      * rewrite IH, Ho. cbn [trace defers].
        destruct (download_each w (album_urls w url els) tr1) as [[errs|msg] tr2];
          reflexivity.
      * reflexivity.
    + cbn [app]. rewrite IH, Ho. reflexivity.
Qed.

(** The whole of [downloadAlbums], for a storefront that loads. *)
Lemma downloadAlbums_each w url tr doc :
  storefront_loads w url tr doc ->
  let closed := [Ev AtStorefront (BodyClose (length tr)) None] in
  downloadAlbums w url tr
  = match download_each w
            (album_urls w url (findElementsWithDataKey doc "data-item-id"))
            (tr ++ [Ev AtStorefront (HttpGet (url_String w url)) None;
                    Ev AtStorefront (HtmlParse (length tr)) None]) with
    | (inl errs, tr') => (Returned (chain_errors errs None), tr' ++ closed)
    | (inr msg, tr') => (Panicked msg, tr' ++ closed)
    end.
Proof.
  intros [Hget Hparse] closed. unfold downloadAlbums, call_func, downloadAlbums_body.
  unfold check, open_call, value_call, bind, history, emit, defer, ret.
  cbn [trace defers]. rewrite Hget. cbv beta iota. cbn [trace defers].
  rewrite Hparse. cbv beta iota. cbn [trace defers].
  rewrite downloadAlbums_loop_each. cbn [trace defers].
  rewrite <- app_assoc. cbn [app].
  destruct (download_each _ _ _) as [[errs|msg] tr']; reflexivity.
Qed.

(** ** Response bodies and tags are closed *)

Lemma opens_body_snoc tr e h :
  opens_body (tr ++ [e]) h
  = if (h <? length tr)%nat then opens_body tr h
    else if (h =? length tr)%nat
         then match e with Ev _ (HttpGet _) None => true | _ => false end
         else false.
Proof.
  unfold opens_body. destruct (Nat.ltb_spec h (length tr)) as [Hlt|Hge].
  - rewrite nth_error_app1 by exact Hlt. reflexivity.
  - rewrite nth_error_app2 by exact Hge.
    destruct (Nat.eqb_spec h (length tr)) as [->|Hne].
    + rewrite Nat.sub_diag. reflexivity.
    + destruct (h - length tr)%nat as [|k] eqn:E; [lia|].
      cbn. destruct k; reflexivity.
Qed.

Lemma opens_tag_snoc tr e h :
  opens_tag (tr ++ [e]) h
  = if (h <? length tr)%nat then opens_tag tr h
    else if (h =? length tr)%nat
         then match e with Ev _ (TagOpen _) None => true | _ => false end
         else false.
Proof.
  unfold opens_tag. destruct (Nat.ltb_spec h (length tr)) as [Hlt|Hge].
  - rewrite nth_error_app1 by exact Hlt. reflexivity.
  - rewrite nth_error_app2 by exact Hge.
    destruct (Nat.eqb_spec h (length tr)) as [->|Hne].
    + rewrite Nat.sub_diag. reflexivity.
    + destruct (h - length tr)%nat as [|k] eqn:E; [lia|].
      cbn. destruct k; reflexivity.
Qed.

Lemma opens_beyond tr h :
  (length tr <= h)%nat -> opens_body tr h = false /\ opens_tag tr h = false.
Proof.
  intros Hh. unfold opens_body, opens_tag.
  rewrite (proj2 (nth_error_None tr h) Hh). split; reflexivity.
Qed.

(** An event that opens nothing keeps the state tidy. *)
Lemma tidy_emit n0 fr s c err :
  opening c = false \/ err <> None ->
  tidy n0 fr ->
  tidy n0 {| trace := trace fr ++ [Ev s c err]; defers := defers fr |}.
Proof.
  intros Hc [Hd Ht]. split; [exact Hd|]. cbn [trace defers]. intros h Hh.
  rewrite opens_body_snoc, opens_tag_snoc.
  destruct (Nat.ltb_spec h (length (trace fr))); [apply Ht, Hh|].
  destruct (Nat.eqb_spec h (length (trace fr))); [|split; discriminate].
  destruct Hc as [Hc|Hc].
  - destruct c; try discriminate Hc; split; discriminate.
  - destruct err as [err0|]; [|congruence]. destruct c; split; discriminate.
Qed.

(** A fetch that succeeds and the deferred closing of its body. *)
Lemma tidy_get_defer n0 fr s s' url :
  tidy n0 fr ->
  tidy n0 {| trace := trace fr ++ [Ev s (HttpGet url) None];
             defers := (s', BodyClose (length (trace fr))) :: defers fr |}.
Proof.
  intros [Hd Ht]. split; [constructor; [exact I | exact Hd]|].
  cbn [trace defers map snd]. intros h Hh.
  rewrite opens_body_snoc, opens_tag_snoc.
  destruct (Nat.ltb_spec h (length (trace fr))).
  - destruct (Ht h Hh) as [Hb Htag]. split; intros H'; right; auto.
  - destruct (Nat.eqb_spec h (length (trace fr))) as [->|]; [|split; discriminate].
    split; [intros _; left; reflexivity | discriminate].
Qed.

(** A tag that opens and its deferred closing. *)
Lemma tidy_tag_defer n0 fr s s' path :
  tidy n0 fr ->
  tidy n0 {| trace := trace fr ++ [Ev s (TagOpen path) None];
             defers := (s', TagClose (length (trace fr))) :: defers fr |}.
Proof.
  intros [Hd Ht]. split; [constructor; [exact I | exact Hd]|].
  cbn [trace defers map snd]. intros h Hh.
  rewrite opens_body_snoc, opens_tag_snoc.
  destruct (Nat.ltb_spec h (length (trace fr))).
  - destruct (Ht h Hh) as [Hb Htag]. split; intros H'; right; auto.
  - destruct (Nat.eqb_spec h (length (trace fr))) as [->|]; [|split; discriminate].
    split; [discriminate | intros _; left; reflexivity].
Qed.

Lemma frame_eta fr : {| trace := trace fr; defers := defers fr |} = fr.
Proof. destruct fr. reflexivity. Qed.

Lemma keeps_tidy_ret {A} (a : A) : keeps_tidy (ret a).
Proof. intros n0 fr H. exact H. Qed.

Lemma keeps_tidy_return {A} err : keeps_tidy (@return_ A err).
Proof. intros n0 fr H. exact H. Qed.

Lemma keeps_tidy_panic {A} msg : keeps_tidy (@panic A msg).
Proof. intros n0 fr H. exact H. Qed.

Lemma keeps_tidy_bind {A B} (m : M A) (k : A -> M B) :
  keeps_tidy m -> (forall a, keeps_tidy (k a)) -> keeps_tidy (bind m k).
Proof.
  intros Hm Hk n0 fr H. unfold bind. specialize (Hm n0 fr H).
  destruct (m fr) as [[a|e|p] fr1]; cbn [snd] in *; [apply Hk, Hm | exact Hm..].
Qed.

Lemma keeps_tidy_emit s c err :
  opening c = false \/ err <> None -> keeps_tidy (emit s c err).
Proof. intros Hc n0 fr H. apply tidy_emit; assumption. Qed.

Lemma keeps_tidy_check {A} (m : M (A + error)) on_err :
  keeps_tidy m -> keeps_tidy (check m on_err).
Proof.
  intros Hm. apply keeps_tidy_bind; [exact Hm|].
  intros [a|err]; [apply keeps_tidy_ret | apply keeps_tidy_return].
Qed.

Lemma keeps_tidy_check_err (m : M (option error)) on_err :
  keeps_tidy m -> keeps_tidy (check_err m on_err).
Proof.
  intros Hm. apply keeps_tidy_bind; [exact Hm|].
  intros [err|]; [apply keeps_tidy_return | apply keeps_tidy_ret].
Qed.

Lemma keeps_tidy_open_call s c answer :
  opening c = false -> keeps_tidy (open_call s c answer).
Proof. intros Hc n0 fr H. cbn. apply tidy_emit; [left; exact Hc | exact H]. Qed.

Lemma keeps_tidy_value_call {A} s c (answer : list event -> A + error) :
  opening c = false -> keeps_tidy (value_call s c answer).
Proof. intros Hc n0 fr H. cbn. apply tidy_emit; [left; exact Hc | exact H]. Qed.

Lemma keeps_tidy_error_call s c answer :
  opening c = false -> keeps_tidy (error_call s c answer).
Proof. intros Hc n0 fr H. cbn. apply tidy_emit; [left; exact Hc | exact H]. Qed.

Lemma keeps_tidy_plain_call s c : opening c = false -> keeps_tidy (plain_call s c).
Proof. intros Hc. apply keeps_tidy_emit. left. exact Hc. Qed.

Lemma keeps_tidy_for_range {A} (l : list A) body :
  (forall x, keeps_tidy (body x)) -> keeps_tidy (for_range l body).
Proof.
  intros H. induction l as [|x l IH]; cbn [for_range].
  - apply keeps_tidy_ret.
  - apply keeps_tidy_bind; [apply H | intros _; exact IH].
Qed.

(** [resp, err := http.Get(url); if err != nil { return ... };
    defer resp.Body.Close()]. *)
Lemma keeps_tidy_get_defer {B} s s' url answer on_err (k : handle -> M B) :
  (forall resp, keeps_tidy (k resp)) ->
  keeps_tidy (resp <- check (open_call s (HttpGet url) answer) on_err ;;
              defer s' (BodyClose resp) ;; k resp).
Proof.
  intros Hk n0 fr H.
  unfold check, open_call, bind, history, emit, defer, ret, return_.
  cbn [trace defers]. destruct (answer (trace fr)) as [err|] eqn:E; cbn [snd].
  - apply tidy_emit; [right; discriminate | exact H].
  - apply Hk. cbn [trace defers]. apply tidy_get_defer. exact H.
Qed.

(** [tag, err := id3v2.Open(path, ...); if err != nil { return ... };
    defer tag.Close()]. *)
Lemma keeps_tidy_tag_defer {B} s s' path answer on_err (k : handle -> M B) :
  (forall tag, keeps_tidy (k tag)) ->
  keeps_tidy (tag <- check (open_call s (TagOpen path) answer) on_err ;;
              defer s' (TagClose tag) ;; k tag).
Proof.
  intros Hk n0 fr H.
  unfold check, open_call, bind, history, emit, defer, ret, return_.
  cbn [trace defers]. destruct (answer (trace fr)) as [err|] eqn:E; cbn [snd].
  - apply tidy_emit; [right; discriminate | exact H].
  - apply Hk. cbn [trace defers]. apply tidy_tag_defer. exact H.
Qed.

Ltac tidy_auto :=
  repeat first
    [ apply keeps_tidy_ret | apply keeps_tidy_return | apply keeps_tidy_panic
    | apply keeps_tidy_get_defer; intros ?
    | apply keeps_tidy_tag_defer; intros ?
    | apply keeps_tidy_plain_call; reflexivity
    | apply keeps_tidy_check | apply keeps_tidy_check_err
    | apply keeps_tidy_open_call; reflexivity
    | apply keeps_tidy_value_call; reflexivity
    | apply keeps_tidy_error_call; reflexivity
    | apply keeps_tidy_for_range; intros ?
    | apply keeps_tidy_bind; [|intros ?]
    | match goal with
      | |- keeps_tidy (match ?x with _ => _ end) => destruct x
      end ].

Lemma keeps_tidy_track w tralbum albumPath artBytes track :
  keeps_tidy (downloadAlbum_track w tralbum albumPath artBytes track).
Proof. unfold downloadAlbum_track, print. tidy_auto. Qed.

Lemma keeps_tidy_notices w tralbum : keeps_tidy (downloadAlbum_notices w tralbum).
Proof. unfold downloadAlbum_notices, print. tidy_auto. Qed.

Lemma keeps_tidy_art w tralbum : keeps_tidy (downloadAlbum_art w tralbum).
Proof. unfold downloadAlbum_art. tidy_auto. Qed.

Lemma keeps_tidy_dir w albumPath : keeps_tidy (downloadAlbum_dir w albumPath).
Proof. unfold downloadAlbum_dir. tidy_auto. Qed.

Lemma keeps_tidy_cover w albumPath big : keeps_tidy (downloadAlbum_cover w albumPath big).
Proof. unfold downloadAlbum_cover. tidy_auto. Qed.

Lemma keeps_tidy_materialize w tralbum :
  keeps_tidy (downloadAlbum_materialize w tralbum).
Proof.
  unfold downloadAlbum_materialize. cbv zeta.
  apply keeps_tidy_bind; [apply keeps_tidy_notices|intros _].
  apply keeps_tidy_bind; [apply keeps_tidy_art|intros art].
  apply keeps_tidy_bind; [apply keeps_tidy_dir|intros _].
  apply keeps_tidy_bind; [apply keeps_tidy_cover|intros _].
  apply keeps_tidy_bind;
    [apply keeps_tidy_for_range; intros track; apply keeps_tidy_track|intros _].
  unfold print. tidy_auto.
Qed.

Lemma keeps_tidy_body w url : keeps_tidy (downloadAlbum_body w url).
Proof.
  unfold downloadAlbum_body.
  apply keeps_tidy_get_defer; intros resp.
  apply keeps_tidy_bind; [tidy_auto|intros doc].
  destruct (findElementsWithDataKey doc "data-tralbum") as [|el0 els];
    [apply keeps_tidy_return|].
  destruct (json_Unmarshal w _);
    [apply keeps_tidy_materialize | apply keeps_tidy_return | apply keeps_tidy_panic].
Qed.

(** At the return of a function that kept its state tidy, the bodies
    and the tags it opened are closed. *)
Lemma tidy_call_func body tr h :
  keeps_tidy body -> (length tr <= h)%nat ->
  let final := snd (call_func body tr) in
  (opens_body final h = true -> closes_body final h = true) /\
  (opens_tag final h = true -> closes_tag final h = true).
Proof.
  intros Hb Hh. unfold call_func.
  assert (H0 : tidy (length tr) {| trace := tr; defers := [] |}).
  { split; [constructor|]. intros h' Hh'. cbn [trace].
    destruct (opens_beyond tr h' Hh') as [-> ->]. split; discriminate. }
  specialize (Hb (length tr) _ H0).
  destruct (body _) as [r fr]. cbn [snd] in *. destruct Hb as [Hd Ht].
  assert (HcloseB : forall x, In (BodyClose x) (map snd (defers fr)) ->
            closes_body (trace fr ++ run_defers (defers fr)) x = true).
  { intros x Hx. apply in_map_iff in Hx as ([s c] & Hc & Hin). cbn [snd] in Hc.
    subst c. unfold closes_body. rewrite existsb_app. apply orb_true_iff. right.
    apply existsb_exists. exists (Ev s (BodyClose x) None).
    split; [|cbn; apply Nat.eqb_refl].
    unfold run_defers. apply in_map_iff. exists (s, BodyClose x). auto. }
  assert (HcloseT : forall x, In (TagClose x) (map snd (defers fr)) ->
            closes_tag (trace fr ++ run_defers (defers fr)) x = true).
  { intros x Hx. apply in_map_iff in Hx as ([s c] & Hc & Hin). cbn [snd] in Hc.
    subst c. unfold closes_tag. rewrite existsb_app. apply orb_true_iff. right.
    apply existsb_exists. exists (Ev s (TagClose x) None).
    split; [|cbn; apply Nat.eqb_refl].
    unfold run_defers. apply in_map_iff. exists (s, TagClose x). auto. }
  assert (Hopen : (length (trace fr) <= h)%nat ->
            opens_body (trace fr ++ run_defers (defers fr)) h = false /\
            opens_tag (trace fr ++ run_defers (defers fr)) h = false).
  { intros Hge. unfold opens_body, opens_tag.
    rewrite nth_error_app2 by exact Hge.
    destruct (nth_error (run_defers (defers fr)) (h - length (trace fr)))
      as [e|] eqn:E; [|split; reflexivity].
    apply nth_error_In in E. unfold run_defers in E. apply in_map_iff in E.
    destruct E as ([s c] & <- & Hin). cbn [fst snd].
    rewrite Forall_forall in Hd. specialize (Hd (s, c)).
    assert (Hc : closing (s, c)) by (apply Hd, list_elem_of_In, Hin).
    unfold closing in Hc. cbn [snd] in Hc.
    destruct c; try contradiction; split; reflexivity. }
  destruct (Nat.ltb_spec h (length (trace fr))) as [Hlt|Hge].
  - destruct (Ht h Hh) as [Hbody Htag].
    unfold opens_body, opens_tag. rewrite nth_error_app1 by exact Hlt.
    fold (opens_body (trace fr) h). fold (opens_tag (trace fr) h).
    split; intros Ho; [apply HcloseB, Hbody, Ho | apply HcloseT, Htag, Ho].
  - destruct (Hopen Hge) as [-> ->]. split; discriminate.
Qed.

(** Every response body and every tag [downloadAlbum] opens is closed
    when it returns or panics. *)
Lemma downloadAlbum_closes_bodies_and_tags w url tr h :
  (length tr <= h)%nat ->
  let final := snd (downloadAlbum w url tr) in
  (opens_body final h = true -> closes_body final h = true) /\
  (opens_tag final h = true -> closes_tag final h = true).
Proof. intros Hh. apply tidy_call_func; [apply keeps_tidy_body | exact Hh]. Qed.

(** ** Files are closed on the success path only *)

(** The cover block, when the file is created and the write fails: the
    error is returned at once, with the file neither closed nor
    registered to be. *)
Lemma downloadAlbum_cover_write_error w albumPath bytes fr err :
  let artPath := albumPath +:+ "/cover.jpg" in
  let f := length (trace fr) in
  os_Create w (trace fr) artPath = None ->
  file_Write w (trace fr ++ [Ev AtCover (Create artPath) None]) f bytes = Some err ->
  downloadAlbum_cover w albumPath (Some bytes) fr
  = (Fail (Errorf_w "could not write large album art file: " err),
     {| trace := trace fr ++ [Ev AtCover (Create artPath) None;
                              Ev AtCover (FileWrite f bytes) (Some err)];
        defers := defers fr |}).
Proof.
  intros artPath f Hcreate Hwrite.
  unfold downloadAlbum_cover, check, check_err, open_call, error_call, bind,
    history, emit, ret, return_.
  cbn [trace defers]. fold artPath. rewrite Hcreate. cbv beta iota.
  cbn [trace defers]. fold f. rewrite Hwrite. cbv beta iota.
  rewrite <- app_assoc. reflexivity.
Qed.

(** * Further properties *)

(** ** Attribute lookup *)

Lemma getDataValue_loop_absent attrs key :
  (forall a, In a attrs -> Key a <> key) -> getDataValue_loop attrs key = EmptyString.
Proof.
  induction attrs as [|a attrs IH]; intros H; [reflexivity|].
  cbn [getDataValue_loop].
  destruct (String.eqb_spec (Key a) key) as [E|_].
  - destruct (H a (or_introl eq_refl) E).
  - apply IH. intros b Hb. apply H. right. exact Hb.
Qed.

Lemma getDataValue_loop_first attrs key :
  (exists a, In a attrs /\ Key a = key) ->
  exists pre a post,
    attrs = pre ++ a :: post /\ Key a = key /\
    (forall b, In b pre -> Key b <> key) /\
    getDataValue_loop attrs key = Val a.
Proof.
  induction attrs as [|a attrs IH]; intros (x & Hx & Hk); [destruct Hx|].
  cbn [getDataValue_loop].
  destruct (String.eqb_spec (Key a) key) as [E|E].
  - exists [], a, attrs. repeat split; auto; intros b [].
  - destruct IH as (pre & b & post & -> & Hb & Hpre & Hv).
    { destruct Hx as [->|Hx]; [congruence|]. exists x. auto. }
    exists (a :: pre), b, post. repeat split; auto.
    intros c [<-|Hc]; auto.
Qed.

(** ** The sanitizer on bytes *)

Lemma bytes_app (a b : string) : bytes (a +:+ b) = bytes a ++ bytes b.
Proof.
  unfold bytes. induction a as [|c a IH]; [reflexivity|].
  rewrite app_String. cbn [list_ascii_of_string map app]. f_equal. exact IH.
Qed.

(** The bytes of the encoding of a rune: the rune itself when it is
    ASCII, bytes from 0x80 on otherwise. *)
Lemma bytes_string_of_rune r :
  Forall (fun b => (b = r /\ 0 <= r < 0x80) \/ 0x80 <= b) (bytes (string_of_rune r)).
Proof.
  unfold string_of_rune, bytes, MaxRune, surrogateMin, surrogateMax.
  destruct ((0 <=? r) && (r <? 128)) eqn:E1.
  { apply andb_true_iff in E1 as [H1 H2].
    apply Z.leb_le in H1. apply Z.ltb_lt in H2.
    cbn [list_ascii_of_string map]. rewrite byte_val_mk_byte by lia.
    apply List.Forall_cons; [left; lia | apply List.Forall_nil]. }
  destruct ((0 <=? r) && (r <? 2048)) eqn:E2.
  { apply andb_true_iff in E2 as [H1 H2].
    apply Z.leb_le in H1. apply Z.ltb_lt in H2.
    cbn [list_ascii_of_string map]. rewrite !byte_val_mk_byte by dlia.
    repeat (apply List.Forall_cons; [right; dlia|]). apply List.Forall_nil. }
  destruct ((r <? 0) || (1114111 <? r) || ((55296 <=? r) && (r <=? 57343))) eqn:E3.
  { cbn [list_ascii_of_string map]. rewrite !byte_val_mk_byte by lia.
    repeat (apply List.Forall_cons; [right; lia|]). apply List.Forall_nil. }
  apply orb_false_iff in E3 as [E3 E4]. apply orb_false_iff in E3 as [E3 E5].
  apply Z.ltb_ge in E3. apply Z.ltb_ge in E5.
  destruct (Z.ltb_spec r 65536).
  - cbn [list_ascii_of_string map]. rewrite !byte_val_mk_byte by dlia.
    repeat (apply List.Forall_cons; [right; dlia|]). apply List.Forall_nil.
  - cbn [list_ascii_of_string map]. rewrite !byte_val_mk_byte by dlia.
    repeat (apply List.Forall_cons; [right; dlia|]). apply List.Forall_nil.
Qed.

Lemma clean_rune_safe r : safe_byte (clean_rune r).
Proof.
  unfold safe_byte. rewrite clean_rune_cases.
  repeat match goal with
  | |- context [r =? ?k] =>
    destruct (Z.eqb_spec r k) as [?|?]; [unfold unsafe_runes; cbn; lia|]
  end.
  unfold unsafe_runes. cbn. lia.
Qed.

Lemma bytes_encode_clean rs :
  Forall safe_byte (bytes (encode_runes (map clean_rune rs))).
Proof.
  induction rs as [|r rs IH]; [constructor|].
  cbn [map encode_runes fold_right]. fold (encode_runes (map clean_rune rs)).
  rewrite bytes_app. apply Forall_app. split; [|exact IH].
  eapply Forall_impl; [apply bytes_string_of_rune|].
  cbv beta. intros b [[-> _]|Hb]; [apply clean_rune_safe|].
  unfold safe_byte, unsafe_runes. cbn. lia.
Qed.

(** On well-formed UTF-8, [cleanString] maps the text rune by rune. *)
Lemma cleanString_encode_runes rs :
  Forall valid_rune rs ->
  cleanString (encode_runes rs) = encode_runes (map clean_rune rs).
Proof.
  intros Hv. rewrite cleanString_encode, (runes_encode_runes rs Hv). reflexivity.
Qed.

Lemma map_clean_rune_safe rs :
  Forall safe_byte rs -> map clean_rune rs = rs.
Proof.
  induction 1 as [|r rs Hr _ IH]; [reflexivity|].
  cbn [map]. rewrite IH, (clean_rune_other r Hr). reflexivity.
Qed.

(** ** [clean_names] *)

Lemma clean_names_idem tralbum : clean_names (clean_names tralbum) = clean_names tralbum.
Proof.
  unfold clean_names. cbn [Artist Current_Title Current_ArtId ItemType
    FreeDownloadPage ReleaseDate Trackinfo].
  rewrite !cleanString_idem, map_map. f_equal.
  apply map_ext. intros track. unfold set_Title.
  cbn [Title TrackNum File_Url]. rewrite cleanString_idem. reflexivity.
Qed.

(** ** Quoted release dates *)

Lemma substring_prefix (s t : string) :
  substring 0 (String.length s) (s +:+ t) = s.
Proof.
  induction s as [|c s IH]; [destruct t; reflexivity|].
  rewrite app_String. cbn [String.length substring]. rewrite IH. reflexivity.
Qed.

Lemma UnmarshalJSON_quoted w s :
  UnmarshalJSON w (json_quoted s)
  = match time_Parse w layout s with
    | inr err => Fail err
    | inl parsed => Ok parsed
    end.
Proof.
  rewrite UnmarshalJSON_by_length. unfold json_quoted.
  cbn [String.length]. rewrite length_append. cbn [String.length].
  replace (2 <=? S (String.length s + 1))%nat with true
    by (symmetry; apply Nat.leb_le; lia).
  replace (S (String.length s + 1) - 2)%nat with (String.length s) by lia.
  cbn [substring]. rewrite substring_prefix. reflexivity.
Qed.

(** ** Formatting *)

Lemma bytes_string_of_uint d :
  Forall digit_or_minus (bytes (NilEmpty.string_of_uint d)).
Proof.
  induction d; cbn [NilEmpty.string_of_uint]; unfold bytes in *;
    cbn [list_ascii_of_string map];
    try apply List.Forall_nil;
    (apply List.Forall_cons; [left; vm_compute; split; discriminate | assumption]).
Qed.

Lemma bytes_fmt_d n : Forall digit_or_minus (bytes (fmt_d n)).
Proof.
  unfold fmt_d, NilZero.string_of_int.
  destruct (Z.to_int n) as [d|d].
  - unfold NilZero.string_of_uint. pose proof (bytes_string_of_uint d) as H.
    destruct d; try exact H.
    apply List.Forall_cons; [left; vm_compute; split; discriminate|apply List.Forall_nil].
  - change (String "-" ?s) with ("-" +:+ s). rewrite bytes_app.
    apply Forall_app. split.
    + apply List.Forall_cons; [right; reflexivity | apply List.Forall_nil].
    + unfold NilZero.string_of_uint. pose proof (bytes_string_of_uint d) as H.
      destruct d; try exact H.
      apply List.Forall_cons; [left; vm_compute; split; discriminate|apply List.Forall_nil].
Qed.

Lemma bytes_fmt_02d n : Forall digit_or_minus (bytes (fmt_02d n)).
Proof.
  unfold fmt_02d. destruct ((0 <=? n) && (n <? 10)); [|apply bytes_fmt_d].
  rewrite bytes_app. apply Forall_app. split; [|apply bytes_fmt_d].
  apply List.Forall_cons; [left; vm_compute; split; discriminate|apply List.Forall_nil].
Qed.

Lemma digit_or_minus_safe b : digit_or_minus b -> safe_byte b.
Proof. unfold digit_or_minus, safe_byte, unsafe_runes. cbn. lia. Qed.

Lemma bytes_cleanString_safe s : Forall safe_byte (bytes (cleanString s)).
Proof. rewrite cleanString_encode. apply bytes_encode_clean. Qed.

Ltac safe_literal :=
  unfold bytes; cbn [list_ascii_of_string map];
  repeat (apply List.Forall_cons;
          [unfold safe_byte, unsafe_runes; vm_compute; intuition discriminate|]);
  apply List.Forall_nil.

Lemma long_proper_name s : (3 <= String.length s)%nat -> proper_name s.
Proof.
  intros H. unfold proper_name.
  repeat split; intros ->; cbn in H; lia.
Qed.

(** With sanitized names, the album directory is the artist, a
    separator and the album with its year, and the file of a track
    comes after a second separator; none of the three pieces holds one
    of the eight characters, as long as the year does not, and the
    album and the file are names of their own. *)
Lemma clean_names_paths w tralbum track :
  Forall safe_byte (bytes (time_Local_Format_2006 w (ReleaseDate tralbum))) ->
  In track (Trackinfo (clean_names tralbum)) ->
  let artist := cleanString (Artist tralbum) in
  let album := cleanString (Current_Title tralbum) +:+ " ("
               +:+ time_Local_Format_2006 w (ReleaseDate tralbum) +:+ ")" in
  let name := fmt_02d (TrackNum track) +:+ " " +:+ Title track +:+ ".mp3" in
  albumPath_of w (clean_names tralbum) = artist +:+ "/" +:+ album /\
  trackPath_of (albumPath_of w (clean_names tralbum)) track
  = artist +:+ "/" +:+ album +:+ "/" +:+ name /\
  Forall safe_byte (bytes artist) /\
  Forall safe_byte (bytes album) /\
  Forall safe_byte (bytes name) /\
  proper_name album /\ proper_name name.
Proof.
  intros Hyear Htrack artist album name. subst artist album name.
  cbn [clean_names Trackinfo] in Htrack. apply in_map_iff in Htrack.
  destruct Htrack as (t0 & <- & _).
  cbn [set_Title Title TrackNum].
  split; [reflexivity|].
  split.
  { unfold trackPath_of, albumPath_of.
    cbn [clean_names set_Title Artist Current_Title ReleaseDate Title TrackNum].
    rewrite !app_assoc_s. reflexivity. }
  split; [apply bytes_cleanString_safe|].
  split.
  { rewrite !bytes_app. repeat (apply Forall_app; split);
      try apply bytes_cleanString_safe; try exact Hyear; safe_literal. }
  split.
  { rewrite !bytes_app. repeat (apply Forall_app; split);
      try apply bytes_cleanString_safe; try safe_literal.
    eapply Forall_impl; [apply bytes_fmt_02d|]. apply digit_or_minus_safe. }
  split; apply long_proper_name; rewrite !length_append; cbn [String.length]; lia.
Qed.

(** ** [downloadAlbum]: the page cannot be fetched or parsed *)

Lemma downloadAlbum_fetch_error w url tr err :
  http_Get w tr url = Some err ->
  downloadAlbum w url tr
  = (Returned (Some err), tr ++ [Ev AtPage (HttpGet url) (Some err)]).
Proof.
  intros Hget. unfold downloadAlbum, call_func, downloadAlbum_body, check,
    open_call, bind, history, emit, ret, return_.
  cbn [trace defers]. rewrite Hget. cbn. rewrite app_nil_r. reflexivity.
Qed.

Lemma downloadAlbum_parse_error w url tr err :
  http_Get w tr url = None ->
  html_Parse w (tr ++ [Ev AtPage (HttpGet url) None]) (length tr) = inr err ->
  downloadAlbum w url tr
  = (Returned (Some err),
     tr ++ [Ev AtPage (HttpGet url) None;
            Ev AtPage (HtmlParse (length tr)) (Some err);
            Ev AtPage (BodyClose (length tr)) None]).
Proof.
  intros Hget Hparse. unfold downloadAlbum, call_func, downloadAlbum_body, check,
    open_call, value_call, bind, history, emit, defer, ret, return_.
  cbn [trace defers]. rewrite Hget. cbv beta iota. cbn [trace defers].
  rewrite Hparse. cbn. rewrite <- !app_assoc. reflexivity.
Qed.

(** ** Files are closed when [downloadAlbum] returns nil *)

Lemma opens_file_snoc tr e h :
  opens_file (tr ++ [e]) h
  = if (h <? length tr)%nat then opens_file tr h
    else if (h =? length tr)%nat
         then match e with Ev _ (Create _) None => true | _ => false end
         else false.
Proof.
  unfold opens_file. destruct (Nat.ltb_spec h (length tr)) as [Hlt|Hge].
  - rewrite nth_error_app1 by exact Hlt. reflexivity.
  - rewrite nth_error_app2 by exact Hge.
    destruct (Nat.eqb_spec h (length tr)) as [->|Hne].
    + rewrite Nat.sub_diag. reflexivity.
    + destruct (h - length tr)%nat as [|k] eqn:E; [lia|].
      cbn. destruct k; reflexivity.
Qed.

Lemma closes_file_app tr evs h :
  closes_file (tr ++ evs) h = closes_file tr h || closes_file evs h.
Proof. unfold closes_file. apply existsb_app. Qed.

Lemma files_closed_emit n0 tr s c err :
  creates c = false \/ err <> None ->
  files_closed n0 tr -> files_closed n0 (tr ++ [Ev s c err]).
Proof.
  intros Hc H h Hh. rewrite opens_file_snoc, closes_file_app.
  destruct (Nat.ltb_spec h (length tr)).
  - intros Ho. rewrite (H h Hh Ho). reflexivity.
  - destruct (Nat.eqb_spec h (length tr)); [|discriminate].
    destruct Hc as [Hc|Hc].
    + destruct c; try discriminate Hc; discriminate.
    + destruct err as [err0|]; [|congruence]. destruct c; discriminate.
Qed.

(** A file that is created and closed later on. *)
Lemma files_closed_create_close n0 tr s path evs s' :
  files_closed n0 tr ->
  Forall (fun e => creates (ev_call e) = false) evs ->
  files_closed n0
    (tr ++ [Ev s (Create path) None] ++ evs ++ [Ev s' (FileClose (length tr)) None]).
Proof.
  intros H Hevs h Hh Ho. rewrite closes_file_app.
  unfold opens_file in Ho.
  destruct (Nat.ltb_spec h (length tr)) as [Hlt|Hge].
  - rewrite nth_error_app1 in Ho by exact Hlt.
    fold (opens_file tr h) in Ho. rewrite (H h Hh Ho). reflexivity.
  - rewrite nth_error_app2 in Ho by exact Hge.
    destruct (Nat.eqb_spec h (length tr)) as [->|Hne].
    + apply orb_true_iff. right. unfold closes_file.
      rewrite !existsb_app. cbn. rewrite Nat.eqb_refl.
      rewrite !orb_true_r. reflexivity.
    + exfalso. destruct (h - length tr)%nat as [|k] eqn:E; [lia|].
      cbn [app nth_error] in Ho.
      destruct (nth_error (evs ++ [Ev s' (FileClose (length tr)) None]) k)
        as [e|] eqn:En; [|discriminate].
      apply nth_error_In in En. apply in_app_or in En as [Hin|[<-|[]]].
      * rewrite Forall_forall in Hevs.
        specialize (Hevs e (proj2 (list_elem_of_In _ _) Hin)).
        destruct e as [s0 c0 [err0|]]; cbn in Hevs; destruct c0; discriminate.
      * discriminate.
Qed.

Lemma keeps_files_ret {A} (a : A) : keeps_files (ret a).
Proof. intros n0 fr a' fr' H E. injection E as _ <-. exact H. Qed.

Lemma keeps_files_return {A} err : keeps_files (@return_ A err).
Proof. intros n0 fr a' fr' H E. discriminate E. Qed.

Lemma keeps_files_panic {A} msg : keeps_files (@panic A msg).
Proof. intros n0 fr a' fr' H E. discriminate E. Qed.

Lemma keeps_files_bind {A B} (m : M A) (k : A -> M B) :
  keeps_files m -> (forall a, keeps_files (k a)) -> keeps_files (bind m k).
Proof.
  intros Hm Hk n0 fr b fr' H E. unfold bind in E.
  destruct (m fr) as [[a|e|p] fr1] eqn:Em; try discriminate E.
  exact (Hk a n0 fr1 b fr' (Hm n0 fr a fr1 H Em) E).
Qed.

Lemma keeps_files_emit s c err :
  creates c = false \/ err <> None -> keeps_files (emit s c err).
Proof.
  intros Hc n0 fr a fr' H E. injection E as _ <-. cbn [trace].
  apply files_closed_emit; assumption.
Qed.

Lemma keeps_files_defer s c : keeps_files (defer s c).
Proof. intros n0 fr a fr' H E. injection E as _ <-. exact H. Qed.

Lemma keeps_files_check {A} (m : M (A + error)) on_err :
  keeps_files m -> keeps_files (check m on_err).
Proof.
  intros Hm. apply keeps_files_bind; [exact Hm|].
  intros [a|err]; [apply keeps_files_ret | apply keeps_files_return].
Qed.

Lemma keeps_files_check_err (m : M (option error)) on_err :
  keeps_files m -> keeps_files (check_err m on_err).
Proof.
  intros Hm. apply keeps_files_bind; [exact Hm|].
  intros [err|]; [apply keeps_files_return | apply keeps_files_ret].
Qed.

Lemma keeps_files_open_call s c answer :
  creates c = false -> keeps_files (open_call s c answer).
Proof.
  intros Hc n0 fr a fr' H E. injection E as _ <-. cbn [trace].
  apply files_closed_emit; [left; exact Hc | exact H].
Qed.

Lemma keeps_files_value_call {A} s c (answer : list event -> A + error) :
  creates c = false -> keeps_files (value_call s c answer).
Proof.
  intros Hc n0 fr a fr' H E. injection E as _ <-. cbn [trace].
  apply files_closed_emit; [left; exact Hc | exact H].
Qed.

Lemma keeps_files_error_call s c answer :
  creates c = false -> keeps_files (error_call s c answer).
Proof.
  intros Hc n0 fr a fr' H E. injection E as _ <-. cbn [trace].
  apply files_closed_emit; [left; exact Hc | exact H].
Qed.

Lemma keeps_files_plain_call s c : creates c = false -> keeps_files (plain_call s c).
Proof. intros Hc. apply keeps_files_emit. left. exact Hc. Qed.

Lemma keeps_files_for_range {A} (l : list A) body :
  (forall x, keeps_files (body x)) -> keeps_files (for_range l body).
Proof.
  intros H. induction l as [|x l IH]; cbn [for_range].
  - apply keeps_files_ret.
  - apply keeps_files_bind; [apply H | intros _; exact IH].
Qed.

(** [f, err := os.Create(path)], one call on [f] that creates nothing,
    and [f.Close()]. *)
Lemma keeps_files_create_close {B} s path answer on_err
  s1 (c1 : handle -> call) (answer1 : handle -> list event -> option error)
  on_err1 s2 (k : handle -> M B) :
  (forall f, creates (c1 f) = false) ->
  (forall f, keeps_files (k f)) ->
  keeps_files (f <- check (open_call s (Create path) answer) on_err ;;
               check_err (error_call s1 (c1 f) (answer1 f)) on_err1 ;;
               plain_call s2 (FileClose f) ;;
               k f).
Proof.
  intros Hc1 Hk n0 fr b fr' H.
  unfold check, check_err, open_call, error_call, plain_call, bind, history,
    emit, ret, return_.
  cbn [trace defers]. destruct (answer (trace fr)) as [err|]; [discriminate|].
  cbv beta iota. cbn [trace defers].
  destruct (answer1 _ _) as [err|] eqn:E1; [discriminate|].
  cbv beta iota. cbn [trace defers]. intros E.
  refine (Hk _ n0 _ b fr' _ E). cbn [trace]. rewrite <- !app_assoc.
  change (files_closed n0
    (trace fr ++ [Ev s (Create path) None]
       ++ [Ev s1 (c1 (length (trace fr))) None]
       ++ [Ev s2 (FileClose (length (trace fr))) None])).
  apply files_closed_create_close; [exact H|].
  apply List.Forall_cons; [apply Hc1 | apply List.Forall_nil].
Qed.

Ltac files_auto :=
  repeat first
    [ apply keeps_files_ret | apply keeps_files_return | apply keeps_files_panic
    | apply keeps_files_create_close; [intros ?; reflexivity | intros ?]
    | apply keeps_files_plain_call; reflexivity
    | apply keeps_files_defer
    | apply keeps_files_check | apply keeps_files_check_err
    | apply keeps_files_open_call; reflexivity
    | apply keeps_files_value_call; reflexivity
    | apply keeps_files_error_call; reflexivity
    | apply keeps_files_bind; [|intros ?]
    | match goal with
      | |- keeps_files (match ?x with _ => _ end) => destruct x
      end ].

Lemma keeps_files_track w tralbum albumPath artBytes track :
  keeps_files (downloadAlbum_track w tralbum albumPath artBytes track).
Proof. unfold downloadAlbum_track, print. files_auto. Qed.

Lemma keeps_files_notices w tralbum : keeps_files (downloadAlbum_notices w tralbum).
Proof. unfold downloadAlbum_notices, print. files_auto. Qed.

Lemma keeps_files_art w tralbum : keeps_files (downloadAlbum_art w tralbum).
Proof. unfold downloadAlbum_art. files_auto. Qed.

Lemma keeps_files_dir w albumPath : keeps_files (downloadAlbum_dir w albumPath).
Proof. unfold downloadAlbum_dir. files_auto. Qed.

Lemma keeps_files_cover w albumPath big : keeps_files (downloadAlbum_cover w albumPath big).
Proof.
  destruct big as [data|]; [|apply keeps_files_ret].
  intros n0 fr a fr' H.
  unfold downloadAlbum_cover, check, check_err, open_call, error_call, plain_call,
    bind, history, emit, ret, return_.
  cbn [trace defers]. destruct (os_Create w _ _) as [err|]; [discriminate|].
  cbv beta iota. cbn [trace defers].
  destruct (file_Write w _ _ _) as [err|]; [discriminate|].
  cbv beta iota. cbn [trace defers]. intros E. injection E as _ <-.
  cbn [trace]. rewrite <- !app_assoc.
  apply (files_closed_create_close n0 (trace fr) AtCover _
           [Ev AtCover (FileWrite (length (trace fr)) data) None] AtCover H).
  apply List.Forall_cons; [reflexivity | apply List.Forall_nil].
Qed.

Lemma keeps_files_materialize w tralbum :
  keeps_files (downloadAlbum_materialize w tralbum).
Proof.
  unfold downloadAlbum_materialize. cbv zeta.
  apply keeps_files_bind; [apply keeps_files_notices|intros _].
  apply keeps_files_bind; [apply keeps_files_art|intros art].
  apply keeps_files_bind; [apply keeps_files_dir|intros _].
  apply keeps_files_bind; [apply keeps_files_cover|intros _].
  apply keeps_files_bind;
    [apply keeps_files_for_range; intros track; apply keeps_files_track|intros _].
  unfold print. files_auto.
Qed.

Lemma keeps_files_body w url : keeps_files (downloadAlbum_body w url).
Proof.
  unfold downloadAlbum_body.
  apply keeps_files_bind; [files_auto|intros resp].
  apply keeps_files_bind; [apply keeps_files_defer|intros _].
  apply keeps_files_bind; [files_auto|intros doc].
  destruct (findElementsWithDataKey doc "data-tralbum") as [|el0 els];
    [apply keeps_files_return|].
  destruct (json_Unmarshal w _);
    [apply keeps_files_materialize | apply keeps_files_return | apply keeps_files_panic].
Qed.

Lemma files_closed_beyond tr : files_closed (length tr) tr.
Proof.
  intros h Hh. unfold opens_file.
  rewrite (proj2 (nth_error_None tr h) Hh). discriminate.
Qed.

(** When a function whose body keeps its files and its deferred calls
    in order returns nil, every file it opened is closed. *)
Lemma files_closed_call_func body tr :
  keeps_files body -> keeps_tidy body ->
  fst (call_func body tr) = Returned None ->
  files_closed (length tr) (snd (call_func body tr)).
Proof.
  intros Hf Ht. unfold call_func.
  assert (H0 : tidy (length tr) {| trace := tr; defers := [] |}).
  { split; [constructor|]. intros h' Hh'. cbn [trace].
    destruct (opens_beyond tr h' Hh') as [-> ->]. split; discriminate. }
  specialize (Ht (length tr) _ H0).
  specialize (Hf (length tr) {| trace := tr; defers := [] |}).
  destruct (body _) as [r fr]. cbn [fst snd] in *.
  intros Hr. destruct r as [[e|]|e|msg]; try discriminate Hr.
  specialize (Hf None fr (files_closed_beyond tr) eq_refl).
  destruct Ht as [Hd _]. intros h Hh Ho. rewrite closes_file_app.
  unfold opens_file in Ho.
  destruct (Nat.ltb_spec h (length (trace fr))) as [Hlt|Hge].
  - rewrite nth_error_app1 in Ho by exact Hlt. fold (opens_file (trace fr) h) in Ho.
    rewrite (Hf h Hh Ho). reflexivity.
  - exfalso. rewrite nth_error_app2 in Ho by exact Hge.
    destruct (nth_error (run_defers (defers fr)) (h - length (trace fr)))
      as [e|] eqn:E; [|discriminate].
    apply nth_error_In in E. unfold run_defers in E. apply in_map_iff in E.
    destruct E as ([s c] & <- & Hin). cbn [fst snd] in Ho.
    rewrite Forall_forall in Hd. specialize (Hd (s, c)).
    assert (Hc : closing (s, c)) by (apply Hd, list_elem_of_In, Hin).
    unfold closing in Hc. cbn [snd] in Hc.
    destruct c; try contradiction; discriminate.
Qed.

(** ** [downloadAlbums]: the address of an item *)

Lemma downloadAlbums_href_getDataValue attrs :
  downloadAlbums_href attrs EmptyString = getDataValue_loop attrs "href".
Proof.
  induction attrs as [|a attrs IH]; [reflexivity|].
  cbn [downloadAlbums_href getDataValue_loop].
  destruct (String.eqb (Key a) "href"); [reflexivity | exact IH].
Qed.

Lemma downloadAlbums_anchor_first children :
  downloadAlbums_anchor children EmptyString
  = hd EmptyString
       (List.filter nonempty
          (map (fun c => getDataValue c "href") (List.filter is_anchor children))).
Proof.
  induction children as [|c children IH]; [reflexivity|].
  cbn [downloadAlbums_anchor List.filter]. unfold is_anchor at 1.
  destruct (is_TextNode (Type_ c)); cbn [negb andb orb]; [exact IH|].
  destruct (String.eqb (Data c) "a"); cbn [negb orb]; [|exact IH].
  cbn [map List.filter]. rewrite downloadAlbums_href_getDataValue.
  fold (getDataValue c "href"). unfold nonempty at 1.
  destruct (String.eqb_spec (getDataValue c "href") "") as [E|E]; cbn [negb];
    [rewrite E; exact IH | reflexivity].
Qed.

(** ** [downloadAlbums]: the storefront cannot be fetched or parsed *)

Lemma downloadAlbums_fetch_error w url tr err :
  http_Get w tr (url_String w url) = Some err ->
  downloadAlbums w url tr
  = (Returned (Some err),
     tr ++ [Ev AtStorefront (HttpGet (url_String w url)) (Some err)]).
Proof.
  intros Hget. unfold downloadAlbums, call_func, downloadAlbums_body, check,
    open_call, bind, history, emit, ret, return_.
  cbn [trace defers]. rewrite Hget. cbn. rewrite app_nil_r. reflexivity.
Qed.

Lemma downloadAlbums_parse_error w url tr err :
  http_Get w tr (url_String w url) = None ->
  html_Parse w (tr ++ [Ev AtStorefront (HttpGet (url_String w url)) None])
             (length tr) = inr err ->
  downloadAlbums w url tr
  = (Returned (Some err),
     tr ++ [Ev AtStorefront (HttpGet (url_String w url)) None;
            Ev AtStorefront (HtmlParse (length tr)) (Some err);
            Ev AtStorefront (BodyClose (length tr)) None]).
Proof.
  intros Hget Hparse. unfold downloadAlbums, call_func, downloadAlbums_body, check,
    open_call, value_call, bind, history, emit, defer, ret, return_.
  cbn [trace defers]. rewrite Hget. cbv beta iota. cbn [trace defers].
  rewrite Hparse. cbn. rewrite <- !app_assoc. reflexivity.
Qed.

Lemma album_urls_none w url els :
  Forall (fun el => HasPrefix (Path (item_url url el)) "/album" = false) els ->
  album_urls w url els = [].
Proof.
  induction 1 as [|el els Hel _ IH]; [reflexivity|].
  unfold album_urls in *. cbn [flat_map]. rewrite Hel, IH. reflexivity.
Qed.

Lemma downloadAlbums_no_album w url tr doc :
  storefront_loads w url tr doc ->
  Forall (fun el => HasPrefix (Path (item_url url el)) "/album" = false)
         (findElementsWithDataKey doc "data-item-id") ->
  downloadAlbums w url tr
  = (Returned None,
     tr ++ [Ev AtStorefront (HttpGet (url_String w url)) None;
            Ev AtStorefront (HtmlParse (length tr)) None;
            Ev AtStorefront (BodyClose (length tr)) None]).
Proof.
  intros Hl Hnone. rewrite (downloadAlbums_each w url tr doc Hl).
  rewrite (album_urls_none w url _ Hnone). cbn. rewrite <- app_assoc. reflexivity.
Qed.

(** ** Bodies and tags over a whole run *)

Lemma closes_body_app tr evs h :
  closes_body (tr ++ evs) h = closes_body tr h || closes_body evs h.
Proof. unfold closes_body. apply existsb_app. Qed.

Lemma closes_tag_app tr evs h :
  closes_tag (tr ++ evs) h = closes_tag tr h || closes_tag evs h.
Proof. unfold closes_tag. apply existsb_app. Qed.

Lemma opens_app_old tr evs h :
  (h < length tr)%nat ->
  opens_body (tr ++ evs) h = opens_body tr h /\
  opens_tag (tr ++ evs) h = opens_tag tr h.
Proof.
  intros Hlt. unfold opens_body, opens_tag.
  rewrite nth_error_app1 by exact Hlt. split; reflexivity.
Qed.

Lemma settled_emit n0 fr s c err :
  opening c = false \/ err <> None ->
  settled n0 fr ->
  settled n0 {| trace := trace fr ++ [Ev s c err]; defers := defers fr |}.
Proof.
  intros Hc [Hd Ht]. split; [exact Hd|]. cbn [trace defers]. intros h Hh.
  rewrite closes_body_app, closes_tag_app.
  destruct (Nat.ltb_spec h (length (trace fr))) as [Hlt|Hge].
  - destruct (opens_app_old (trace fr) [Ev s c err] h Hlt) as [-> ->].
    destruct (Ht h Hh) as [Hb Htag].
    split; intros Ho; [destruct (Hb Ho) as [? | ->] | destruct (Htag Ho) as [? | ->]];
      auto.
  - rewrite opens_body_snoc, opens_tag_snoc.
    rewrite (proj2 (Nat.ltb_ge _ _) Hge).
    destruct (Nat.eqb_spec h (length (trace fr))); [|split; discriminate].
    destruct Hc as [Hc|Hc].
    + destruct c; try discriminate Hc; split; discriminate.
    + destruct err as [err0|]; [|congruence]. destruct c; split; discriminate.
Qed.

Lemma settled_get_defer n0 fr s s' url :
  settled n0 fr ->
  settled n0 {| trace := trace fr ++ [Ev s (HttpGet url) None];
                defers := (s', BodyClose (length (trace fr))) :: defers fr |}.
Proof.
  intros [Hd Ht]. split; [constructor; [exact I | exact Hd]|].
  cbn [trace defers map snd]. intros h Hh.
  rewrite closes_body_app, closes_tag_app.
  destruct (Nat.ltb_spec h (length (trace fr))) as [Hlt|Hge].
  - destruct (opens_app_old (trace fr) [Ev s (HttpGet url) None] h Hlt) as [-> ->].
    destruct (Ht h Hh) as [Hb Htag].
    split; intros Ho; [destruct (Hb Ho) as [? | ->] | destruct (Htag Ho) as [? | ->]];
      solve [left; right; assumption | right; reflexivity].
  - rewrite opens_body_snoc, opens_tag_snoc.
    rewrite (proj2 (Nat.ltb_ge _ _) Hge).
    destruct (Nat.eqb_spec h (length (trace fr))) as [-> | ]; [|split; discriminate].
    split; [intros _; left; left; reflexivity | discriminate].
Qed.

Lemma keeps_settled_ret {A} (a : A) : keeps_settled (ret a).
Proof. intros n0 fr H. exact H. Qed.

Lemma keeps_settled_bind {A B} (m : M A) (k : A -> M B) :
  keeps_settled m -> (forall a, keeps_settled (k a)) -> keeps_settled (bind m k).
Proof.
  intros Hm Hk n0 fr H. unfold bind. specialize (Hm n0 fr H).
  destruct (m fr) as [[a|e|p] fr1]; cbn [snd] in *; [apply Hk, Hm | exact Hm..].
Qed.

Lemma keeps_settled_print s text : keeps_settled (print s text).
Proof. intros n0 fr H. cbn. apply settled_emit; [left; reflexivity | exact H]. Qed.

Lemma keeps_settled_for_range {A} (l : list A) body :
  (forall x, keeps_settled (body x)) -> keeps_settled (for_range l body).
Proof.
  intros H. induction l as [|x l IH]; cbn [for_range].
  - apply keeps_settled_ret.
  - apply keeps_settled_bind; [apply H | intros _; exact IH].
Qed.

(** A call of a balanced function keeps the caller's state settled. *)
Lemma keeps_settled_invoke f : balanced f -> keeps_settled (invoke f).
Proof.
  intros Hf n0 fr [Hd Ht]. unfold invoke.
  destruct (Hf (trace fr)) as [[evs Hevs] Hclosed].
  destruct (f (trace fr)) as [o tr']. cbn [snd] in *. subst tr'.
  assert (Hs : settled n0 {| trace := trace fr ++ evs; defers := defers fr |}).
  { split; [exact Hd|]. cbn [trace defers]. intros h Hh.
    destruct (Nat.ltb_spec h (length (trace fr))) as [Hlt|Hge].
    - destruct (opens_app_old (trace fr) evs h Hlt) as [-> ->].
      rewrite closes_body_app, closes_tag_app. destruct (Ht h Hh) as [Hb Htag].
      split; intros Ho; [destruct (Hb Ho) as [? | ->] | destruct (Htag Ho) as [? | ->]];
        auto.
    - destruct (Hclosed h Hge) as [Hb Htag]. split; intros Ho; right; auto. }
  destruct o; exact Hs.
Qed.

Lemma keeps_settled_report f : balanced f -> keeps_settled (report f).
Proof.
  intros Hf. unfold report. apply keeps_settled_bind; [apply keeps_settled_invoke, Hf|].
  intros [err|]; [apply keeps_settled_print | apply keeps_settled_ret].
Qed.

(** At the return of a function that kept its state settled, the
    bodies and the tags opened since the call are closed. *)
Lemma settled_call_func body tr h :
  keeps_settled body -> (length tr <= h)%nat ->
  let final := snd (call_func body tr) in
  (opens_body final h = true -> closes_body final h = true) /\
  (opens_tag final h = true -> closes_tag final h = true).
Proof.
  intros Hb Hh. unfold call_func.
  assert (H0 : settled (length tr) {| trace := tr; defers := [] |}).
  { split; [constructor|]. intros h' Hh'. cbn [trace].
    destruct (opens_beyond tr h' Hh') as [-> ->]. split; discriminate. }
  specialize (Hb (length tr) _ H0).
  destruct (body _) as [r fr]. cbn [snd] in *. destruct Hb as [Hd Ht].
  rewrite closes_body_app, closes_tag_app.
  assert (HcloseB : forall x, In (BodyClose x) (map snd (defers fr)) ->
            closes_body (run_defers (defers fr)) x = true).
  { intros x Hx. apply in_map_iff in Hx as ([s c] & Hc & Hin). cbn [snd] in Hc.
    subst c. apply existsb_exists. exists (Ev s (BodyClose x) None).
    split; [|cbn; apply Nat.eqb_refl].
    unfold run_defers. apply in_map_iff. exists (s, BodyClose x). auto. }
  assert (HcloseT : forall x, In (TagClose x) (map snd (defers fr)) ->
            closes_tag (run_defers (defers fr)) x = true).
  { intros x Hx. apply in_map_iff in Hx as ([s c] & Hc & Hin). cbn [snd] in Hc.
    subst c. apply existsb_exists. exists (Ev s (TagClose x) None).
    split; [|cbn; apply Nat.eqb_refl].
    unfold run_defers. apply in_map_iff. exists (s, TagClose x). auto. }
  destruct (Nat.ltb_spec h (length (trace fr))) as [Hlt|Hge].
  - destruct (opens_app_old (trace fr) (run_defers (defers fr)) h Hlt) as [-> ->].
    destruct (Ht h Hh) as [Hbody Htag]. split; intros Ho.
    + destruct (Hbody Ho) as [Hin | ->]; [|reflexivity].
      rewrite (HcloseB h Hin). apply orb_true_r.
    + destruct (Htag Ho) as [Hin | ->]; [|reflexivity].
      rewrite (HcloseT h Hin). apply orb_true_r.
  - unfold opens_body, opens_tag. rewrite nth_error_app2 by exact Hge.
    destruct (nth_error (run_defers (defers fr)) (h - length (trace fr)))
      as [e|] eqn:E; [|split; discriminate].
    apply nth_error_In in E. unfold run_defers in E. apply in_map_iff in E.
    destruct E as ([s c] & <- & Hin). cbn [fst snd].
    rewrite Forall_forall in Hd. specialize (Hd (s, c)).
    assert (Hc : closing (s, c)) by (apply Hd, list_elem_of_In, Hin).
    unfold closing in Hc. cbn [snd] in Hc.
    destruct c; try contradiction; split; discriminate.
Qed.

(** ** Every function only extends the trace *)

Lemma grows_invoke phi psi f :
  (forall tr, exists evs, snd (f tr) = tr ++ evs /\ Forall phi evs) ->
  grows phi psi (invoke f).
Proof.
  intros Hf fr. unfold invoke. destruct (Hf (trace fr)) as (evs & Hevs & Hphi).
  destruct (f (trace fr)) as [o tr']. cbn [snd] in Hevs. subst tr'.
  exists evs, []. destruct o; cbn [snd trace defers]; auto.
Qed.

Lemma downloadAlbum_body_extends w url :
  grows (fun _ => True) (fun _ => True) (downloadAlbum_body w url).
Proof.
  unfold downloadAlbum_body, downloadAlbum_materialize, downloadAlbum_notices,
    downloadAlbum_art, downloadAlbum_dir, downloadAlbum_cover.
  grows_auto; unfold downloadAlbum_track; grows_auto.
Qed.

Lemma downloadAlbum_extends w url tr :
  exists evs, snd (downloadAlbum w url tr) = tr ++ evs /\ Forall (fun _ => True) evs.
Proof.
  apply (grows_call_func _ (fun _ => True));
    [apply downloadAlbum_body_extends | intros; exact I].
Qed.

Lemma downloadAlbums_loop_extends w els url err :
  grows (fun _ => True) (fun _ => True) (downloadAlbums_loop w els url err).
Proof.
  revert url err. induction els as [|el rest IH]; intros url err;
    cbn [downloadAlbums_loop]; [apply grows_ret|].
  cbv zeta. destruct (HasPrefix _ _); [|apply IH].
  apply grows_bind; [apply grows_invoke, downloadAlbum_extends|].
  intros [err2|]; apply IH.
Qed.

Lemma downloadAlbums_extends w url tr :
  exists evs, snd (downloadAlbums w url tr) = tr ++ evs /\ Forall (fun _ => True) evs.
Proof.
  apply (grows_call_func _ (fun _ => True)); [|intros; exact I].
  unfold downloadAlbums_body.
  apply grows_bind; [grows_auto|intros resp].
  apply grows_bind; [grows_auto|intros _].
  apply grows_bind; [grows_auto|intros doc].
  apply downloadAlbums_loop_extends.
Qed.

Lemma downloadAlbum_balanced w url : balanced (downloadAlbum w url).
Proof.
  intros tr. split.
  - destruct (downloadAlbum_extends w url tr) as (evs & H & _). eauto.
  - intros h Hh. apply downloadAlbum_closes_bodies_and_tags, Hh.
Qed.

Lemma keeps_settled_loop w els url err :
  keeps_settled (downloadAlbums_loop w els url err).
Proof.
  revert url err. induction els as [|el rest IH]; intros url err;
    cbn [downloadAlbums_loop]; [apply keeps_settled_ret|].
  cbv zeta. destruct (HasPrefix _ _); [|apply IH].
  apply keeps_settled_bind; [apply keeps_settled_invoke, downloadAlbum_balanced|].
  intros [err2|]; apply IH.
Qed.

Lemma keeps_settled_parse {B} w s resp (k : Node -> M B) :
  (forall doc, keeps_settled (k doc)) ->
  keeps_settled
    (doc <- check (value_call s (HtmlParse resp) (fun tr => html_Parse w tr resp))
                  (fun err => err) ;;
     k doc).
Proof.
  intros Hk. apply keeps_settled_bind; [|exact Hk].
  intros n0 fr H. unfold check, value_call, bind, history, emit.
  cbn [fst snd trace defers].
  destruct (html_Parse w (trace fr) _) as [doc|err]; cbn;
    apply settled_emit; solve [left; reflexivity | exact H].
Qed.

Lemma keeps_settled_storefront w url : keeps_settled (downloadAlbums_body w url).
Proof.
  unfold downloadAlbums_body. intros n0 fr H.
  unfold bind at 1. unfold check at 1. unfold bind at 1.
  unfold open_call, bind, history, emit. cbn [fst snd trace defers].
  destruct (http_Get w (trace fr) (url_String w url)) as [err|] eqn:E.
  - cbn. apply settled_emit; [right; discriminate | exact H].
  - cbn [ret return_ defer].
    apply (keeps_settled_parse w AtStorefront (length (trace fr))
             (fun doc => downloadAlbums_loop w
                           (findElementsWithDataKey doc "data-item-id") url None)
             (fun doc => keeps_settled_loop w _ url None) n0 _
             (settled_get_defer n0 fr AtStorefront AtStorefront
                (url_String w url) H)).
Qed.

Lemma downloadAlbums_balanced w url : balanced (downloadAlbums w url).
Proof.
  intros tr. split.
  - destruct (downloadAlbums_extends w url tr) as (evs & H & _). eauto.
  - intros h Hh. apply settled_call_func; [apply keeps_settled_storefront | exact Hh].
Qed.

Lemma keeps_settled_main_url w u : keeps_settled (main_url w u).
Proof.
  unfold main_url. destruct (url_Parse w u) as [parsed|err];
    [|apply keeps_settled_print].
  cbv zeta.
  repeat match goal with
         | |- keeps_settled (if ?b then _ else _) => destruct b
         end;
    solve [ apply keeps_settled_report, downloadAlbums_balanced
          | apply keeps_settled_report, downloadAlbum_balanced
          | apply keeps_settled_print ].
Qed.

Lemma keeps_settled_main w args : keeps_settled (main w args).
Proof.
  unfold main. destruct (_ <? _)%nat; [apply keeps_settled_print|].
  apply keeps_settled_bind; [|intros _; apply keeps_settled_print].
  apply keeps_settled_for_range. intros u. apply keeps_settled_main_url.
Qed.

(** ** [main] never ends on an error *)

Lemma never_fails_ret {A} (a : A) : never_fails (ret a).
Proof. intros fr. exact I. Qed.

Lemma never_fails_print s text : never_fails (print s text).
Proof. intros fr. exact I. Qed.

Lemma never_fails_bind {A B} (m : M A) (k : A -> M B) :
  never_fails m -> (forall a, never_fails (k a)) -> never_fails (bind m k).
Proof.
  intros Hm Hk fr. unfold bind. specialize (Hm fr).
  destruct (m fr) as [[a|e|p] fr1]; cbn [fst] in *; [apply Hk | exact Hm | exact I].
Qed.

Lemma never_fails_invoke f : never_fails (invoke f).
Proof. intros fr. unfold invoke. destruct (f (trace fr)) as [[err|msg] tr']; exact I. Qed.

Lemma never_fails_report f : never_fails (report f).
Proof.
  unfold report. apply never_fails_bind; [apply never_fails_invoke|].
  intros [err|]; [apply never_fails_print | apply never_fails_ret].
Qed.

Lemma never_fails_for_range {A} (l : list A) body :
  (forall x, never_fails (body x)) -> never_fails (for_range l body).
Proof.
  intros H. induction l as [|x l IH]; cbn [for_range].
  - apply never_fails_ret.
  - apply never_fails_bind; [apply H | intros _; exact IH].
Qed.

Lemma never_fails_main_url w u : never_fails (main_url w u).
Proof.
  unfold main_url. destruct (url_Parse w u) as [parsed|err];
    [|apply never_fails_print].
  cbv zeta.
  repeat match goal with
         | |- never_fails (if ?b then _ else _) => destruct b
         end;
    solve [ apply never_fails_report | apply never_fails_print ].
Qed.

Lemma never_fails_main w args : never_fails (main w args).
Proof.
  unfold main. destruct (_ <? _)%nat; [apply never_fails_print|].
  apply never_fails_bind; [|intros _; apply never_fails_print].
  apply never_fails_for_range. intros u. apply never_fails_main_url.
Qed.

(** ** The first revision *)

Lemma Initial_materialize_eq w tralbum :
  safeNames w = false ->
  Initial.downloadAlbum_materialize w tralbum = downloadAlbum_materialize w tralbum.
Proof.
  intros Hsafe. unfold Initial.downloadAlbum_materialize, downloadAlbum_materialize.
  rewrite Hsafe. reflexivity.
Qed.

Lemma Initial_body_loaded w url tr doc (k : Node -> M (option error)) :
  loads w url tr doc ->
  (resp <- Initial.check_or_panic
             (open_call AtPage (HttpGet url) (fun tr => http_Get w tr url)) ;;
   defer AtPage (BodyClose resp) ;;
   doc <- Initial.check_or_panic
            (value_call AtPage (HtmlParse resp) (fun tr => html_Parse w tr resp)) ;;
   k doc) {| trace := tr; defers := [] |}
  = (resp <- check (open_call AtPage (HttpGet url) (fun tr => http_Get w tr url))
                   (fun err => err) ;;
     defer AtPage (BodyClose resp) ;;
     doc <- check (value_call AtPage (HtmlParse resp)
                     (fun tr => html_Parse w tr resp))
                  (fun err => err) ;;
     k doc) {| trace := tr; defers := [] |}.
Proof.
  intros [Hget Hparse].
  unfold Initial.check_or_panic, check, open_call, value_call, bind, history,
    emit, defer, ret.
  cbn [trace defers]. rewrite Hget. cbv beta iota. cbn [trace defers].
  rewrite Hparse. reflexivity.
Qed.

Lemma bind_cong {A B} (m : M A) (k1 k2 : A -> M B) fr :
  (forall a fr', k1 a fr' = k2 a fr') -> bind m k1 fr = bind m k2 fr.
Proof.
  intros H. unfold bind. destruct (m fr) as [[a|err|msg] fr']; [apply H | reflexivity..].
Qed.

Lemma Initial_downloadAlbum_loaded w url tr doc :
  loads w url tr doc -> safeNames w = false ->
  Initial.downloadAlbum w url tr = downloadAlbum w url tr.
Proof.
  intros Hload Hsafe. unfold Initial.downloadAlbum, downloadAlbum, call_func.
  assert (E : Initial.downloadAlbum_body w url {| trace := tr; defers := [] |}
              = downloadAlbum_body w url {| trace := tr; defers := [] |});
    [|rewrite E; reflexivity].
  etransitivity; [exact (Initial_body_loaded w url tr doc _ Hload)|].
  unfold downloadAlbum_body.
  apply bind_cong; intros resp fr1. apply bind_cong; intros _ fr2.
  apply bind_cong; intros doc' fr3. cbv zeta.
  destruct (findElementsWithDataKey doc' "data-tralbum") as [|el0 els];
    [reflexivity|].
  destruct (json_Unmarshal w _); [|reflexivity..].
  rewrite Initial_materialize_eq by exact Hsafe. reflexivity.
Qed.

Lemma Initial_downloadAlbum_fetch_panics w url tr err :
  http_Get w tr url = Some err ->
  Initial.downloadAlbum w url tr
  = (Panicked (Error err), tr ++ [Ev AtPage (HttpGet url) (Some err)]).
Proof.
  intros Hget. unfold Initial.downloadAlbum, call_func, Initial.downloadAlbum_body,
    Initial.check_or_panic, open_call, bind, history, emit, ret, panic.
  cbn [trace defers]. rewrite Hget. cbn. rewrite app_nil_r. reflexivity.
Qed.

Lemma Initial_downloadAlbum_parse_panics w url tr err :
  http_Get w tr url = None ->
  html_Parse w (tr ++ [Ev AtPage (HttpGet url) None]) (length tr) = inr err ->
  Initial.downloadAlbum w url tr
  = (Panicked (Error err),
     tr ++ [Ev AtPage (HttpGet url) None;
            Ev AtPage (HtmlParse (length tr)) (Some err);
            Ev AtPage (BodyClose (length tr)) None]).
Proof.
  intros Hget Hparse. unfold Initial.downloadAlbum, call_func,
    Initial.downloadAlbum_body, Initial.check_or_panic,
    open_call, value_call, bind, history, emit, defer, ret, panic.
  cbn [trace defers]. rewrite Hget. cbv beta iota. cbn [trace defers].
  rewrite Hparse. cbn. rewrite <- !app_assoc. reflexivity.
Qed.

(** ** The file of a track determines its number and its title *)

Lemma append_inj_l (p a b : string) : p +:+ a = p +:+ b -> a = b.
Proof.
  induction p as [|c p IH]; [auto|]. rewrite !app_String. intros H.
  injection H as H. exact (IH H).
Qed.

Lemma list_ascii_append (a b : string) :
  list_ascii_of_string (a +:+ b) = list_ascii_of_string a ++ list_ascii_of_string b.
Proof.
  induction a as [|c a IH]; [reflexivity|].
  rewrite app_String. cbn [list_ascii_of_string app]. f_equal. exact IH.
Qed.

Lemma append_inj_r (a b t : string) : a +:+ t = b +:+ t -> a = b.
Proof.
  intros H. apply (f_equal list_ascii_of_string) in H.
  rewrite !list_ascii_append in H. apply app_inv_tail in H.
  apply (f_equal string_of_list_ascii) in H.
  rewrite !string_of_list_ascii_of_string in H. exact H.
Qed.

Lemma split_at_space (a b x y : string) :
  Forall digit_or_minus (bytes a) -> Forall digit_or_minus (bytes b) ->
  a +:+ String " "%char x = b +:+ String " "%char y -> a = b /\ x = y.
Proof.
  assert (Hsp : forall c s, Forall digit_or_minus (bytes (String c s)) ->
                            c <> " "%char).
  { intros c s H ->. unfold bytes in H. cbn [list_ascii_of_string map] in H.
    apply List.Forall_inv in H. unfold digit_or_minus in H. vm_compute in H.
    destruct H as [[H _]|H]; [apply H; reflexivity | discriminate H]. }
  assert (Htl : forall c s, Forall digit_or_minus (bytes (String c s)) ->
                            Forall digit_or_minus (bytes s)).
  { intros c s H. unfold bytes in *. cbn [list_ascii_of_string map] in H.
    exact (List.Forall_inv_tail H). }
  revert b. induction a as [|c a IH]; intros [|d b] Ha Hb H.
  - cbn in H. injection H as H. auto.
  - rewrite app_String in H. cbn in H. injection H as Hc _.
    exfalso. apply (Hsp d b Hb). symmetry. exact Hc.
  - rewrite app_String in H. cbn in H. injection H as Hc _.
    exfalso. apply (Hsp c a Ha). exact Hc.
  - rewrite !app_String in H. injection H as Hc H.
    destruct (IH b (Htl _ _ Ha) (Htl _ _ Hb) H) as [-> ->]. subst d. auto.
Qed.

Lemma to_int_proper n :
  Z.to_int n <> Decimal.Pos Decimal.Nil /\ Z.to_int n <> Decimal.Neg Decimal.Nil.
Proof.
  destruct n as [|p|p]; cbn [Z.to_int]; split; try discriminate;
    intros H; injection H as H; exact (DecimalPos.Unsigned.to_uint_nonnil p H).
Qed.

Lemma int_of_fmt_d n : NilZero.int_of_string (fmt_d n) = Some (Z.to_int n).
Proof. unfold fmt_d. apply NilZero.isi; apply to_int_proper. Qed.

Lemma fmt_d_inj n m : fmt_d n = fmt_d m -> n = m.
Proof.
  intros H. apply (f_equal NilZero.int_of_string) in H.
  rewrite !int_of_fmt_d in H. injection H as H.
  exact (DecimalZ.to_int_inj n m H).
Qed.

Lemma fmt_d_padded n m : 0 <= n < 10 -> "0" +:+ fmt_d n = fmt_d m -> 0 <= m < 10.
Proof.
  intros Hn H.
  apply (f_equal NilZero.int_of_string) in H. rewrite int_of_fmt_d in H.
  destruct n as [|p|p]; [| |lia].
  2: do 4 (try (destruct p as [p|p|]; try lia)).
  all: match type of H with ?l = _ => set (lhs := l) in H end;
    vm_compute in lhs; subst lhs;
    injection H as H; apply (f_equal Z.of_int) in H;
    rewrite DecimalZ.of_to in H; subst m; vm_compute; (split; [discriminate|reflexivity]).
Qed.

Lemma fmt_02d_inj n m : fmt_02d n = fmt_02d m -> n = m.
Proof.
  unfold fmt_02d.
  destruct ((0 <=? n) && (n <? 10)) eqn:En; destruct ((0 <=? m) && (m <? 10)) eqn:Em;
    intros H.
  - apply append_inj_l in H. exact (fmt_d_inj n m H).
  - apply fmt_d_padded in H; lia.
  - symmetry in H. apply fmt_d_padded in H; lia.
  - exact (fmt_d_inj n m H).
Qed.

Lemma trackPath_of_inj albumPath t1 t2 :
  trackPath_of albumPath t1 = trackPath_of albumPath t2 ->
  TrackNum t1 = TrackNum t2 /\ Title t1 = Title t2.
Proof.
  unfold trackPath_of. intros H.
  apply append_inj_l in H. apply append_inj_l in H.
  change (" " +:+ ?x) with (String " "%char x) in H.
  apply split_at_space in H; [|apply bytes_fmt_02d..].
  destruct H as [Hn Ht]. split; [exact (fmt_02d_inj _ _ Hn)|].
  exact (append_inj_r _ _ _ Ht).
Qed.

(** ** The album directory *)

Lemma dir_io_app evs1 evs2 : dir_io (evs1 ++ evs2) = dir_io evs1 ++ dir_io evs2.
Proof. unfold dir_io. apply List.filter_app. Qed.

Lemma dir_io_none evs : Forall no_dir evs -> dir_io evs = [].
Proof.
  induction 1 as [|e evs He _ IH]; [reflexivity|].
  unfold dir_io in *. cbn [List.filter]. unfold no_dir in He. rewrite He. exact IH.
Qed.

Lemma dir_protocol_quiet_l w evs1 evs2 :
  Forall no_dir evs1 -> dir_protocol w evs2 -> dir_protocol w (evs1 ++ evs2).
Proof.
  intros H1 H2. unfold dir_protocol in *.
  rewrite dir_io_app, (dir_io_none evs1 H1). exact H2.
Qed.

Lemma dir_protocol_quiet_r w evs1 evs2 :
  dir_protocol w evs1 -> Forall no_dir evs2 -> dir_protocol w (evs1 ++ evs2).
Proof.
  intros H1 H2. unfold dir_protocol in *.
  rewrite dir_io_app, (dir_io_none evs2 H2), app_nil_r. exact H1.
Qed.

Lemma dir_protocol_quiet w evs : Forall no_dir evs -> dir_protocol w evs.
Proof. intros H. left. apply dir_io_none, H. Qed.

Lemma follows_quiet {A} w (m : M A) :
  grows no_dir no_dir_defer m -> follows_dir_protocol w m.
Proof.
  intros Hm fr. destruct (Hm fr) as (evs & ds & Ht & Hd & F1 & F2).
  exists evs, ds. auto using dir_protocol_quiet.
Qed.

Lemma follows_quiet_bind {A B} w (m : M A) (k : A -> M B) :
  grows no_dir no_dir_defer m -> (forall a, follows_dir_protocol w (k a)) ->
  follows_dir_protocol w (bind m k).
Proof.
  intros Hm Hk fr. unfold bind.
  destruct (Hm fr) as (e1 & d1 & Ht & Hd & F1 & F2).
  destruct (m fr) as [[a|err|msg] fr1]; cbn [fst snd] in *.
  - destruct (Hk a fr1) as (e2 & d2 & Ht2 & Hd2 & G1 & G2).
    exists (e1 ++ e2), (d2 ++ d1). rewrite Ht2, Hd2, Ht, Hd, !app_assoc.
    repeat split; try reflexivity; [apply Forall_app; auto|].
    apply dir_protocol_quiet_l; assumption.
  - exists e1, d1. auto using dir_protocol_quiet.
  - exists e1, d1. auto using dir_protocol_quiet.
Qed.

Lemma follows_bind_quiet {A B} w (m : M A) (k : A -> M B) :
  follows_dir_protocol w m -> (forall a, grows no_dir no_dir_defer (k a)) ->
  follows_dir_protocol w (bind m k).
Proof.
  intros Hm Hk fr. unfold bind.
  destruct (Hm fr) as (e1 & d1 & Ht & Hd & F1 & F2).
  destruct (m fr) as [[a|err|msg] fr1]; cbn [fst snd] in *.
  - destruct (Hk a fr1) as (e2 & d2 & Ht2 & Hd2 & G1 & G2).
    exists (e1 ++ e2), (d2 ++ d1). rewrite Ht2, Hd2, Ht, Hd, !app_assoc.
    repeat split; try reflexivity; [apply Forall_app; auto|].
    apply dir_protocol_quiet_r; assumption.
  - exists e1, d1. auto.
  - exists e1, d1. auto.
Qed.

Lemma follows_dir w albumPath : follows_dir_protocol w (downloadAlbum_dir w albumPath).
Proof.
  intros fr. unfold downloadAlbum_dir, error_call, check_err, bind, history, emit, ret.
  cbn [trace defers fst snd].
  change (match os_Stat w (trace fr) albumPath with
          | Some e => os_IsNotExist w e
          | None => false
          end) with (absent w (os_Stat w (trace fr) albumPath)).
  destruct (absent w (os_Stat w (trace fr) albumPath)) eqn:E.
  - cbn [trace defers fst snd].
    exists [Ev AtDir (Stat albumPath) (os_Stat w (trace fr) albumPath);
            Ev AtDir (MkdirAll albumPath perm_0755)
               (os_MkdirAll w
                  (trace fr ++ [Ev AtDir (Stat albumPath)
                                   (os_Stat w (trace fr) albumPath)])
                  albumPath perm_0755)], [].
    cbn [app].
    split; [|split; [|split; [constructor|]]].
    + destruct (os_MkdirAll w _ albumPath perm_0755);
        cbn [return_ trace defers fst snd]; rewrite <- app_assoc; reflexivity.
    + destruct (os_MkdirAll w _ albumPath perm_0755); reflexivity.
    + right. right. exists albumPath, (os_Stat w (trace fr) albumPath).
      eexists. split; [exact E | reflexivity].
  - eexists [_], []. cbn [trace defers fst snd app].
    split; [reflexivity|split; [reflexivity|split; [constructor|]]].
    right. left. exists albumPath, (os_Stat w (trace fr) albumPath).
    split; [exact E | reflexivity].
Qed.

Lemma follows_materialize w tralbum :
  follows_dir_protocol w (downloadAlbum_materialize w tralbum).
Proof.
  unfold downloadAlbum_materialize. cbv zeta.
  apply follows_quiet_bind; [unfold downloadAlbum_notices; grows_auto|intros _].
  apply follows_quiet_bind; [unfold downloadAlbum_art; grows_auto|intros art].
  apply follows_bind_quiet; [apply follows_dir|intros _].
  unfold downloadAlbum_cover, downloadAlbum_track. grows_auto.
Qed.

Lemma follows_body w url : follows_dir_protocol w (downloadAlbum_body w url).
Proof.
  unfold downloadAlbum_body.
  apply follows_quiet_bind; [grows_auto|intros resp].
  apply follows_quiet_bind; [grows_auto|intros _].
  apply follows_quiet_bind; [grows_auto|intros doc]. cbv zeta.
  destruct (findElementsWithDataKey doc "data-tralbum") as [|el0 els];
    [apply follows_quiet; grows_auto|].
  destruct (json_Unmarshal w _);
    [apply follows_materialize | apply follows_quiet; grows_auto..].
Qed.

Lemma downloadAlbum_dir_protocol w url tr :
  exists evs, snd (downloadAlbum w url tr) = tr ++ evs /\ dir_protocol w evs.
Proof.
  unfold downloadAlbum, call_func.
  destruct (follows_body w url {| trace := tr; defers := [] |})
    as (evs & ds & Ht & Hd & Hds & Hp).
  destruct (downloadAlbum_body w url _) as [r fr]. cbn [snd trace defers] in *.
  exists (evs ++ run_defers (defers fr)). rewrite Ht, app_assoc.
  split; [reflexivity|]. apply dir_protocol_quiet_r; [exact Hp|].
  rewrite Hd, app_nil_r. unfold run_defers. clear Hd.
  induction Hds as [|d ds' Hq _ IH]; cbn [map]; constructor; auto.
Qed.

(** ** [main], an argument after the other *)

Lemma main_url_album w u parsed :
  url_Parse w u = inl parsed ->
  HasPrefix (Path parsed) "/album" = true ->
  main_url w u = report (downloadAlbum w u).
Proof.
  intros Hparse Hprefix. unfold main_url. rewrite Hparse. cbv zeta.
  destruct (prefix_append _ _ Hprefix) as [tail Hpath].
  assert (H1 : String.eqb (Path parsed) "/" = false) by (rewrite Hpath; reflexivity).
  assert (H2 : String.eqb (Path parsed) "" = false) by (rewrite Hpath; reflexivity).
  assert (H3 : String.eqb (Path parsed) "/music" = false) by (rewrite Hpath; reflexivity).
  assert (H4 : String.eqb (Path parsed) "/music/" = false) by (rewrite Hpath; reflexivity).
  rewrite H1, H2. cbn [orb]. rewrite H3, H4. cbn [orb]. rewrite Hprefix.
  reflexivity.
Qed.

Lemma main_fetch_error_goes_on w u parsed rest fr err :
  url_Parse w u = inl parsed ->
  HasPrefix (Path parsed) "/album" = true ->
  http_Get w (trace fr) u = Some err ->
  for_range (u :: rest) (main_url w) fr
  = for_range rest (main_url w)
      {| trace := trace fr ++ [Ev AtPage (HttpGet u) (Some err);
                               Ev AtMain (Stdout ("❌ " +:+ Error err +:+ nl)) None];
         defers := defers fr |}.
Proof.
  intros Hparse Hprefix Hget. cbn [for_range]. unfold bind at 1.
  rewrite (main_url_album w u parsed Hparse Hprefix).
  unfold report, invoke, bind.
  rewrite (downloadAlbum_fetch_error w u (trace fr) err Hget).
  cbn. rewrite <- !app_assoc. reflexivity.
Qed.

Lemma Initial_main_fetch_panics w u rest fr err :
  http_Get w (trace fr) u = Some err ->
  Initial.main w (u :: rest) fr
  = (Panic (Error err),
     {| trace := trace fr ++ [Ev AtPage (HttpGet u) (Some err)];
        defers := defers fr |}).
Proof.
  intros Hget. unfold Initial.main. cbn [length Nat.ltb Nat.leb for_range].
  unfold bind at 1. unfold bind at 1. unfold report, invoke, bind.
  rewrite (Initial_downloadAlbum_fetch_panics w u (trace fr) err Hget).
  reflexivity.
Qed.

Lemma main_defers_nothing w args :
  grows (fun _ => True) (fun _ => False) (main w args).
Proof.
  assert (Hreport : forall f,
            (forall tr, exists evs, snd (f tr) = tr ++ evs /\ Forall (fun _ => True) evs) ->
            grows (fun _ : event => True) (fun _ : site * call => False) (report f)).
  { intros f Hf. unfold report. apply grows_bind; [apply grows_invoke, Hf|].
    intros [err|]; [apply grows_print; exact I | apply grows_ret]. }
  unfold main. destruct (_ <? _)%nat; [apply grows_print; exact I|].
  apply grows_bind; [|intros _; apply grows_print; exact I].
  apply grows_for_range. intros u. unfold main_url.
  destruct (url_Parse w u) as [parsed|err]; [|apply grows_print; exact I].
  cbv zeta.
  repeat match goal with
         | |- grows _ _ (if ?b then _ else _) => destruct b
         end;
    solve [ apply Hreport; intros tr; apply downloadAlbums_extends
          | apply Hreport; intros tr; apply downloadAlbum_extends
          | apply grows_print; exact I ].
Qed.

Lemma downloadAlbum_files_closed w url tr :
  fst (downloadAlbum w url tr) = Returned None ->
  files_closed (length tr) (snd (downloadAlbum w url tr)).
Proof.
  apply files_closed_call_func; [apply keeps_files_body | apply keeps_tidy_body].
Qed.

(** ** The steps of the track loop, writes included *)

Lemma created_path_shift tr l k :
  created_path (tr ++ l) (length tr + k)%nat = created_path l k.
Proof.
  unfold created_path. rewrite nth_error_app2 by lia.
  replace (length tr + k - length tr)%nat with k by lia. reflexivity.
Qed.

Lemma fetched_url_shift tr l k :
  fetched_url (tr ++ l) (length tr + k)%nat = fetched_url l k.
Proof.
  unfold fetched_url. rewrite nth_error_app2 by lia.
  replace (length tr + k - length tr)%nat with k by lia. reflexivity.
Qed.

Lemma track_steps_app full evs1 evs2 :
  track_steps full (evs1 ++ evs2) = track_steps full evs1 ++ track_steps full evs2.
Proof. unfold track_steps. apply flat_map_app. Qed.

Lemma tracks_steps_cons albumPath track tracks :
  tracks_steps albumPath (track :: tracks)
  = tracks_steps albumPath [track] ++ tracks_steps albumPath tracks.
Proof. reflexivity. Qed.

Lemma stepless_track_steps full evs : Forall stepless evs -> track_steps full evs = [].
Proof.
  induction 1 as [|e evs He _ IH]; [reflexivity|].
  change (e :: evs) with ([e] ++ evs). rewrite track_steps_app, IH, app_nil_r.
  unfold stepless, is_step in He. unfold track_steps. cbn [flat_map].
  destruct (ev_site e), (ev_call e); try discriminate He; reflexivity.
Qed.

Lemma stepless_succeeded evs : Forall stepless evs -> Forall step_succeeded evs.
Proof.
  intros H. eapply Forall_impl; [exact H|]. cbv beta.
  intros e He Hs. unfold stepless in He. congruence.
Qed.

(** One turn of the track loop fetches the track, creates its file and
    writes the body fetched to that file, in this order; a turn that
    completes has done the three, and none of them failed. *)
Lemma downloadAlbum_track_steps w tralbum albumPath artBytes track fr :
  let body := downloadAlbum_track w tralbum albumPath artBytes track in
  exists evs,
    trace (snd (body fr)) = trace fr ++ evs /\
    (forall rest,
       track_steps (trace fr ++ evs ++ rest) evs
       `prefix_of` tracks_steps albumPath [track]) /\
    (fst (body fr) = Ok tt ->
     (forall rest,
        track_steps (trace fr ++ evs ++ rest) evs = tracks_steps albumPath [track]) /\
     Forall step_succeeded evs).
Proof.
  intros body. unfold body, downloadAlbum_track.
  unfold check, check_err, open_call, error_call, plain_call, print,
    plain_call, bind, history, emit, defer, ret, return_.
  cbn [trace defers].
  repeat run_step.
  all: rewrite <- ?app_assoc; cbn [app].
  all: eexists; split; [reflexivity|].
  all: rewrite ?length_app; cbn [length].
  all: split; [intros rest|].
  all: unfold track_steps, tracks_steps; cbn [flat_map ev_site ev_call app].
  all: rewrite ?created_path_shift, ?fetched_url_shift.
  all: cbn [created_path fetched_url nth_error app].
  all: try (eexists; reflexivity).
  all: intros Hr; try discriminate Hr.
  all: split; [intros rest; rewrite ?created_path_shift, ?fetched_url_shift;
               reflexivity|].
  all: repeat (apply List.Forall_cons; [intros Hs; solve [reflexivity | discriminate Hs]|]).
  all: apply List.Forall_nil.
Qed.


Lemma stepwise_stepless {A} psi (m : M A) : grows stepless psi m -> stepwise [] m.
Proof.
  intros Hm fr. destruct (Hm fr) as (evs & ds & Ht & _ & F & _).
  exists evs. split; [exact Ht|].
  split; [intros rest; rewrite (stepless_track_steps _ evs F); reflexivity|].
  intros _. split; [intros rest; apply stepless_track_steps, F|].
  apply stepless_succeeded, F.
Qed.

Lemma stepwise_bind {A B} ex1 ex2 (m : M A) (k : A -> M B) :
  stepwise ex1 m -> (forall a, stepwise ex2 (k a)) ->
  stepwise (ex1 ++ ex2) (bind m k).
Proof.
  intros Hm Hk fr. unfold bind.
  destruct (Hm fr) as (e1 & Ht & Hp & Hok).
  destruct (m fr) as [[a|err|msg] fr1]; cbn [fst snd] in *.
  - destruct (Hk a fr1) as (e2 & Ht2 & Hp2 & Hok2).
    destruct (Hok (ex_intro _ a eq_refl)) as [Heq Hs].
    rewrite Ht in Hp2, Hok2.
    exists (e1 ++ e2). rewrite Ht2, Ht, app_assoc. split; [reflexivity|].
    split.
    + intros rest. rewrite track_steps_app.
      specialize (Heq (e2 ++ rest)). specialize (Hp2 rest).
      rewrite <- !app_assoc in *. rewrite Heq. apply prefix_app, Hp2.
    + intros Hr. destruct (Hok2 Hr) as [Heq2 Hs2].
      split; [|apply Forall_app; auto].
      intros rest. rewrite track_steps_app.
      specialize (Heq (e2 ++ rest)). specialize (Heq2 rest).
      rewrite <- !app_assoc in *. rewrite Heq, Heq2. reflexivity.
  - exists e1. split; [exact Ht|].
    split; [intros rest; apply prefix_app_r, Hp|].
    intros [a Ha]. discriminate.
  - exists e1. split; [exact Ht|].
    split; [intros rest; apply prefix_app_r, Hp|].
    intros [a Ha]. discriminate.
Qed.

Lemma stepwise_stepless_bind {A B} expected psi (m : M A) (k : A -> M B) :
  grows stepless psi m -> (forall a, stepwise expected (k a)) ->
  stepwise expected (bind m k).
Proof.
  intros Hm Hk. change expected with ([] ++ expected).
  apply stepwise_bind; [exact (stepwise_stepless psi m Hm) | exact Hk].
Qed.

Lemma stepwise_bind_stepless {A B} expected psi (m : M A) (k : A -> M B) :
  stepwise expected m -> (forall a, grows stepless psi (k a)) ->
  stepwise expected (bind m k).
Proof.
  intros Hm Hk. rewrite <- (app_nil_r expected).
  apply stepwise_bind; [exact Hm | intros a; exact (stepwise_stepless psi _ (Hk a))].
Qed.

(** The track loop goes through the list in order: fetch, create and
    write the first track, then the second, and so on. *)
Lemma downloadAlbum_tracks_steps w tralbum albumPath artBytes tracks :
  stepwise (tracks_steps albumPath tracks)
           (for_range tracks (downloadAlbum_track w tralbum albumPath artBytes)).
Proof.
  induction tracks as [|track tracks IH]; cbn [for_range].
  - apply (stepwise_stepless (fun _ => True)). apply grows_ret.
  - rewrite tracks_steps_cons. apply stepwise_bind; [|intros _; exact IH].
    intros fr.
    destruct (downloadAlbum_track_steps w tralbum albumPath artBytes track fr)
      as (evs & Ht & Hp & Hok).
    exists evs. split; [exact Ht|]. split; [exact Hp|].
    intros [[] Ha]. apply Hok, Ha.
Qed.

Lemma downloadAlbum_materialize_stepwise w tralbum :
  stepwise (tracks_steps (albumPath_of w (sanitized w tralbum))
                         (Trackinfo (sanitized w tralbum)))
           (downloadAlbum_materialize w tralbum).
Proof.
  unfold downloadAlbum_materialize. fold (sanitized w tralbum). cbv zeta.
  apply (stepwise_stepless_bind _ (fun _ => True));
    [unfold downloadAlbum_notices; grows_auto|intros _].
  apply (stepwise_stepless_bind _ (fun _ => True));
    [unfold downloadAlbum_art; grows_auto|intros art].
  apply (stepwise_stepless_bind _ (fun _ => True));
    [unfold downloadAlbum_dir; grows_auto|intros _].
  apply (stepwise_stepless_bind _ (fun _ => True));
    [unfold downloadAlbum_cover; grows_auto|intros _].
  apply (stepwise_bind_stepless _ (fun _ => True)); [|intros _; grows_auto].
  apply downloadAlbum_tracks_steps.
Qed.

Lemma stepless_run_defers ds : Forall closing ds -> Forall stepless (run_defers ds).
Proof.
  induction 1 as [|[s c] ds Hc _ IH]; [apply List.Forall_nil|].
  cbn [run_defers map]. apply List.Forall_cons; [|exact IH].
  unfold closing in Hc. cbn [snd fst] in *.
  destruct c; try contradiction; destruct s; reflexivity.
Qed.

(** The whole of [downloadAlbum], for a page that decodes: the steps of
    the track loop, with the handles of the writes resolved in the
    final trace. *)
Lemma downloadAlbum_stepwise w url tr tralbum :
  decoded w url tr tralbum ->
  let expected := tracks_steps (albumPath_of w (sanitized w tralbum))
                               (Trackinfo (sanitized w tralbum)) in
  exists evs,
    snd (downloadAlbum w url tr) = tr ++ evs /\
    track_steps (tr ++ evs) evs `prefix_of` expected /\
    (fst (downloadAlbum w url tr) = Returned None ->
     track_steps (tr ++ evs) evs = expected /\ Forall step_succeeded evs).
Proof.
  intros Hdec expected. unfold downloadAlbum, call_func.
  pose proof (keeps_tidy_body w url (length tr) {| trace := tr; defers := [] |})
    as Htidy.
  rewrite (downloadAlbum_body_decoded w url tr tralbum [] Hdec) in *.
  destruct (downloadAlbum_materialize_stepwise w tralbum
              {| trace := tr ++ page_events url tr;
                 defers := [(AtPage, BodyClose (length tr))] |})
    as (evs & Ht & Hp & Hok).
  destruct (downloadAlbum_materialize w tralbum _) as [r fr1].
  cbn [fst snd trace defers] in *.
  assert (Hc : Forall closing (defers fr1)).
  { apply Htidy. split; [constructor|]. intros h Hh. cbn [trace].
    destruct (opens_beyond tr h Hh) as [-> ->]. split; discriminate. }
  pose proof (stepless_run_defers _ Hc) as Hrd.
  assert (Hpage : Forall stepless (page_events url tr)).
  { unfold page_events. repeat (apply List.Forall_cons; [reflexivity|]).
    apply List.Forall_nil. }
  exists (page_events url tr ++ evs ++ run_defers (defers fr1)).
  rewrite Ht, <- !app_assoc. split; [reflexivity|].
  rewrite !track_steps_app, (stepless_track_steps _ _ Hrd), app_nil_r,
    (stepless_track_steps _ _ Hpage). cbn [app].
  specialize (Hp (run_defers (defers fr1))). rewrite <- !app_assoc in Hp.
  split; [exact Hp|]. intros Hr.
  assert (Ha : exists a, r = Ok a).
  { destruct r as [[err|]|err|msg]; try discriminate. eexists; reflexivity. }
  destruct (Hok Ha) as [Heq Hs].
  specialize (Heq (run_defers (defers fr1))). rewrite <- !app_assoc in Heq.
  split; [exact Heq|].
  apply Forall_app. split; [apply stepless_succeeded, Hpage|].
  apply Forall_app. split; [exact Hs | apply stepless_succeeded, Hrd].
Qed.

(** * The claims *)

(** ** C1: a record that does not decode *)

(** Where the first value of [album_release_date] is shorter than two
    bytes, the decoder panics and [downloadAlbum] with it. *)
Lemma downloadAlbum_short_date_panics w url tr doc el0 els d raw rest :
  loads w url tr doc ->
  findElementsWithDataKey doc "data-tralbum" = el0 :: els ->
  json_scan w (getDataValue el0 "data-tralbum") = inl d ->
  doc_release_dates d = raw :: rest ->
  (String.length raw < 2)%nat ->
  downloadAlbum w url tr
  = (Panicked "slice bounds out of range",
     tr ++ page_events url tr ++ [Ev AtPage (BodyClose (length tr)) None]).
Proof.
  intros Hl Hf Hs Hd Hlen.
  apply (downloadAlbum_decode_panic w url tr doc el0 els _ Hl Hf).
  unfold json_Unmarshal. rewrite Hs, Hd.
  rewrite (unmarshal_dates_panic w raw rest zeroTime Hlen). reflexivity.
Qed.

(** C1 (the code at the failing input).  The page carries the album
    data [{"album_release_date":5}]: the release date has the wrong JSON
    type.  [downloadAlbum] does not return a decode error, it panics
    with the slice expression of [UnmarshalJSON]; the panic leaves
    through [json.Unmarshal] and [downloadAlbum].  Nothing but the page
    has been touched, and its body is closed on the way out. *)
Theorem number_release_date_panics :
  downloadAlbum (Demo.world false) "https://x/album/number-date" []
  = (Panicked "slice bounds out of range",
     [Ev AtPage (HttpGet "https://x/album/number-date") None;
      Ev AtPage (HtmlParse 0%nat) None;
      Ev AtPage (BodyClose 0%nat) None]).
Proof. vm_compute. reflexivity. Qed.

(** ** C2: the sanitizer is idempotent and keeps the number of code points *)

(** C2.  [cleanString] is a function of its argument alone, defined on
    every string; sanitizing twice is sanitizing once, and the output
    has as many code points as the input. *)
Theorem cleanString_idempotent_length (s : string) :
  cleanString (cleanString s) = cleanString s /\
  RuneCountInString (cleanString s) = RuneCountInString s.
Proof. split; [apply cleanString_idem | apply cleanString_rune_count]. Qed.

(** ** C3: the DOM locator *)

(** C3.  [findElementsWithDataKey] lists the elements that carry the
    key in document order (pre-order: a node, listed once per attribute
    of that name, comes before what its children yield, child by child);
    the nodes listed are exactly the elements of the tree that carry
    the key; where no attribute name is repeated the result is the
    pre-order listing filtered by the key; and where no element carries
    the key the result is the empty list. *)
Theorem findElementsWithDataKey_document_order (n : Node) (key : string) :
  findElementsWithDataKey n key
  = flat_map (fun m => repeat m (key_count key m)) (preorder n) /\
  findElementsWithDataKey n key
  = repeat n (key_count key n)
    ++ flat_map (fun c => findElementsWithDataKey c key) (Children n) /\
  (forall m, In m (findElementsWithDataKey n key)
             <-> In m (preorder n) /\ carries key m) /\
  (distinct_attributes n ->
   findElementsWithDataKey n key = List.filter (carriesb key) (preorder n)) /\
  ((forall m, In m (preorder n) -> ~ carries key m) ->
   findElementsWithDataKey n key = []).
Proof.
  split; [apply findElementsWithDataKey_preorder|].
  split; [destruct n; apply findElementsWithDataKey_unfold|].
  split; [intros m; apply findElementsWithDataKey_In|].
  split; [apply findElementsWithDataKey_filter|].
  apply findElementsWithDataKey_none.
Qed.

Lemma findElementsWithDataKey_document_order_witness :
  findElementsWithDataKey Demo.plain_page "data-tralbum" = [] /\
  findElementsWithDataKey Demo.storefront_page "data-item-id"
  = [Demo.item "/album/one"; Demo.item "/track/solo"; Demo.item "/album/two"].
Proof.
  split.
  - apply (findElementsWithDataKey_document_order Demo.plain_page "data-tralbum").
    intros m Hm Hc. apply carriesb_carries in Hc. cbn in Hm.
    decompose [or] Hm; subst; try discriminate; contradiction.
  - destruct (findElementsWithDataKey_document_order
                Demo.storefront_page "data-item-id") as (_ & _ & _ & Hfilter & _).
    rewrite Hfilter; [reflexivity|].
    intros m Hm. cbn in Hm.
    decompose [or] Hm; subst; try contradiction; cbn;
      repeat (constructor; [cbn; intuition discriminate|]); constructor.
Defined.

(** ** C4: the tracks are fetched and written in the order of the record *)

(** C4.  For a page that decodes to [tralbum], what the track loop
    does is, in the order it happens, a prefix of: fetch the first
    track of [Trackinfo], create its file and write to that file the
    body fetched from its address; the same for the second track; and
    so on.  It is all of it, and none of these calls has failed, when
    [downloadAlbum] returns nil.  The order is that of the array,
    whatever the track numbers.  (The fetches and the creations alone
    are listed by [track_io]; [track_steps] lists the writes too, with
    the file and the body of each write read off the trace.) *)
Theorem tracks_in_record_order (w : World) (url : string) (tr : list event)
  (tralbum : bandcampTRAlbum) :
  decoded w url tr tralbum ->
  let albumPath := albumPath_of w (sanitized w tralbum) in
  let tracks := Trackinfo (sanitized w tralbum) in
  exists evs,
    snd (downloadAlbum w url tr) = tr ++ evs /\
    track_io evs `prefix_of` tracks_io albumPath tracks /\
    track_steps (tr ++ evs) evs `prefix_of` tracks_steps albumPath tracks /\
    (fst (downloadAlbum w url tr) = Returned None ->
     track_io evs = tracks_io albumPath tracks /\
     track_steps (tr ++ evs) evs = tracks_steps albumPath tracks /\
     Forall step_succeeded evs).
Proof.
  intros Hdec albumPath tracks.
  destruct (downloadAlbum_in_order w url tr tralbum Hdec) as (evs & Ht & Hp & Hok).
  destruct (downloadAlbum_stepwise w url tr tralbum Hdec)
    as (evs' & Ht' & Hp' & Hok').
  assert (E : evs' = evs).
  { rewrite Ht in Ht'. exact (eq_sym (app_inv_head _ _ _ Ht')). }
  subst evs'. exists evs. split; [exact Ht|]. split; [exact Hp|].
  split; [exact Hp'|]. intros Hr. destruct (Hok' Hr) as [Hs Hf].
  split; [exact (Hok Hr)|]. split; assumption.
Qed.

(** Track 2 then track 1 in the array: the file [02 Two.mp3] is created
    and written, from the body of the second address, before
    [01 One.mp3] is even fetched. *)
Lemma tracks_in_record_order_witness :
  exists evs,
    snd (downloadAlbum (Demo.world false) "https://x/album/two-tracks" []) = evs /\
    track_io evs
    = [HttpGet "http://x/2.mp3"; Create "A/T (2020)/02 Two.mp3";
       HttpGet "http://x/1.mp3"; Create "A/T (2020)/01 One.mp3"] /\
    track_steps evs evs
    = [Fetch "http://x/2.mp3"; CreateFile "A/T (2020)/02 Two.mp3";
       WriteFile "A/T (2020)/02 Two.mp3" "http://x/2.mp3";
       Fetch "http://x/1.mp3"; CreateFile "A/T (2020)/01 One.mp3";
       WriteFile "A/T (2020)/01 One.mp3" "http://x/1.mp3"].
Proof.
  assert (Hdec : decoded (Demo.world false) "https://x/album/two-tracks" []
                         (set_ReleaseDate 1577836800 Demo.two_tracks)).
  { exists (Demo.album_page "two-tracks").
    eexists. exists []. repeat split; reflexivity. }
  destruct (tracks_in_record_order _ _ _ _ Hdec) as (evs & Ht & _ & _ & Hok).
  exists evs. split; [exact Ht|].
  assert (Hr : fst (downloadAlbum (Demo.world false)
                      "https://x/album/two-tracks" []) = Returned None)
    by (vm_compute; reflexivity).
  destruct (Hok Hr) as (Hio & Hsteps & _).
  split; [rewrite Hio; reflexivity|].
  cbn [app] in Hsteps. rewrite Hsteps. reflexivity.
Defined.

(** ** C5: an album without cover art *)

(** C5.  For a page that decodes to a record with [art_id = 0]: the art
    block fetches nothing and leaves both buffers nil, the cover block
    does nothing, and [downloadAlbum] goes on as it does otherwise
    (notices, directory, tracks, final line) with no picture to embed;
    no event of the run is made where the art is fetched or the cover
    is written, none adds a picture frame, and none creates the file
    [cover.jpg] of the album directory; and, unless the page or a track
    lives at one of the two cover addresses, no call of the run fetches
    such an address. *)
Theorem art_id_zero_no_art (w : World) (url : string) (tr : list event)
  (tralbum : bandcampTRAlbum) :
  decoded w url tr tralbum ->
  Current_ArtId tralbum = 0 ->
  let tralbum' := sanitized w tralbum in
  let albumPath := albumPath_of w tralbum' in
  (forall fr, downloadAlbum_art w tralbum' fr = (Ok (None, None), fr)) /\
  (forall fr, downloadAlbum_cover w albumPath None fr = (Ok tt, fr)) /\
  (forall fr,
     downloadAlbum_materialize w tralbum fr
     = (downloadAlbum_notices w tralbum' ;;
        downloadAlbum_dir w albumPath ;;
        for_range (Trackinfo tralbum')
                  (downloadAlbum_track w tralbum' albumPath None) ;;
        print AtPage nl ;;
        ret None) fr) /\
  (exists evs,
     snd (downloadAlbum w url tr) = tr ++ evs /\
     Forall (artless albumPath) evs) /\
  (not_art_url 0 url ->
   (forall track, In track (Trackinfo tralbum) -> not_art_url 0 (File_Url track)) ->
   exists evs,
     snd (downloadAlbum w url tr) = tr ++ evs /\
     Forall (fun e => ~ fetches_art 0 e) evs).
Proof.
  intros Hdec Hzero tralbum' albumPath.
  split; [intros fr; apply downloadAlbum_art_zero;
          unfold tralbum'; rewrite sanitized_ArtId; exact Hzero|].
  split; [intros fr; reflexivity|].
  split; [intros fr; apply (downloadAlbum_materialize_zero w tralbum fr Hzero)|].
  split; [apply downloadAlbum_artless; assumption|].
  apply downloadAlbum_fetches_no_art; assumption.
Qed.

Lemma art_id_zero_no_art_witness :
  exists evs,
    snd (downloadAlbum (Demo.world false) "https://x/album/two-tracks" []) = evs /\
    Forall (artless "A/T (2020)") evs /\
    Forall (fun e => ~ fetches_art 0 e) evs.
Proof.
  assert (Hdec : decoded (Demo.world false) "https://x/album/two-tracks" []
                         (set_ReleaseDate 1577836800 Demo.two_tracks)).
  { exists (Demo.album_page "two-tracks").
    eexists. exists []. repeat split; reflexivity. }
  destruct (art_id_zero_no_art _ _ _ _ Hdec eq_refl)
    as (_ & _ & _ & (evs & Ht & Ha) & Hurl).
  exists evs. split; [exact Ht|]. split; [exact Ha|].
  destruct Hurl as (evs' & Ht' & Hn).
  - split; intros H; vm_compute in H; discriminate H.
  - intros track Htrack. cbn in Htrack.
    decompose [or] Htrack; subst; try contradiction;
      split; intros H; vm_compute in H; discriminate H.
  - rewrite Ht in Ht'. cbn in Ht'. subst evs'. exact Hn.
Defined.

(** ** C6: a page without album data *)

(** C6.  For a page that is fetched and parsed and in which no element
    carries [data-tralbum]: [downloadAlbum] returns the error "could not
    find album" (it does not panic); all it has done is fetch the page,
    parse it and close the body, so no call reaches the file system;
    and the loop of [main], for an argument that is an album address,
    prints the error and goes on with the arguments that remain. *)
Theorem album_not_found (w : World) (url : string) (tr : list event) (doc : Node) :
  loads w url tr doc ->
  (forall m, In m (preorder doc) -> ~ carries "data-tralbum" m) ->
  let evs := page_events url tr ++ [Ev AtPage (BodyClose (length tr)) None] in
  downloadAlbum w url tr
  = (Returned (Some (errors_New "could not find album")), tr ++ evs) /\
  Forall (fun e => is_fs_call (ev_call e) = false) evs /\
  forall parsed rest ds,
    url_Parse w url = inl parsed ->
    HasPrefix (Path parsed) "/album" = true ->
    for_range (url :: rest) (main_url w) {| trace := tr; defers := ds |}
    = for_range rest (main_url w)
        {| trace := tr ++ evs
                      ++ [Ev AtMain (Stdout ("❌ could not find album" +:+ nl)) None];
           defers := ds |}.
Proof.
  intros Hl Hnone evs.
  split; [apply (downloadAlbum_not_found w url tr doc Hl Hnone)|].
  split; [repeat constructor|].
  intros parsed rest ds Hparse Hprefix.
  rewrite (main_not_found w url parsed doc rest {| trace := tr; defers := ds |}
             Hparse Hprefix Hl Hnone).
  cbn [trace defers]. unfold evs. rewrite <- !app_assoc. reflexivity.
Qed.

Lemma album_not_found_witness :
  downloadAlbum (Demo.world false) "https://x/album/none" []
  = (Returned (Some (errors_New "could not find album")),
     [Ev AtPage (HttpGet "https://x/album/none") None;
      Ev AtPage (HtmlParse 0%nat) None;
      Ev AtPage (BodyClose 0%nat) None]) /\
  for_range ["https://x/album/none"; "https://x/album/two-tracks"]%string
            (main_url (Demo.world false)) {| trace := []; defers := [] |}
  = for_range ["https://x/album/two-tracks"]%string (main_url (Demo.world false))
      {| trace := [Ev AtPage (HttpGet "https://x/album/none") None;
                   Ev AtPage (HtmlParse 0%nat) None;
                   Ev AtPage (BodyClose 0%nat) None;
                   Ev AtMain (Stdout ("❌ could not find album" +:+ nl)) None];
         defers := [] |}.
Proof.
  assert (Hl : loads (Demo.world false) "https://x/album/none" [] Demo.plain_page)
    by (split; reflexivity).
  assert (Hn : forall m, In m (preorder Demo.plain_page) -> ~ carries "data-tralbum" m).
  { intros m Hm Hc. apply carriesb_carries in Hc. cbn in Hm.
    decompose [or] Hm; subst; try discriminate; contradiction. }
  destruct (album_not_found _ _ _ _ Hl Hn) as (H1 & _ & H3).
  split; [exact H1|].
  apply (H3 {| Origin := "https://x"; Path := "/album/none" |}); reflexivity.
Defined.

(** ** C7: the substitution table *)

(** C7 (the claim as it is worded fails).  The sanitized title of
    [A/B:C] is not the six code points [A⁄Bː C] of the specification:
    no space follows the replacement of the colon. *)
Lemma sanitized_title_has_no_space :
  cleanString "A/B:C" <> "A⁄Bː C"%string.
Proof. intros H. vm_compute in H. discriminate H. Qed.

(** C7 (amended).  The output of [cleanString] encodes, rune for rune,
    the image of the input under the table; the table maps the eight
    characters [< > : / \ | ? *] to their eight lookalikes and every
    other rune to itself; and [A/B:C] sanitizes to the five code points
    [A⁄BːC]. *)
Theorem cleanString_substitution (s : string) :
  cleanString s = encode_runes (map clean_rune (runes s)) /\
  runes (cleanString s) = map clean_rune (runes s) /\
  runes "<>:/\|?*" = unsafe_runes /\
  map clean_rune unsafe_runes = runes "﹤﹥ː⁄∖⼁﹖﹡" /\
  (forall r, In r unsafe_runes \/ clean_rune r = r) /\
  cleanString "A/B:C" = "A⁄BːC"%string.
Proof.
  split; [apply cleanString_encode|].
  split; [apply runes_cleanString|].
  split; [vm_compute; reflexivity|].
  split; [vm_compute; reflexivity|].
  split; [|vm_compute; reflexivity].
  intros r. destruct (clean_rune_image r) as [H|[_ H]]; auto.
Qed.

(** ** C8: the storefront fan-out *)

(** C8.  [downloadAlbums], for a storefront that loads, downloads every
    album of the listing one after the other, whatever the earlier
    downloads returned, and returns the chain of all their errors (only
    a panic stops it); so does its loop from any state.  The chain of a
    first error [e] is [fmt.Errorf("%w\n%s", nil, e)]: it wraps nothing
    and its text starts with the bad-verb rendering of nil. *)
Theorem downloadAlbums_chains_errors (w : World) (url : URL)
  (tr : list event) (doc : Node) :
  storefront_loads w url tr doc ->
  let closed := [Ev AtStorefront (BodyClose (length tr)) None] in
  downloadAlbums w url tr
  = match download_each w
            (album_urls w url (findElementsWithDataKey doc "data-item-id"))
            (tr ++ [Ev AtStorefront (HttpGet (url_String w url)) None;
                    Ev AtStorefront (HtmlParse (length tr)) None]) with
    | (inl errs, tr') => (Returned (chain_errors errs None), tr' ++ closed)
    | (inr msg, tr') => (Panicked msg, tr' ++ closed)
    end /\
  (forall els err fr,
     downloadAlbums_loop w els url err fr
     = match download_each w (album_urls w url els) (trace fr) with
       | (inl errs, tr') =>
         (Ok (chain_errors errs err), {| trace := tr'; defers := defers fr |})
       | (inr msg, tr') =>
         (Panic msg, {| trace := tr'; defers := defers fr |})
       end) /\
  (forall e,
     chain_errors [e] None = Some (Errorf_w_nl_s None e) /\
     Unwrap (Errorf_w_nl_s None e) = None /\
     Error (Errorf_w_nl_s None e) = "%!w(<nil>)" +:+ nl +:+ Error e) /\
  (forall e1 e2,
     chain_errors [e1; e2] None
     = Some (Errorf_w_nl_s (Some (Errorf_w_nl_s None e1)) e2)).
Proof.
  intros Hl closed.
  split; [apply (downloadAlbums_each w url tr doc Hl)|].
  split; [intros els err fr; apply downloadAlbums_loop_each|].
  split; [intros e; repeat split; reflexivity|].
  intros e1 e2. reflexivity.
Qed.

(** Two albums of three items fail: the second is still downloaded,
    and both errors are in the chain. *)
Lemma downloadAlbums_chains_errors_witness :
  downloadAlbums (Demo.world false) {| Origin := "https://x"; Path := "/music" |} []
  = (Returned
       (Some (Errorf_w_nl_s
                (Some (Errorf_w_nl_s None (errors_New "could not find album")))
                (errors_New "could not find album"))),
     [Ev AtStorefront (HttpGet "https://x/music") None;
      Ev AtStorefront (HtmlParse 0%nat) None;
      Ev AtPage (HttpGet "https://x/album/one") None;
      Ev AtPage (HtmlParse 2%nat) None;
      Ev AtPage (BodyClose 2%nat) None;
      Ev AtPage (HttpGet "https://x/album/two") None;
      Ev AtPage (HtmlParse 5%nat) None;
      Ev AtPage (BodyClose 5%nat) None;
      Ev AtStorefront (BodyClose 0%nat) None]).
Proof.
  assert (Hl : storefront_loads (Demo.world false)
                 {| Origin := "https://x"; Path := "/music" |} []
                 Demo.storefront_page) by (split; reflexivity).
  destruct (downloadAlbums_chains_errors _ _ _ _ Hl) as (H & _).
  rewrite H. reflexivity.
Defined.

(** ** C9: files left open *)

(** C9 (the code at the failing input).  The disk is full.  For an
    album with cover art, [downloadAlbum] creates [cover.jpg], fails to
    write it and returns the error: the trace opens the file (at
    position 9) and never closes it.  For an album without art, the
    file of its first track is left open in the same way (position 7).
    On a disk with room the same albums leave no file and no tag open. *)
Theorem file_left_open_on_write_error :
  let cover := downloadAlbum (Demo.world true) "https://x/album/with-art" [] in
  let track := downloadAlbum (Demo.world true) "https://x/album/two-tracks" [] in
  fst cover
  = Returned (Some (Errorf_w "could not write large album art file: "
                             (LibError "no space left on device"))) /\
  nth_error (snd cover) 9 = Some (Ev AtCover (Create "A/T (2020)/cover.jpg") None) /\
  unclosed_files (snd cover) = [9%nat] /\
  fst track
  = Returned (Some (Errorf_w "could not write track file: "
                             (LibError "no space left on device"))) /\
  nth_error (snd track) 7 = Some (Ev AtTrack (Create "A/T (2020)/02 Two.mp3") None) /\
  unclosed_files (snd track) = [7%nat] /\
  let cover_ok := downloadAlbum (Demo.world false) "https://x/album/with-art" [] in
  let track_ok := downloadAlbum (Demo.world false) "https://x/album/two-tracks" [] in
  fst cover_ok = Returned None /\
  unclosed_files (snd cover_ok) = [] /\ unclosed_tags (snd cover_ok) = [] /\
  fst track_ok = Returned None /\
  unclosed_files (snd track_ok) = [] /\ unclosed_tags (snd track_ok) = [].
Proof. vm_compute. repeat split; reflexivity. Qed.

(** ** C10: the release date is stripped without a check *)

(** C10.  [UnmarshalJSON] drops the first and the last byte of its
    input and parses what is between them, whatever the two bytes are,
    as soon as the input has two bytes; on a shorter input, such as the
    number [5], the slice expression panics, and the panic goes through
    the decoder: no error is returned. *)
Theorem UnmarshalJSON_strips_unchecked (w : World) (b : string) :
  UnmarshalJSON w b
  = (if (2 <=? String.length b)%nat then
       match time_Parse w layout (substring 1 (String.length b - 2) b) with
       | inr err => Fail err
       | inl parsed => Ok parsed
       end
     else Panic "slice bounds out of range") /\
  UnmarshalJSON w "[01 Jan 2020 00:00:00 GMT]"
  = match time_Parse w layout "01 Jan 2020 00:00:00 GMT" with
    | inr err => Fail err
    | inl parsed => Ok parsed
    end /\
  UnmarshalJSON w "5" = Panic "slice bounds out of range" /\
  (forall rest t,
     unmarshal_dates w ("5"%string :: rest) t = Panic "slice bounds out of range") /\
  json_Unmarshal (Demo.world false) Demo.json_number_date
  = Panic "slice bounds out of range".
Proof.
  split; [apply UnmarshalJSON_by_length|].
  split; [reflexivity|].
  split; [reflexivity|].
  split; [intros rest t; reflexivity|].
  vm_compute. reflexivity.
Qed.

(** * Further properties of the code *)

(** ** The attribute reader *)

(** X1.  For an element that [findElementsWithDataKey] lists for a key,
    [getDataValue] with that key returns the value of the first
    attribute of that name: the attributes of the element split into
    some that do not have the name, the attribute read, and the rest. *)
Theorem getDataValue_of_listed_element (n : Node) (key : string) (el : Node) :
  In el (findElementsWithDataKey n key) ->
  exists before a after,
    Attr el = before ++ a :: after /\ Key a = key /\
    (forall b, In b before -> Key b <> key) /\
    getDataValue el key = Val a.
Proof.
  intros Hel. apply findElementsWithDataKey_In in Hel. destruct Hel as [_ [_ Ha]].
  unfold getDataValue. apply getDataValue_loop_first. exact Ha.
Qed.

Lemma getDataValue_of_listed_element_witness :
  exists before a after,
    Attr (Demo.item "/album/one") = before ++ a :: after /\
    Key a = "data-item-id"%string /\
    (forall b, In b before -> Key b <> "data-item-id"%string) /\
    getDataValue (Demo.item "/album/one") "data-item-id" = Val a.
Proof.
  apply (getDataValue_of_listed_element Demo.storefront_page "data-item-id"
           (Demo.item "/album/one")).
  vm_compute. left. reflexivity.
Defined.

(** X2.  Where no attribute of the node has the name, [getDataValue]
    returns the empty string: the result does not tell an attribute
    that is missing from one whose value is empty. *)
Theorem getDataValue_missing_is_empty (n : Node) (key : string) :
  (forall a, In a (Attr n) -> Key a <> key) ->
  getDataValue n key = EmptyString /\
  getDataValue (mkNode (Type_ n) (Data n)
                  ({| Namespace := ""; Key := key; Val := "" |} :: Attr n)
                  (Children n)) key
  = EmptyString.
Proof.
  intros H. split; [apply getDataValue_loop_absent, H|].
  unfold getDataValue. cbn [Attr getDataValue_loop Key Val].
  rewrite String.eqb_refl. reflexivity.
Qed.

Lemma getDataValue_missing_is_empty_witness :
  getDataValue Demo.plain_page "href" = EmptyString /\
  getDataValue (mkNode (Type_ Demo.plain_page) (Data Demo.plain_page)
                  ({| Namespace := ""; Key := "href"; Val := "" |}
                     :: Attr Demo.plain_page)
                  (Children Demo.plain_page)) "href"
  = EmptyString.
Proof.
  apply (getDataValue_missing_is_empty Demo.plain_page "href").
  simpl. intros a [].
Defined.

(** ** The name sanitizer *)

(** X3.  Whatever the input, well-formed UTF-8 or not, no byte of the
    output of [cleanString] is one of the eight characters
    [< > : / \ | ? *]. *)
Theorem cleanString_output_is_safe (s : string) :
  Forall safe_byte (bytes (cleanString s)).
Proof. apply bytes_cleanString_safe. Qed.

(** X4.  [cleanString] leaves alone the encoding of valid code points
    among which none is one of the eight characters. *)
Theorem cleanString_keeps_safe_text (rs : list rune) :
  Forall valid_rune rs -> Forall safe_byte rs ->
  cleanString (encode_runes rs) = encode_runes rs.
Proof.
  intros Hv Hs. rewrite (cleanString_encode_runes rs Hv).
  rewrite (map_clean_rune_safe rs Hs). reflexivity.
Qed.

Lemma cleanString_keeps_safe_text_witness :
  cleanString (encode_runes [0x41; 0xE9; 0x4E16])
  = encode_runes [0x41; 0xE9; 0x4E16].
Proof.
  apply (cleanString_keeps_safe_text [0x41; 0xE9; 0x4E16]).
  - repeat (apply List.Forall_cons || apply List.Forall_nil);
      unfold valid_rune, MaxRune, surrogateMin, surrogateMax; lia.
  - repeat (apply List.Forall_cons || apply List.Forall_nil);
      unfold safe_byte, unsafe_runes; simpl; lia.
Defined.

(** X5.  The [if *safeNames] block rewrites the artist, the album title
    and every track title, each by [cleanString], and nothing else: the
    art id, the item type, the free-download page, the release date,
    and the number and the address of every track are kept; and running
    the block a second time changes nothing. *)
Theorem clean_names_touches_names_only (tralbum : bandcampTRAlbum) :
  Artist (clean_names tralbum) = cleanString (Artist tralbum) /\
  Current_Title (clean_names tralbum) = cleanString (Current_Title tralbum) /\
  map Title (Trackinfo (clean_names tralbum))
  = map cleanString (map Title (Trackinfo tralbum)) /\
  clean_names (clean_names tralbum) = clean_names tralbum /\
  Current_ArtId (clean_names tralbum) = Current_ArtId tralbum /\
  ItemType (clean_names tralbum) = ItemType tralbum /\
  FreeDownloadPage (clean_names tralbum) = FreeDownloadPage tralbum /\
  ReleaseDate (clean_names tralbum) = ReleaseDate tralbum /\
  map TrackNum (Trackinfo (clean_names tralbum)) = map TrackNum (Trackinfo tralbum) /\
  map File_Url (Trackinfo (clean_names tralbum)) = map File_Url (Trackinfo tralbum) /\
  length (Trackinfo (clean_names tralbum)) = length (Trackinfo tralbum).
Proof.
  split; [reflexivity|]. split; [reflexivity|].
  split; [cbn [clean_names Trackinfo]; rewrite !map_map; apply map_ext;
          intros track; reflexivity|].
  split; [apply clean_names_idem|].
  repeat (split; [reflexivity|]).
  cbn [clean_names Trackinfo]. rewrite !map_map, length_map.
  repeat split; apply map_ext; intros track; reflexivity.
Qed.

(** X6.  With sanitized names, the album directory is the sanitized
    artist, a separator, and the sanitized title with the year; the
    file of a track comes after a second separator.  None of the three
    pieces holds one of the eight characters, as long as the year the
    time library prints holds none: the only separators of the paths
    are the two the program writes itself.  The album and the file are
    names of their own (not empty, not [.] and not [..]).  The artist
    is not looked at: the sanitizer leaves an empty artist and the
    artist [..] as they are, so the first piece can be either. *)
Theorem sanitized_paths_split_in_three (w : World)
  (tralbum : bandcampTRAlbum) (track : Track) :
  Forall safe_byte (bytes (time_Local_Format_2006 w (ReleaseDate tralbum))) ->
  In track (Trackinfo (clean_names tralbum)) ->
  let artist := cleanString (Artist tralbum) in
  let album := cleanString (Current_Title tralbum) +:+ " ("
               +:+ time_Local_Format_2006 w (ReleaseDate tralbum) +:+ ")" in
  let name := fmt_02d (TrackNum track) +:+ " " +:+ Title track +:+ ".mp3" in
  (albumPath_of w (clean_names tralbum) = artist +:+ "/" +:+ album /\
   trackPath_of (albumPath_of w (clean_names tralbum)) track
   = artist +:+ "/" +:+ album +:+ "/" +:+ name /\
   Forall safe_byte (bytes artist) /\
   Forall safe_byte (bytes album) /\
   Forall safe_byte (bytes name) /\
   proper_name album /\ proper_name name) /\
  cleanString EmptyString = EmptyString /\
  cleanString ".." = ".."%string.
Proof.
  intros Hyear Htrack artist album name.
  split; [exact (clean_names_paths w tralbum track Hyear Htrack)|].
  split; reflexivity.
Qed.

Lemma sanitized_paths_split_in_three_witness :
  let track := {| Title := "Two"; TrackNum := 2; File_Url := "http://x/2.mp3" |} in
  let artist := cleanString (Artist Demo.two_tracks) in
  let album := cleanString (Current_Title Demo.two_tracks) +:+ " ("
               +:+ time_Local_Format_2006 (Demo.world false)
                     (ReleaseDate Demo.two_tracks) +:+ ")" in
  let name := fmt_02d (TrackNum track) +:+ " " +:+ Title track +:+ ".mp3" in
  (albumPath_of (Demo.world false) (clean_names Demo.two_tracks)
   = artist +:+ "/" +:+ album /\
   trackPath_of (albumPath_of (Demo.world false) (clean_names Demo.two_tracks)) track
   = artist +:+ "/" +:+ album +:+ "/" +:+ name /\
   Forall safe_byte (bytes artist) /\
   Forall safe_byte (bytes album) /\
   Forall safe_byte (bytes name) /\
   proper_name album /\ proper_name name) /\
  cleanString EmptyString = EmptyString /\
  cleanString ".." = ".."%string.
Proof.
  apply (sanitized_paths_split_in_three (Demo.world false) Demo.two_tracks).
  - vm_compute. repeat (apply List.Forall_cons || apply List.Forall_nil);
      intuition discriminate.
  - simpl. left. reflexivity.
Defined.

(** X7.  The file of a track determines its number and its title: two
    tracks of an album are written to the same file only if they have
    the same number and the same title. *)
Theorem trackPath_of_injective (albumPath : string) (t1 t2 : Track) :
  trackPath_of albumPath t1 = trackPath_of albumPath t2 ->
  TrackNum t1 = TrackNum t2 /\ Title t1 = Title t2.
Proof. apply trackPath_of_inj. Qed.

Lemma trackPath_of_injective_witness :
  TrackNum {| Title := "One"; TrackNum := 1; File_Url := "http://x/1.mp3" |}
  = TrackNum {| Title := "One"; TrackNum := 1; File_Url := "http://y/one.mp3" |} /\
  Title {| Title := "One"; TrackNum := 1; File_Url := "http://x/1.mp3" |}
  = Title {| Title := "One"; TrackNum := 1; File_Url := "http://y/one.mp3" |}.
Proof.
  apply (trackPath_of_injective "A/T (2020)"
           {| Title := "One"; TrackNum := 1; File_Url := "http://x/1.mp3" |}
           {| Title := "One"; TrackNum := 1; File_Url := "http://y/one.mp3" |}).
  reflexivity.
Defined.

(** ** The release date *)

(** X8.  On a JSON string, that is a value between two quotes,
    [UnmarshalJSON] never panics: it hands the bytes between the quotes
    to [time.Parse], as they are written (escapes included), and
    returns its error or its time. *)
Theorem UnmarshalJSON_of_json_string (w : World) (s : string) :
  UnmarshalJSON w (json_quoted s)
  = match time_Parse w layout s with
    | inr err => Fail err
    | inl parsed => Ok parsed
    end.
Proof. apply UnmarshalJSON_quoted. Qed.

(** ** [downloadAlbum]: the page *)

(** X9.  Where the page cannot be fetched, [downloadAlbum] returns the
    error of [http.Get] as it is, without a prefix; the failed fetch is
    all it has done, and there is no body to close. *)
Theorem downloadAlbum_returns_fetch_error (w : World) (url : string)
  (tr : list event) (err : error) :
  http_Get w tr url = Some err ->
  downloadAlbum w url tr
  = (Returned (Some err), tr ++ [Ev AtPage (HttpGet url) (Some err)]).
Proof. apply downloadAlbum_fetch_error. Qed.

Lemma downloadAlbum_returns_fetch_error_witness :
  downloadAlbum Outage.world "https://x/album/down" []
  = (Returned (Some (LibError "connection refused")),
     [] ++ [Ev AtPage (HttpGet "https://x/album/down")
               (Some (LibError "connection refused"))]).
Proof.
  apply (downloadAlbum_returns_fetch_error Outage.world "https://x/album/down" []).
  reflexivity.
Defined.

(** X10.  Where the page is fetched and does not parse, [downloadAlbum]
    returns the error of [html.Parse] as it is, and the body of the
    response is closed on the way out. *)
Theorem downloadAlbum_returns_parse_error (w : World) (url : string)
  (tr : list event) (err : error) :
  http_Get w tr url = None ->
  html_Parse w (tr ++ [Ev AtPage (HttpGet url) None]) (length tr) = inr err ->
  downloadAlbum w url tr
  = (Returned (Some err),
     tr ++ [Ev AtPage (HttpGet url) None;
            Ev AtPage (HtmlParse (length tr)) (Some err);
            Ev AtPage (BodyClose (length tr)) None]).
Proof. apply downloadAlbum_parse_error. Qed.

Lemma downloadAlbum_returns_parse_error_witness :
  downloadAlbum Outage.world "https://x/album/garbled" []
  = (Returned (Some (LibError "unexpected EOF")),
     [] ++ [Ev AtPage (HttpGet "https://x/album/garbled") None;
            Ev AtPage (HtmlParse 0%nat) (Some (LibError "unexpected EOF"));
            Ev AtPage (BodyClose 0%nat) None]).
Proof.
  apply (downloadAlbum_returns_parse_error Outage.world
           "https://x/album/garbled" []); reflexivity.
Defined.

(** X11.  Where the album data do not decode, [downloadAlbum] returns
    the error of the decoder behind the prefix [could not parse album
    JSON: ], which wraps it; only the page has been touched, and its
    body is closed. *)
Theorem downloadAlbum_wraps_decode_error (w : World) (url : string)
  (tr : list event) (doc el0 : Node) (els : list Node) (err : error) :
  loads w url tr doc ->
  findElementsWithDataKey doc "data-tralbum" = el0 :: els ->
  json_Unmarshal w (getDataValue el0 "data-tralbum") = Fail err ->
  downloadAlbum w url tr
  = (Returned (Some (Errorf_w "could not parse album JSON: " err)),
     tr ++ page_events url tr ++ [Ev AtPage (BodyClose (length tr)) None]) /\
  Unwrap (Errorf_w "could not parse album JSON: " err) = Some err.
Proof.
  intros Hl Hf Hj. split; [|reflexivity].
  exact (downloadAlbum_decode_error w url tr doc el0 els err Hl Hf Hj).
Qed.

Lemma downloadAlbum_wraps_decode_error_witness :
  downloadAlbum (Demo.world false) "https://x/album/broken" []
  = (Returned (Some (Errorf_w "could not parse album JSON: "
                              (LibError "invalid character"))),
     [] ++ page_events "https://x/album/broken" []
        ++ [Ev AtPage (BodyClose (length (@nil event))) None]) /\
  Unwrap (Errorf_w "could not parse album JSON: " (LibError "invalid character"))
  = Some (LibError "invalid character").
Proof.
  apply (downloadAlbum_wraps_decode_error (Demo.world false)
           "https://x/album/broken" [] (Demo.album_page "{")
           (mkNode ElementNode "div"
              [{| Namespace := ""; Key := "data-tralbum"; Val := "{" |}] []) []).
  - split; reflexivity.
  - reflexivity.
  - reflexivity.
Defined.

(** ** [downloadAlbum]: what is left behind *)

(** X12.  Whatever the world answers, and however [downloadAlbum] ends
    (nil, an error or a panic), every response body and every tag it
    has opened is closed when it is over. *)
Theorem downloadAlbum_leaves_no_body_or_tag (w : World) (url : string)
  (tr : list event) (h : handle) :
  (length tr <= h)%nat ->
  let final := snd (downloadAlbum w url tr) in
  (opens_body final h = true -> closes_body final h = true) /\
  (opens_tag final h = true -> closes_tag final h = true).
Proof. apply downloadAlbum_closes_bodies_and_tags. Qed.

Lemma downloadAlbum_leaves_no_body_or_tag_witness :
  let final := snd (downloadAlbum (Demo.world true) "https://x/album/two-tracks" []) in
  (opens_body final 0%nat = true -> closes_body final 0%nat = true) /\
  (opens_tag final 0%nat = true -> closes_tag final 0%nat = true).
Proof.
  apply (downloadAlbum_leaves_no_body_or_tag (Demo.world true)
           "https://x/album/two-tracks" [] 0%nat).
  simpl. lia.
Defined.

(** X13.  When [downloadAlbum] returns nil, every file it has created
    is closed.  (A file stays open only on a path that returns an
    error.) *)
Theorem downloadAlbum_nil_closes_files (w : World) (url : string)
  (tr : list event) :
  fst (downloadAlbum w url tr) = Returned None ->
  files_closed (length tr) (snd (downloadAlbum w url tr)).
Proof. apply downloadAlbum_files_closed. Qed.

Lemma downloadAlbum_nil_closes_files_witness :
  files_closed (length (@nil event))
    (snd (downloadAlbum (Demo.world false) "https://x/album/with-art" [])).
Proof.
  apply (downloadAlbum_nil_closes_files (Demo.world false)
           "https://x/album/with-art" []).
  vm_compute. reflexivity.
Defined.

(** X14.  What a download does to directories is one of three things:
    nothing (it failed earlier); one [os.Stat] of a path whose answer
    is not that the path is missing, and then the path is used as it
    is, also when [os.Stat] failed for another reason; or one [os.Stat]
    that reports the path missing, followed by one [os.MkdirAll] of the
    same path with mode 0755. *)
Theorem downloadAlbum_directory_protocol (w : World) (url : string)
  (tr : list event) :
  exists evs, snd (downloadAlbum w url tr) = tr ++ evs /\ dir_protocol w evs.
Proof. apply downloadAlbum_dir_protocol. Qed.

(** ** [downloadAlbums] *)

(** X15.  The path [downloadAlbums] reads off an item is the [href] of
    the first child that is no text, is named [a], and has a non-empty
    [href] (read as [getDataValue] does, from the first attribute of
    that name); an anchor without [href] or with an empty one is
    skipped, and the path is empty when there is no such child. *)
Theorem downloadAlbums_reads_first_link (children : list Node) :
  downloadAlbums_anchor children EmptyString
  = hd EmptyString
       (List.filter nonempty
          (map (fun c => getDataValue c "href") (List.filter is_anchor children))).
Proof. apply downloadAlbums_anchor_first. Qed.

(** X16.  Where the storefront cannot be fetched, [downloadAlbums]
    returns the error of [http.Get] as it is and does nothing else. *)
Theorem downloadAlbums_returns_fetch_error (w : World) (url : URL)
  (tr : list event) (err : error) :
  http_Get w tr (url_String w url) = Some err ->
  downloadAlbums w url tr
  = (Returned (Some err),
     tr ++ [Ev AtStorefront (HttpGet (url_String w url)) (Some err)]).
Proof. apply downloadAlbums_fetch_error. Qed.

Lemma downloadAlbums_returns_fetch_error_witness :
  downloadAlbums Outage.world {| Origin := "https://down"; Path := "/music" |} []
  = (Returned (Some (LibError "connection refused")),
     [] ++ [Ev AtStorefront
              (HttpGet (url_String Outage.world
                          {| Origin := "https://down"; Path := "/music" |}))
              (Some (LibError "connection refused"))]).
Proof.
  apply (downloadAlbums_returns_fetch_error Outage.world
           {| Origin := "https://down"; Path := "/music" |} []).
  reflexivity.
Defined.

(** X17.  Where the storefront is fetched and does not parse,
    [downloadAlbums] returns the error of [html.Parse] as it is, closes
    the body and downloads nothing. *)
Theorem downloadAlbums_returns_parse_error (w : World) (url : URL)
  (tr : list event) (err : error) :
  http_Get w tr (url_String w url) = None ->
  html_Parse w (tr ++ [Ev AtStorefront (HttpGet (url_String w url)) None])
             (length tr) = inr err ->
  downloadAlbums w url tr
  = (Returned (Some err),
     tr ++ [Ev AtStorefront (HttpGet (url_String w url)) None;
            Ev AtStorefront (HtmlParse (length tr)) (Some err);
            Ev AtStorefront (BodyClose (length tr)) None]).
Proof. apply downloadAlbums_parse_error. Qed.

Lemma downloadAlbums_returns_parse_error_witness :
  downloadAlbums Outage.world {| Origin := "https://garbled"; Path := "/music" |} []
  = (Returned (Some (LibError "unexpected EOF")),
     [] ++ [Ev AtStorefront
              (HttpGet (url_String Outage.world
                          {| Origin := "https://garbled"; Path := "/music" |}))
              None;
            Ev AtStorefront (HtmlParse (length (@nil event)))
               (Some (LibError "unexpected EOF"));
            Ev AtStorefront (BodyClose (length (@nil event))) None]).
Proof.
  apply (downloadAlbums_returns_parse_error Outage.world
           {| Origin := "https://garbled"; Path := "/music" |} []); reflexivity.
Defined.

(** X18.  A storefront none of whose items links to a path that begins
    with [/album] (items that link elsewhere, items without a link):
    [downloadAlbums] returns nil, and the storefront page is all it has
    touched. *)
Theorem downloadAlbums_without_albums (w : World) (url : URL)
  (tr : list event) (doc : Node) :
  storefront_loads w url tr doc ->
  Forall (fun el => HasPrefix (Path (item_url url el)) "/album" = false)
         (findElementsWithDataKey doc "data-item-id") ->
  downloadAlbums w url tr
  = (Returned None,
     tr ++ [Ev AtStorefront (HttpGet (url_String w url)) None;
            Ev AtStorefront (HtmlParse (length tr)) None;
            Ev AtStorefront (BodyClose (length tr)) None]).
Proof. apply downloadAlbums_no_album. Qed.

Lemma downloadAlbums_without_albums_witness :
  downloadAlbums Outage.world {| Origin := "https://x"; Path := "/music" |} []
  = (Returned None,
     [] ++ [Ev AtStorefront
              (HttpGet (url_String Outage.world
                          {| Origin := "https://x"; Path := "/music" |})) None;
            Ev AtStorefront (HtmlParse (length (@nil event))) None;
            Ev AtStorefront (BodyClose (length (@nil event))) None]).
Proof.
  apply (downloadAlbums_without_albums Outage.world
           {| Origin := "https://x"; Path := "/music" |} [] Outage.singles_page).
  - split; reflexivity.
  - vm_compute. repeat (apply List.Forall_cons || apply List.Forall_nil); reflexivity.
Defined.

(** X19.  [downloadAlbums] only adds to the trace, and however it ends
    every response body and every tag opened since it was called, by
    itself or by the downloads it starts, is closed when it is over. *)
Theorem downloadAlbums_leaves_no_body_or_tag (w : World) (url : URL) :
  balanced (downloadAlbums w url).
Proof. apply downloadAlbums_balanced. Qed.

(** ** [main] *)

(** X20.  A run of [main] never ends on an error: it ends normally or
    by the panic of a download.  It only adds to the trace, registers
    no deferred call of its own, and every response body and every tag
    opened during the run is closed at its end, panic included. *)
Theorem main_run_is_clean (w : World) (args : list string) (tr : list event)
  (h : handle) :
  (length tr <= h)%nat ->
  let run := main w args {| trace := tr; defers := [] |} in
  match fst run with Fail _ => False | _ => True end /\
  defers (snd run) = [] /\
  (exists evs, trace (snd run) = tr ++ evs) /\
  (opens_body (trace (snd run)) h = true -> closes_body (trace (snd run)) h = true) /\
  (opens_tag (trace (snd run)) h = true -> closes_tag (trace (snd run)) h = true).
Proof.
  intros Hh run. subst run.
  set (fr0 := {| trace := tr; defers := [] |}).
  split; [apply never_fails_main|].
  destruct (main_defers_nothing w args fr0) as (evs & ds & Ht & Hd & _ & Hds).
  assert (Hnil : ds = []) by (destruct ds as [|d ds]; [reflexivity | inversion Hds; contradiction]).
  subst ds. cbn [app defers fr0] in Hd.
  split; [exact Hd|]. split; [exists evs; exact Ht|].
  assert (H0 : settled (length tr) fr0).
  { split; [constructor|]. intros h' Hh'. cbn [trace fr0].
    destruct (opens_beyond tr h' Hh') as [-> ->]. split; discriminate. }
  destruct (keeps_settled_main w args (length tr) fr0 H0) as [_ Hs].
  destruct (Hs h Hh) as [Hb Htag]. rewrite Hd in Hb, Htag.
  split; intros Ho; [destruct (Hb Ho) as [[]|Hc] | destruct (Htag Ho) as [[]|Hc]];
    exact Hc.
Qed.

Lemma main_run_is_clean_witness :
  let run := main (Demo.world true)
               ["https://x/music"; "https://x/album/number-date"]
               {| trace := []; defers := [] |} in
  match fst run with Fail _ => False | _ => True end /\
  defers (snd run) = [] /\
  (exists evs, trace (snd run) = [] ++ evs) /\
  (opens_body (trace (snd run)) 0%nat = true
   -> closes_body (trace (snd run)) 0%nat = true) /\
  (opens_tag (trace (snd run)) 0%nat = true
   -> closes_tag (trace (snd run)) 0%nat = true).
Proof.
  apply (main_run_is_clean (Demo.world true)
           ["https://x/music"; "https://x/album/number-date"] [] 0%nat).
  simpl. lia.
Defined.

(** X21.  In the loop of [main], an album address that cannot be
    fetched costs one line: the error is printed after the cross, and
    the loop goes on with the arguments that remain. *)
Theorem main_prints_fetch_error_and_goes_on (w : World) (u : string)
  (parsed : URL) (rest : list string) (fr : frame) (err : error) :
  url_Parse w u = inl parsed ->
  HasPrefix (Path parsed) "/album" = true ->
  http_Get w (trace fr) u = Some err ->
  for_range (u :: rest) (main_url w) fr
  = for_range rest (main_url w)
      {| trace := trace fr ++ [Ev AtPage (HttpGet u) (Some err);
                               Ev AtMain (Stdout ("❌ " +:+ Error err +:+ nl)) None];
         defers := defers fr |}.
Proof. apply main_fetch_error_goes_on. Qed.

Lemma main_prints_fetch_error_and_goes_on_witness :
  for_range ["https://x/album/down"; "https://x/album/two-tracks"]
    (main_url Outage.world) {| trace := []; defers := [] |}
  = for_range ["https://x/album/two-tracks"] (main_url Outage.world)
      {| trace := [] ++ [Ev AtPage (HttpGet "https://x/album/down")
                           (Some (LibError "connection refused"));
                         Ev AtMain
                            (Stdout ("❌ " +:+ Error (LibError "connection refused")
                                     +:+ nl)) None];
         defers := [] |}.
Proof.
  apply (main_prints_fetch_error_and_goes_on Outage.world "https://x/album/down"
           {| Origin := "https://x"; Path := "/album/down" |}
           ["https://x/album/two-tracks"] {| trace := []; defers := [] |}
           (LibError "connection refused")); reflexivity.
Defined.

(** ** The first revision *)

(** X22.  On a page that is fetched and parsed, the [downloadAlbum] of
    the first revision does what the later one does with names kept
    as they are: same result, same calls in the same order. *)
Theorem first_revision_agrees_on_loaded_pages (w : World) (url : string)
  (tr : list event) (doc : Node) :
  loads w url tr doc -> safeNames w = false ->
  Initial.downloadAlbum w url tr = downloadAlbum w url tr.
Proof. apply Initial_downloadAlbum_loaded. Qed.

Lemma first_revision_agrees_on_loaded_pages_witness :
  Initial.downloadAlbum Outage.world "https://x/album/two-tracks" []
  = downloadAlbum Outage.world "https://x/album/two-tracks" [].
Proof.
  apply (first_revision_agrees_on_loaded_pages Outage.world
           "https://x/album/two-tracks" [] (Demo.album_page "two-tracks")).
  - split; reflexivity.
  - reflexivity.
Defined.

(** X23.  In the first revision a page that cannot be fetched makes
    [downloadAlbum] panic with the text of the error, where the later
    revision returns the error; the calls made are the same. *)
Theorem first_revision_panics_on_fetch_error (w : World) (url : string)
  (tr : list event) (err : error) :
  http_Get w tr url = Some err ->
  Initial.downloadAlbum w url tr
  = (Panicked (Error err), snd (downloadAlbum w url tr)) /\
  fst (downloadAlbum w url tr) = Returned (Some err).
Proof.
  intros Hget.
  rewrite (Initial_downloadAlbum_fetch_panics w url tr err Hget),
    (downloadAlbum_fetch_error w url tr err Hget). split; reflexivity.
Qed.

Lemma first_revision_panics_on_fetch_error_witness :
  Initial.downloadAlbum Outage.world "https://x/album/down" []
  = (Panicked (Error (LibError "connection refused")),
     snd (downloadAlbum Outage.world "https://x/album/down" [])) /\
  fst (downloadAlbum Outage.world "https://x/album/down" [])
  = Returned (Some (LibError "connection refused")).
Proof.
  apply (first_revision_panics_on_fetch_error Outage.world
           "https://x/album/down" []).
  reflexivity.
Defined.

(** X24.  In the first revision a page that is fetched and does not
    parse makes [downloadAlbum] panic with the text of the error; the
    body of the response is closed while the panic unwinds, by the
    deferred call. *)
Theorem first_revision_panics_on_parse_error (w : World) (url : string)
  (tr : list event) (err : error) :
  http_Get w tr url = None ->
  html_Parse w (tr ++ [Ev AtPage (HttpGet url) None]) (length tr) = inr err ->
  Initial.downloadAlbum w url tr
  = (Panicked (Error err),
     tr ++ [Ev AtPage (HttpGet url) None;
            Ev AtPage (HtmlParse (length tr)) (Some err);
            Ev AtPage (BodyClose (length tr)) None]).
Proof. apply Initial_downloadAlbum_parse_panics. Qed.

Lemma first_revision_panics_on_parse_error_witness :
  Initial.downloadAlbum Outage.world "https://x/album/garbled" []
  = (Panicked (Error (LibError "unexpected EOF")),
     [] ++ [Ev AtPage (HttpGet "https://x/album/garbled") None;
            Ev AtPage (HtmlParse (length (@nil event)))
               (Some (LibError "unexpected EOF"));
            Ev AtPage (BodyClose (length (@nil event))) None]).
Proof.
  apply (first_revision_panics_on_parse_error Outage.world
           "https://x/album/garbled" []); reflexivity.
Defined.

(** X25.  In the first revision the panic ends the program: when the
    first argument cannot be fetched, [main] stops there, and neither
    the arguments that remain nor the closing line are reached. *)
Theorem first_revision_main_stops_on_fetch_error (w : World) (u : string)
  (rest : list string) (fr : frame) (err : error) :
  http_Get w (trace fr) u = Some err ->
  Initial.main w (u :: rest) fr
  = (Panic (Error err),
     {| trace := trace fr ++ [Ev AtPage (HttpGet u) (Some err)];
        defers := defers fr |}).
Proof. apply Initial_main_fetch_panics. Qed.

Lemma first_revision_main_stops_on_fetch_error_witness :
  Initial.main Outage.world ["https://x/album/down"; "https://x/album/two-tracks"]
    {| trace := []; defers := [] |}
  = (Panic (Error (LibError "connection refused")),
     {| trace := [] ++ [Ev AtPage (HttpGet "https://x/album/down")
                          (Some (LibError "connection refused"))];
        defers := [] |}).
Proof.
  apply (first_revision_main_stops_on_fetch_error Outage.world
           "https://x/album/down" ["https://x/album/two-tracks"]
           {| trace := []; defers := [] |}).
  reflexivity.
Defined.
